(** * Resumable ingestion pipeline of derzetta/blueprint (python_draft)

    A shallow embedding of the three scripts of the pipeline

      - [generate_summaries.py]  (summaries ledger, [extract_data]),
      - [generate_questions.py]  (questions ledger, [generate_all_questions]),
      - [index_documents.py]     (record building, embedding, upsert),

    and the properties of the checkpoint ledger, the batcher, the question
    normalisation and the index writer.

    Python [str] values are sequences of Unicode code points; sets are
    [gset]; the pickled ledgers are records of parallel lists; the external
    capabilities (text generator, embedder, document processors) are
    oracles threading an abstract world, answering [None] when the call
    raises. *)

From Stdlib Require Import ZArith NArith Lia String Ascii.
From stdpp Require Import base decidable option list gmap sets pretty.

Local Open Scope Z_scope.

(* ===================================================================== *)
(** * Python strings *)
(* ===================================================================== *)

Module PyStr.

(** A Python [str] is a sequence of code points. *)
Definition codepoint : Type := N.
Definition pystr : Type := list N.

(** ASCII literal of the source, as a [str]. *)
Definition py (s : string) : pystr :=
  (λ a, N_of_ascii a) <$> list_ascii_of_string s.

(** [len(s)] *)
Definition len (s : pystr) : Z := Z.of_nat (length s).

(** [str.isspace] on one code point (the whitespace of [str.strip()]). *)
Definition is_space (c : N) : bool :=
  ((9 <=? c) && (c <=? 13) || (28 <=? c) && (c <=? 32)
   || (c =? 133) || (c =? 160) || (c =? 5760)
   || (8192 <=? c) && (c <=? 8202)
   || (c =? 8232) || (c =? 8233) || (c =? 8239) || (c =? 8287)
   || (c =? 12288))%N.

(** Line boundaries of [str.splitlines()] other than the pair CR LF. *)
Definition is_linebreak (c : N) : bool :=
  ((10 <=? c) && (c <=? 13) || (28 <=? c) && (c <=? 30)
   || (c =? 133) || (c =? 8232) || (c =? 8233))%N.

(** Drop the longest prefix whose code points satisfy [p]. *)
Fixpoint lstrip_by (p : N → bool) (s : pystr) : pystr :=
  match s with
  | [] => []
  | c :: s' => if p c then lstrip_by p s' else s
  end.

Definition rstrip_by (p : N → bool) (s : pystr) : pystr :=
  reverse (lstrip_by p (reverse s)).

(** [s.strip()] *)
Definition strip (s : pystr) : pystr := rstrip_by is_space (lstrip_by is_space s).

(** [c in chars] *)
Definition mem_chars (chars : pystr) (c : N) : bool :=
  existsb (N.eqb c) chars.

(** [s.lstrip(chars)] *)
Definition lstrip (chars : pystr) (s : pystr) : pystr :=
  lstrip_by (mem_chars chars) s.

(** [s.splitlines()]: [cur] is the line being read. A final line is
    produced only when it is not empty. *)
Fixpoint splitlines_from (cur : pystr) (s : pystr) : list pystr :=
  match s with
  | [] => match cur with [] => [] | _ => [cur] end
  | c :: s' =>
      if (c =? 13)%N then
        match s' with
        | 10%N :: s'' => cur :: splitlines_from [] s''
        | _ => cur :: splitlines_from [] s'
        end
      else if is_linebreak c then cur :: splitlines_from [] s'
      else splitlines_from (cur ++ [c]) s'
  end.

Definition splitlines (s : pystr) : list pystr := splitlines_from [] s.

(** Number of bytes of one code point in UTF-8. (A lone surrogate, on
    which [encode] raises, is counted as three bytes.) *)
Definition utf8_width (c : N) : Z :=
  if (c <? 128)%N then 1
  else if (c <? 2048)%N then 2
  else if (c <? 65536)%N then 3
  else 4.

(** [len(s.encode("utf-8"))] *)
Definition utf8_len (s : pystr) : Z :=
  foldr (λ c acc, utf8_width c + acc) 0 s.

(** [sep.join(parts)] *)
Fixpoint join (sep : pystr) (parts : list pystr) : pystr :=
  match parts with
  | [] => []
  | [p] => p
  | p :: rest => p ++ sep ++ join sep rest
  end.

(** [xs[:n]] for a Python integer [n] (a negative [n] counts from the end). *)
Definition slice_to {A} (xs : list A) (n : Z) : list A :=
  if 0 <=? n then take (Z.to_nat n) xs
  else take (Z.to_nat (Z.of_nat (length xs) + n)) xs.

End PyStr.
Export PyStr.

(* ===================================================================== *)
(** * Batcher: [chunked] of index_documents.py *)
(* ===================================================================== *)

Module Batcher.

Section chunked.
Context {A : Type}.

(** The generator [chunked(xs, n)], as the list of the groups it
    yields; [buf] is the buffer at the head of the loop. *)
Fixpoint chunked_from (buf : list A) (xs : list A) (n : Z) : list (list A) :=
  match xs with
  | [] => match buf with [] => [] | _ => [buf] end
  | x :: xs' =>
      let buf' := buf ++ [x] in
      if n <=? Z.of_nat (length buf')
      then buf' :: chunked_from [] xs' n
      else chunked_from buf' xs' n
  end.

Definition chunked (xs : list A) (n : Z) : list (list A) :=
  chunked_from [] xs n.
End chunked.

End Batcher.
Export Batcher.

(* ===================================================================== *)
(** * Checkpoint ledgers *)
(* ===================================================================== *)

Module Ledger.

(** A chunk of a document, as pickled by the summariser: a plain string
    or a document-like object (see [chunk_text] of index_documents.py). *)
Inductive Chunk : Type :=
  | ChunkStr (s : pystr)
  | ChunkPage (page_content : pystr)
  | ChunkContent (content : pystr)
  | ChunkOther (repr : pystr).

(** [questions_out]: the dict of parallel lists [doc_id], [questions]. *)
Record QLedger : Type := mkQLedger {
  q_doc_id : list pystr;
  q_questions : list (list pystr);
}.

(** [out] / [summaries_data]: the dict of parallel lists [doc_id],
    [summary], [chunks]. *)
Record SLedger : Type := mkSLedger {
  s_doc_id : list pystr;
  s_summary : list pystr;
  s_chunks : list (list Chunk);
}.

(** The ledgers created when no backup file exists. *)
Definition q_empty : QLedger := mkQLedger [] [].
Definition s_empty : SLedger := mkSLedger [] [] [].

(** The parallel lists of a ledger have one length. *)
Definition q_wf (l : QLedger) : Prop :=
  length (q_doc_id l) = length (q_questions l).
Definition s_wf (l : SLedger) : Prop :=
  length (s_doc_id l) = length (s_summary l) ∧
  length (s_doc_id l) = length (s_chunks l).

(** What a driver did, in the order of execution. [EvSkip], [EvAttempt],
    [EvInvoke] and [EvAppend] carry the position of the unit in the work
    list: the unit was found in the checkpoint, entered the [try], was
    sent to the external capability, was appended to the ledger.
    [EvFlush] carries the ledger written to the backup file. *)
Inductive Event (L : Type) : Type :=
  | EvSkip (i : nat)
  | EvAttempt (i : nat)
  | EvInvoke (i : nat)
  | EvAppend (i : nat)
  | EvFlush (l : L).
Global Arguments EvSkip {L} i.
Global Arguments EvAttempt {L} i.
Global Arguments EvInvoke {L} i.
Global Arguments EvAppend {L} i.
Global Arguments EvFlush {L} l.

Section events.
Context {L : Type}.
Definition is_skip (e : Event L) : option nat :=
  match e with EvSkip i => Some i | _ => None end.
Definition is_attempt (e : Event L) : option nat :=
  match e with EvAttempt i => Some i | _ => None end.
Definition is_invoke (e : Event L) : option nat :=
  match e with EvInvoke i => Some i | _ => None end.
Definition is_append (e : Event L) : option nat :=
  match e with EvAppend i => Some i | _ => None end.
Definition is_flush (e : Event L) : option L :=
  match e with EvFlush l => Some l | _ => None end.

(** The unit an event is about. *)
Definition unit_of (e : Event L) : option nat :=
  match e with
  | EvSkip i | EvAttempt i | EvInvoke i | EvAppend i => Some i
  | EvFlush _ => None
  end.

(** The events of a trace that are about unit [i]. *)
Definition about (i : nat) (evs : list (Event L)) : list (Event L) :=
  filter (λ e, unit_of e = Some i) evs.

Definition skips (evs : list (Event L)) : list nat := omap is_skip evs.
Definition attempts (evs : list (Event L)) : list nat := omap is_attempt evs.
Definition invokes (evs : list (Event L)) : list nat := omap is_invoke evs.
Definition appends (evs : list (Event L)) : list nat := omap is_append evs.
Definition flushes (evs : list (Event L)) : list L := omap is_flush evs.
End events.

End Ledger.
Export Ledger.

(* ===================================================================== *)
(** * generate_questions.py *)
(* ===================================================================== *)

Module Questions.

Definition backup_every : Z := 20.

(** The characters of [lstrip("-•0123456789. ")]. *)
Definition markers : pystr := py "-" ++ [8226%N] ++ py "0123456789. ".

(** [list(dict.fromkeys(qs))]: the keys in first-insertion order;
    [seen] holds the keys already in the dict. *)
Fixpoint fromkeys_from (seen : list pystr) (qs : list pystr) : list pystr :=
  match qs with
  | [] => []
  | q :: qs' =>
      if bool_decide (q ∈ seen) then fromkeys_from seen qs'
      else q :: fromkeys_from (q :: seen) qs'
  end.

Definition fromkeys (qs : list pystr) : list pystr := fromkeys_from [] qs.

(** [q.strip().lstrip("-•0123456789. ").strip()] *)
Definition clean_line (q : pystr) : pystr :=
  strip (lstrip markers (strip q)).

(** The two list comprehensions of [generate_questions_from_summary]
    applied to [raw_lines = response.content.splitlines()]. *)
Definition normalize_lines (raw_lines : list pystr) (n : Z) : list pystr :=
  let questions := clean_line <$> filter (λ q, strip q ≠ []) raw_lines in
  slice_to (fromkeys (filter (λ q, 10 < len q) questions)) n.

(** The request sent to the text generator. The prompt of the source is
    a fixed text around these three values. *)
Record Prompt : Type := mkPrompt {
  p_context : option (pystr * pystr);
  p_n : Z;
  p_summary : pystr;
}.

Abbreviation QEvent := (Event QLedger).

Section driver.
Context {World : Type}.
(** [llm.invoke(prompt).content]; [None] when the call raises. *)
Variable llm_invoke : World → Prompt → World * option pystr.

Definition generate_questions_from_summary
    (w : World) (summary file_name year : pystr) (n : Z)
    : World * list pystr :=
  let context :=
    if bool_decide (file_name ≠ [] ∧ year ≠ [])
    then Some (file_name, year) else None in
  match llm_invoke w (mkPrompt context n summary) with
  | (w', Some content) => (w', normalize_lines (splitlines content) n)
  | (w', None) => (w', [])
  end.

(** The variables of [generate_all_questions], the content of the
    backup file and the world of the text generator. [events] is not
    a variable of the program: it records what the run did, in order,
    for the statements about it. *)
Record QRun : Type := mkQRun {
  questions_out : QLedger;
  backup_file : option QLedger;
  processed_count : Z;
  failed_count : Z;
  skipped_count : Z;
  world : World;
  events : list QEvent;
}.

Definition log (e : QEvent) (st : QRun) : QRun :=
  mkQRun (questions_out st) (backup_file st) (processed_count st)
    (failed_count st) (skipped_count st) (world st) (events st ++ [e]).

Definition set_world (w : World) (st : QRun) : QRun :=
  mkQRun (questions_out st) (backup_file st) (processed_count st)
    (failed_count st) (skipped_count st) w (events st).

Definition count_skipped (st : QRun) : QRun :=
  mkQRun (questions_out st) (backup_file st) (processed_count st)
    (failed_count st) (skipped_count st + 1) (world st) (events st).

Definition count_failed (st : QRun) : QRun :=
  mkQRun (questions_out st) (backup_file st) (processed_count st)
    (failed_count st + 1) (skipped_count st) (world st) (events st).

(** The two [append]s and [processed_count += 1]. *)
Definition store (doc_id : pystr) (questions : list pystr) (st : QRun) : QRun :=
  mkQRun
    (mkQLedger (q_doc_id (questions_out st) ++ [doc_id])
               (q_questions (questions_out st) ++ [questions]))
    (backup_file st) (processed_count st + 1)
    (failed_count st) (skipped_count st) (world st) (events st).

(** [pickle.dump(questions_out, f)] *)
Definition dump (st : QRun) : QRun :=
  log (EvFlush (questions_out st))
    (mkQRun (questions_out st) (Some (questions_out st)) (processed_count st)
       (failed_count st) (skipped_count st) (world st) (events st)).

Section loop.
Variable summaries_data : SLedger.
Variable meta_map : gmap pystr (pystr * pystr).
Variable already_processed_questions : gset pystr.

(** The body of the [try] for unit [i]. *)
Definition try_unit (i : nat) (doc_id : pystr) (st : QRun) : QRun :=
  match s_summary summaries_data !! i with
  | None => count_failed st
  | Some summary =>
      let '(file_name, year) :=
        match meta_map !! doc_id with
        | Some (name, year) => (name, year)
        | None => (py "Unknown", py "Unknown")
        end in
      let '(st1, questions) :=
        if bool_decide (summary ≠ [] ∧ 20 < len (strip summary)) then
          let '(w', qs) :=
            generate_questions_from_summary (world st) summary file_name year 10 in
          (set_world w' (log (EvInvoke i) st), qs)
        else (st, []) in
      match questions with
      | [] => count_failed st1
      | _ => log (EvAppend i) (store doc_id questions st1)
      end
  end.

(** One iteration of the [for] loop. *)
Definition loop_body (st : QRun) (unit : nat * pystr) : QRun :=
  let '(i, doc_id) := unit in
  if bool_decide (doc_id ∈ already_processed_questions) then
    log (EvSkip i) (count_skipped st)
  else
    let st1 := try_unit i doc_id (log (EvAttempt i) st) in
    if bool_decide (0 < processed_count st1 ∧
                    processed_count st1 `mod` backup_every = 0)
    then dump st1 else st1.

(** The units in the order of [range(total_docs)]. *)
Definition units : list (nat * pystr) :=
  imap (λ i d, (i, d)) (s_doc_id summaries_data).

Definition run_loop (st : QRun) : QRun := foldl loop_body st units.

(** [generate_all_questions()], from the ledger loaded at start. *)
Definition generate_all_questions (st : QRun) : QRun :=
  dump (run_loop st).
End loop.

(** ** The module-level script *)

(** The pickled questions backup: it may carry a [chunks] key. *)
Record QBackup : Type := mkQBackup {
  qb_doc_id : list pystr;
  qb_questions : list (list pystr);
  qb_chunks : option (list (list Chunk));
}.

(** The CSV of file metadata: its column names and, per row, the
    values of [id], [name] and [year]. *)
Record FilesIndex : Type := mkFilesIndex {
  fi_columns : list pystr;
  fi_rows : list (pystr * (pystr * pystr));
}.

(** The files the script reads and writes. *)
Record Files : Type := mkFiles {
  questions_backup : option QBackup;
  summaries_backup : option SLedger;
  files_index : option FilesIndex;
}.

(** How the script ends: [sys.exit(code)] before the driver, an
    exception nobody catches before the driver, or the return of the
    driver. *)
Inductive Outcome : Type :=
  | Exit (code : Z)
  | Raised
  | Finished (st : QRun).

(** Loading [questions_out]: the [chunks] key is popped. *)
Definition load_questions (f : option QBackup) : QLedger :=
  match f with
  | Some b => mkQLedger (qb_doc_id b) (qb_questions b)
  | None => q_empty
  end.

(** The two lists of the backup file as found on disk. *)
Definition as_file (f : option QBackup) : option QLedger :=
  match f with
  | Some b => Some (mkQLedger (qb_doc_id b) (qb_questions b))
  | None => None
  end.

(** The script from its first line to the return of
    [generate_all_questions]: the questions backup is loaded, then the
    summaries backup and the CSV are required ([sys.exit(1)]), the
    columns are checked ([sys.exit(1)]), and [meta_map] is built with
    [to_dict(orient="index")], which raises on a repeated id. *)
Definition main (fs : Files) (w : World) : Outcome :=
  let questions_out := load_questions (questions_backup fs) in
  let already_processed_questions : gset pystr :=
    list_to_set (q_doc_id questions_out) in
  match summaries_backup fs with
  | None => Exit 1
  | Some summaries_data =>
      match files_index fs with
      | None => Exit 1
      | Some files_df =>
          if bool_decide (py "id" ∈ fi_columns files_df ∧
                          py "name" ∈ fi_columns files_df ∧
                          py "year" ∈ fi_columns files_df)
          then
            if bool_decide (NoDup (fi_rows files_df).*1) then
              let meta_map : gmap pystr (pystr * pystr) :=
                list_to_map (fi_rows files_df) in
              Finished
                (generate_all_questions summaries_data meta_map
                   already_processed_questions
                   (mkQRun questions_out (as_file (questions_backup fs))
                      0 0 0 w []))
            else Raised
          else Exit 1
      end
  end.
End driver.

End Questions.

(* ===================================================================== *)
(** * generate_summaries.py *)
(* ===================================================================== *)

Module Summaries.

Definition backup_every : Z := 10.

(** What the summarising chain hands back: a string, a dict (the values
    that are strings are [Some]), or an object with a [content]
    attribute; [repr] is [str(x)]. *)
Inductive Generated : Type :=
  | PlainText (s : pystr)
  | StructuredResult (fields : gmap pystr (option pystr)) (repr : pystr)
  | Wrapped (content : option pystr) (repr : pystr).

Definition str_field (fields : gmap pystr (option pystr)) (k : pystr)
    : option pystr :=
  match fields !! k with Some (Some s) => Some s | _ => None end.

Definition _as_text (x : Generated) : pystr :=
  match x with
  | PlainText s => s
  | StructuredResult fields repr =>
      match str_field fields (py "output_text") with
      | Some s => s
      | None =>
          match str_field fields (py "text") with
          | Some s => s
          | None =>
              match str_field fields (py "content") with
              | Some s => s
              | None => repr
              end
          end
      end
  | Wrapped (Some s) _ => s
  | Wrapped None repr => repr
  end.

(** A row of [meta_map]: [mimeType] is always there (the table is
    filtered on it); [name] and [year] are read with [.get]. *)
Record FileMeta : Type := mkFileMeta {
  mimeType : pystr;
  name : option pystr;
  year : option pystr;
}.

Definition mime_gdoc : pystr := py "application/vnd.google-apps.document".
Definition mime_docx : pystr :=
  py "application/vnd.openxmlformats-officedocument.wordprocessingml.document".
Definition mime_gsheet : pystr := py "application/vnd.google-apps.spreadsheet".
Definition mime_xlsx : pystr :=
  py "application/vnd.openxmlformats-officedocument.spreadsheetml.sheet".

Definition supported_mimetypes : list pystr :=
  [mime_gdoc; mime_docx; mime_gsheet; mime_xlsx].

Abbreviation SEvent := (Event SLedger).

Section driver.
Context {World : Type}.
(** [process_docx_file(fid, file_name, year)] and
    [process_excel_file(fid, file_name, year)]: download, split and
    summarise; [None] when the call raises. *)
Variable process_docx_file process_excel_file :
  World → pystr → pystr → pystr → World * option (Generated * list Chunk).

(** The variables of [extract_data], the content of the backup file
    and the world of the external calls. [events] is not a variable of
    the program: it records what the run did, in order. *)
Record SRun : Type := mkSRun {
  out : SLedger;
  backup_file : option SLedger;
  failed_ids : list pystr;
  processed_count : Z;
  skipped_count : Z;
  world : World;
  events : list SEvent;
}.

Definition log (e : SEvent) (st : SRun) : SRun :=
  mkSRun (out st) (backup_file st) (failed_ids st) (processed_count st)
    (skipped_count st) (world st) (events st ++ [e]).

Definition set_world (w : World) (st : SRun) : SRun :=
  mkSRun (out st) (backup_file st) (failed_ids st) (processed_count st)
    (skipped_count st) w (events st).

Definition count_skipped (st : SRun) : SRun :=
  mkSRun (out st) (backup_file st) (failed_ids st) (processed_count st)
    (skipped_count st + 1) (world st) (events st).

(** The [except] branch: [failed_ids.append(fid)]. *)
Definition fail (fid : pystr) (st : SRun) : SRun :=
  mkSRun (out st) (backup_file st) (failed_ids st ++ [fid])
    (processed_count st) (skipped_count st) (world st) (events st).

(** The three [append]s and [processed_count += 1]. *)
Definition store (fid summary : pystr) (chunks : list Chunk) (st : SRun) : SRun :=
  mkSRun
    (mkSLedger (s_doc_id (out st) ++ [fid]) (s_summary (out st) ++ [summary])
               (s_chunks (out st) ++ [chunks]))
    (backup_file st) (failed_ids st) (processed_count st + 1)
    (skipped_count st) (world st) (events st).

(** [pickle.dump(out, f)] *)
Definition dump (st : SRun) : SRun :=
  log (EvFlush (out st))
    (mkSRun (out st) (Some (out st)) (failed_ids st) (processed_count st)
       (skipped_count st) (world st) (events st)).

(** A run either goes on or is ended by an exception nobody catches. *)
Inductive Result : Type :=
  | Ok (st : SRun)
  | Raise (st : SRun).

Section loop.
Variable meta_map : gmap pystr FileMeta.
Variable already_processed : gset pystr.

Definition periodic_backup (st : SRun) : SRun :=
  if bool_decide (0 < processed_count st ∧
                  processed_count st `mod` backup_every = 0)
  then dump st else st.

(** One iteration of the [for] loop. The lookup [meta_map[fid]] of
    the skip branch is outside the [try]. *)
Definition loop_body (st : SRun) (unit : nat * pystr) : Result :=
  let '(i, fid) := unit in
  if bool_decide (fid ∈ already_processed) then
    match meta_map !! fid with
    | Some _ => Ok (log (EvSkip i) (count_skipped st))
    | None => Raise (count_skipped st)
    end
  else
    let st := log (EvAttempt i) st in
    match meta_map !! fid with
    | None => Ok (fail fid st)
    | Some m =>
        let mime_type := mimeType m in
        let file_name := default (py "Unknown_File_" ++ fid) (name m) in
        let year := default (py "Unknown") (year m) in
        let process :=
          if bool_decide (mime_type ∈ [mime_gdoc; mime_docx])
          then Some process_docx_file
          else if bool_decide (mime_type ∈ [mime_gsheet; mime_xlsx])
          then Some process_excel_file
          else None in
        match process with
        | None => Ok (fail fid st)
        | Some process =>
            match process (world st) fid file_name year with
            | (w', None) => Ok (fail fid (set_world w' (log (EvInvoke i) st)))
            | (w', Some (summary, chunks)) =>
                Ok (periodic_backup
                      (log (EvAppend i)
                         (store fid (_as_text summary) chunks
                            (set_world w' (log (EvInvoke i) st)))))
            end
        end
    end.

Fixpoint run_loop (units : list (nat * pystr)) (st : SRun) : Result :=
  match units with
  | [] => Ok st
  | u :: units' =>
      match loop_body st u with
      | Ok st' => run_loop units' st'
      | Raise st' => Raise st'
      end
  end.

(** [extract_data(file_ids)], from the ledger loaded at start. *)
Definition extract_data (file_ids : list pystr) (st : SRun) : Result :=
  match run_loop (imap (λ i d, (i, d)) file_ids) st with
  | Ok st' => Ok (dump st')
  | Raise st' => Raise st'
  end.
End loop.

(** ** The script *)

(** The rows of the CSV: [id] and the columns read by the driver. *)
Definition FilesIndex : Type := list (pystr * FileMeta).

Inductive Outcome : Type :=
  | Raised
  | Returned (r : Result).

(** The load of [out] at import, then the entry point. Building
    [meta_map] with [to_dict(orient="index")] raises on a repeated id. *)
Definition main (backup : option SLedger) (df : FilesIndex) (w : World) : Outcome :=
  let out := default s_empty backup in
  let already_processed : gset pystr := list_to_set (s_doc_id out) in
  let meta_df := filter (λ row, mimeType row.2 ∈ supported_mimetypes) df in
  let file_ids := meta_df.*1 in
  if bool_decide (NoDup file_ids) then
    let meta_map : gmap pystr FileMeta := list_to_map meta_df in
    Returned (extract_data meta_map already_processed file_ids
                (mkSRun out backup [] 0 0 w []))
  else Raised.
End driver.

End Summaries.

(* ===================================================================== *)
(** * index_documents.py *)
(* ===================================================================== *)

Module Indexer.

Definition BATCH_EMB : Z := 128.
Definition BATCH_UPSERT : Z := 200.
Definition MAX_DOC_BYTES : Z := 3500000.

Definition chunk_text (obj : Chunk) : pystr :=
  match obj with
  | ChunkStr s => s
  | ChunkPage page_content => page_content
  | ChunkContent content => content
  | ChunkOther repr => repr
  end.

(** [str(i)] for an index of [enumerate]. *)
Definition str_nat (i : nat) : pystr := py (pretty i).

(** A row of [meta_map]: every column after [as_opt_str]. *)
Record BaseMeta : Type := mkBaseMeta {
  b_name : option pystr;
  b_mimeType : option pystr;
  b_owners : option pystr;
  b_created_at : option pystr;
  b_modified_at : option pystr;
  b_year : option pystr;
  b_url : option pystr;
}.

(** [meta_map.get(doc_id, {})] *)
Definition base_of (meta_map : gmap pystr BaseMeta) (doc_id : pystr) : BaseMeta :=
  default (mkBaseMeta None None None None None None None) (meta_map !! doc_id).

Inductive MetaVal : Type :=
  | MStr (s : pystr)
  | MInt (n : Z).

(** [{k: v for k, v in meta.items() if v is not None}] *)
Definition present (meta : list (pystr * option MetaVal)) : list (pystr * MetaVal) :=
  omap (λ kv, (λ v, (kv.1, v)) <$> kv.2) meta.

(** The seven entries copied from the row of the document. *)
Definition base_fields (base : BaseMeta) : list (pystr * option MetaVal) :=
  [ (py "name", MStr <$> b_name base);
    (py "mimeType", MStr <$> b_mimeType base);
    (py "owners", MStr <$> b_owners base);
    (py "created_at", MStr <$> b_created_at base);
    (py "modified_at", MStr <$> b_modified_at base);
    (py "year", MStr <$> b_year base);
    (py "url", MStr <$> b_url base) ].

Section indexer.
Context {Vec World : Type}.
(** [embedder.embed_documents(texts)]; [None] when the call raises. *)
Variable embed_documents : World → list pystr → World * option (list Vec).

Record IndexRecord : Type := mkRecord {
  id : pystr;
  values : option Vec;
  metadata : list (pystr * MetaVal);
}.

(** The lists and the counter filled by a record-building loop. *)
Record Built : Type := mkBuilt {
  texts : list pystr;
  records : list IndexRecord;
  skipped : Z;
}.

Definition nothing : Built := mkBuilt [] [] 0.

Definition skip (acc : Built) : Built :=
  mkBuilt (texts acc) (records acc) (skipped acc + 1).

Definition add (text : pystr) (rec : IndexRecord) (acc : Built) : Built :=
  mkBuilt (texts acc ++ [text]) (records acc ++ [rec]) (skipped acc).

Section build.
Variable meta_map : gmap pystr BaseMeta.

Definition question_record (doc_id : pystr) (clean : list pystr) (joined : pystr)
    : IndexRecord :=
  mkRecord (doc_id ++ py "::questions") None
    (present
       ([ (py "doc_id", Some (MStr doc_id));
          (py "doc_type", Some (MStr (py "question_list")));
          (py "num_questions", Some (MInt (Z.of_nat (length clean))));
          (py "questions_text", Some (MStr joined)) ]
        ++ base_fields (base_of meta_map doc_id))).

Definition summary_record (doc_id text : pystr) : IndexRecord :=
  mkRecord (doc_id ++ py "::summary") None
    (present
       ([ (py "doc_type", Some (MStr (py "summary")));
          (py "id", Some (MStr doc_id)) ]
        ++ base_fields (base_of meta_map doc_id)
        ++ [ (py "text", Some (MStr text)) ])).

Definition chunk_record (doc_id : pystr) (i : nat) (content : pystr) : IndexRecord :=
  mkRecord (doc_id ++ py "::chunk::" ++ str_nat i) None
    (present
       ([ (py "doc_type", Some (MStr (py "chunk")));
          (py "id", Some (MStr doc_id));
          (py "chunk_index", Some (MInt (Z.of_nat i))) ]
        ++ base_fields (base_of meta_map doc_id)
        ++ [ (py "text", Some (MStr content)) ])).

(** The body of the loop over [zip(q_data["doc_id"], q_data["questions"])]. *)
Definition build_question (acc : Built) (row : pystr * list pystr) : Built :=
  let '(doc_id, questions) := row in
  let clean := filter (λ q, q ≠ []) (strip <$> questions) in
  match clean with
  | [] => skip acc
  | _ =>
      let joined := join [10%N] clean in
      if bool_decide (MAX_DOC_BYTES < utf8_len joined) then skip acc
      else add joined (question_record doc_id clean joined) acc
  end.

(** The body of the loop over [zip(s_data["doc_id"], s_data["summary"])]. *)
Definition build_summary (acc : Built) (row : pystr * pystr) : Built :=
  let '(doc_id, summary) := row in
  let text := strip summary in
  if bool_decide (text = []) then skip acc
  else if bool_decide (MAX_DOC_BYTES < utf8_len text) then skip acc
  else add text (summary_record doc_id text) acc.

(** The body of the inner loop over [enumerate(chunks)]. *)
Definition build_chunk (doc_id : pystr) (acc : Built) (ich : nat * Chunk) : Built :=
  let '(i, ch) := ich in
  let content := strip (chunk_text ch) in
  if bool_decide (content = []) then skip acc
  else if bool_decide (MAX_DOC_BYTES < utf8_len content) then skip acc
  else add content (chunk_record doc_id i content) acc.

Definition build_chunks_of (acc : Built) (row : pystr * list Chunk) : Built :=
  let '(doc_id, chunks) := row in
  foldl (build_chunk doc_id) acc (imap (λ i ch, (i, ch)) chunks).

Definition build_questions (q_data : QLedger) : Built :=
  foldl build_question nothing (zip (q_doc_id q_data) (q_questions q_data)).

Definition build_summaries (s_data : SLedger) : Built :=
  foldl build_summary nothing (zip (s_doc_id s_data) (s_summary s_data)).

Definition build_chunks (s_data : SLedger) : Built :=
  foldl build_chunks_of nothing (zip (s_doc_id s_data) (s_chunks s_data)).
End build.

(** ** Embedding

    The records are dicts shared between the list of records and the
    tuples of [zip(texts, records)]: the list is the store, a tuple
    holds the position of its record. *)

(** [rec["values"] = vec] on the record at [ref]. *)
Definition set_values (heap : list IndexRecord) (ref : nat) (vec : Vec)
    : list IndexRecord :=
  alter (λ r, mkRecord (id r) (Some vec) (metadata r)) ref heap.

(** [for (_, rec), vec in zip(batch, vecs): rec["values"] = vec] *)
Definition assign (heap : list IndexRecord) (batch : list (pystr * nat))
    (vecs : list Vec) : list IndexRecord :=
  foldl (λ h bv, set_values h bv.1.2 bv.2) heap (zip batch vecs).

(** The first loop over [chunked(list(zip(texts, records)), BATCH_EMB)];
    an exception of the embedder ends it. *)
Fixpoint embed_loop (w : World) (heap : list IndexRecord)
    (batches : list (list (pystr * nat))) : World * option (list IndexRecord) :=
  match batches with
  | [] => (w, Some heap)
  | batch :: batches' =>
      match embed_documents w batch.*1 with
      | (w', None) => (w', None)
      | (w', Some vecs) => embed_loop w' (assign heap batch vecs) batches'
      end
  end.

(** ** Upsert: the collection maps a record id to the record last
    upserted under it. *)
Definition upsert (idx : gmap pystr IndexRecord) (vectors : list IndexRecord)
    : gmap pystr IndexRecord :=
  foldl (λ m r, <[id r := r]> m) idx vectors.

(** The second loop, over [chunked(records, BATCH_UPSERT)], with its
    counter of uploaded records. *)
Definition upsert_loop (idx : gmap pystr IndexRecord) (recs : list IndexRecord)
    : gmap pystr IndexRecord * Z :=
  foldl (λ st batch, (upsert st.1 batch, st.2 + Z.of_nat (length batch)))
    (idx, 0) (chunked recs BATCH_UPSERT).

(** One stage of the script: embed everything, then upsert everything. *)
Inductive Stage : Type :=
  | Indexed (idx : gmap pystr IndexRecord) (uploaded skipped : Z) (w : World)
  | Failed (idx : gmap pystr IndexRecord) (w : World).

Definition batches_of (b : Built) : list (list (pystr * nat)) :=
  chunked (zip (texts b) (seq 0 (length (records b)))) BATCH_EMB.

Definition index_stage (w : World) (idx : gmap pystr IndexRecord) (b : Built)
    : Stage :=
  match embed_loop w (records b) (batches_of b) with
  | (w', None) => Failed idx w'
  | (w', Some recs) =>
      let '(idx', uploaded) := upsert_loop idx recs in
      Indexed idx' uploaded (skipped b) w'
  end.

(** The three collections. *)
Record Indexes : Type := mkIndexes {
  idx_questions : gmap pystr IndexRecord;
  idx_summaries : gmap pystr IndexRecord;
  idx_chunks : gmap pystr IndexRecord;
}.

(** The script ends normally or by the exception of a stage. *)
Inductive Outcome : Type :=
  | Done (ix : Indexes) (w : World)
  | Raised (ix : Indexes) (w : World).

(** The three stages in the order of the script. *)
Definition main (meta_map : gmap pystr BaseMeta) (q_data : QLedger)
    (s_data : SLedger) (ix : Indexes) (w : World) : Outcome :=
  match index_stage w (idx_questions ix) (build_questions meta_map q_data) with
  | Failed _ w1 => Raised ix w1
  | Indexed q _ _ w1 =>
      let ix1 := mkIndexes q (idx_summaries ix) (idx_chunks ix) in
      match index_stage w1 (idx_summaries ix) (build_summaries meta_map s_data) with
      | Failed _ w2 => Raised ix1 w2
      | Indexed s _ _ w2 =>
          let ix2 := mkIndexes q s (idx_chunks ix) in
          match index_stage w2 (idx_chunks ix) (build_chunks meta_map s_data) with
          | Failed _ w3 => Raised ix2 w3
          | Indexed c _ _ w3 => Done (mkIndexes q s c) w3
          end
      end
  end.
End indexer.

End Indexer.

(* ===================================================================== *)
(** * Concrete runs *)
(* ===================================================================== *)

Module Demo.

Definition nl : pystr := [10%N].

(** What the generator answers when it answers. *)
Definition answer : pystr :=
  py "1. What is the total budget for 2024?" ++ nl ++
  py "- Who are the partners of the event?".

Definition questions : list pystr :=
  [py "What is the total budget for 2024?";
   py "Who are the partners of the event?"].

(** The world of the demos counts the external calls made so far. *)
Definition steady_llm (w : nat) (p : Questions.Prompt) : nat * option pystr :=
  (S w, Some answer).

(** A generator whose first call raises (rate limit, network). *)
Definition flaky_llm (w : nat) (p : Questions.Prompt) : nat * option pystr :=
  (S w, if (w =? 0)%nat then None else Some answer).

Definition long_summary : pystr :=
  py "Budget and partners of the 2024 startup event.".

(** Three summarised documents; the summary of A is empty. *)
Definition summaries : SLedger :=
  mkSLedger [py "A"; py "B"; py "C"] [[]; long_summary; long_summary]
    [[]; [ChunkStr long_summary]; [ChunkStr long_summary]].

(** One summarised document. *)
Definition summary_of_B : SLedger :=
  mkSLedger [py "B"] [long_summary] [[ChunkStr long_summary]].

(** One document whose summary is empty. *)
Definition empty_summary_of_A : SLedger :=
  mkSLedger [py "A"] [[]] [[]].

Definition q_meta : gmap pystr (pystr * pystr) :=
  {[ py "B" := (py "b.docx", py "2024") ]}.

(** A questions checkpoint that holds B. *)
Definition store_B : QLedger := mkQLedger [py "B"] [questions].

(** The summariser side. *)
Definition process (w : nat) (fid file_name year : pystr)
    : nat * option (Summaries.Generated * list Chunk) :=
  (S w, Some (Summaries.PlainText long_summary, [ChunkStr long_summary])).

Definition file_ids : list pystr := [py "A"; py "B"; py "C"].

Definition s_meta : gmap pystr Summaries.FileMeta :=
  list_to_map
    ((λ fid, (fid, Summaries.mkFileMeta Summaries.mime_docx (Some fid) (Some (py "2024"))))
       <$> file_ids).

Definition s_store_B : SLedger := summary_of_B.

(** The files of generate_questions.py when the summaries backup is
    missing. *)
Definition no_summaries : Questions.Files :=
  Questions.mkFiles None None
    (Some (Questions.mkFilesIndex [py "id"; py "name"; py "year"] [])).

(** The indexer side: a vector is a list of numbers. *)
Definition embed (w : nat) (batch : list pystr) : nat * option (list (list Z)) :=
  (S w, Some ((λ t, [len t]) <$> batch)).

(** An embedder that raises on every call. *)
Definition failing_embed (w : nat) (batch : list pystr)
    : nat * option (list (list Z)) :=
  (S w, None).

Definition i_meta : gmap pystr Indexer.BaseMeta := ∅.

Definition no_indexes : @Indexer.Indexes (list Z) :=
  Indexer.mkIndexes ∅ ∅ ∅.

(** The records built from the summary of B. *)
Definition built_B : @Indexer.Built (list Z) :=
  Indexer.build_summaries i_meta summary_of_B.

(** The question driver over one document whose summary is empty, from
    an empty checkpoint. *)
Definition run_A : @Questions.QRun nat :=
  Questions.generate_all_questions steady_llm empty_summary_of_A ∅ ∅
    (Questions.mkQRun q_empty None 0 0 0 0%nat []).

(** The question driver over B with the flaky generator, from an empty
    checkpoint; then again from the checkpoint and the world it left. *)
Definition flaky_run_1 : @Questions.QRun nat :=
  Questions.generate_all_questions flaky_llm summary_of_B q_meta
    (list_to_set (q_doc_id q_empty))
    (Questions.mkQRun q_empty None 0 0 0 0%nat []).

Definition flaky_run_2 : @Questions.QRun nat :=
  Questions.generate_all_questions flaky_llm summary_of_B q_meta
    (list_to_set (q_doc_id (Questions.questions_out flaky_run_1)))
    (Questions.mkQRun (Questions.questions_out flaky_run_1)
       (Questions.backup_file flaky_run_1) 0 0 0
       (Questions.world flaky_run_1) []).

(** The steady generator and the embedder are deterministic: these are
    their answers. *)
Definition steady_answer (p : Questions.Prompt) : option pystr := Some answer.

Definition embed_answer (batch : list pystr) : option (list (list Z)) :=
  Some ((λ t, [len t]) <$> batch).

(** The question driver over the three documents with the steady
    generator, from the checkpoint that holds B; then again from the
    checkpoint it left. *)
Definition steady_run_1 : @Questions.QRun nat :=
  Questions.generate_all_questions steady_llm summaries q_meta
    (list_to_set (q_doc_id store_B))
    (Questions.mkQRun store_B None 0 0 0 0%nat []).

Definition steady_run_2 : @Questions.QRun nat :=
  Questions.generate_all_questions steady_llm summaries q_meta
    (list_to_set (q_doc_id (Questions.questions_out steady_run_1)))
    (Questions.mkQRun (Questions.questions_out steady_run_1)
       (Questions.backup_file steady_run_1) 0 0 0 7%nat []).

(** A text of 875001 code points of four bytes each: 3500004 bytes. *)
Definition oversized : pystr := replicate (Z.to_nat 875001) 128512%N.

End Demo.

(* ===================================================================== *)
(** * generate_summaries.py: the spreadsheet path *)
(* ===================================================================== *)

Module Excel.

(** A LangChain [Document] built from a sheet: its text and the name of
    the sheet kept in its metadata. *)
Record Document : Type := mkDocument {
  page_content : pystr;
  sheet_name : pystr;
}.

(** The request sent to the text generator by
    [create_contextual_summary]: the template of the source is a fixed
    text around these two values. *)
Record Prompt : Type := mkPrompt {
  p_context : pystr;
  p_text : pystr;
}.

(** [f"File: {file_name} (Year: {year}, Sheet: {sheet_name})"], or
    without the sheet when [sheet_name] is [None] or empty. *)
Definition context_of (file_name year : pystr) (sheet : option pystr) : pystr :=
  match sheet with
  | Some (c :: s) =>
      py "File: " ++ file_name ++ py " (Year: " ++ year ++ py ", Sheet: "
        ++ (c :: s) ++ py ")"
  | _ => py "File: " ++ file_name ++ py " (Year: " ++ year ++ py ")"
  end.

Section excel.
Context {World : Type}.
(** [prompt.format(...)] then [llm.invoke(...).content]; [inr e] when
    one of them raises, [e] being [str(e)] of the exception. *)
Variable llm_invoke : World → Prompt → World * (pystr + pystr).
(** The download of the workbook to the temporary file (an export for
    a Google sheet, the file itself otherwise) followed by
    [excel_to_text]: the sheets in the order of the workbook with their
    texts. [None] when the download raises; [excel_to_text] itself
    catches every exception and then answers with no sheet. *)
Variable download_sheets :
  World → pystr → pystr → World * option (list (pystr * pystr)).
(** [splitter.split_documents([doc])] *)
Variable split_documents : Document → list Document.

Definition create_contextual_summary (w : World) (chunks : list Document)
    (file_name year : pystr) (sheet : option pystr) : World * pystr :=
  match chunks with
  | [] => (w, py "No content found")
  | _ =>
      let context := context_of file_name year sheet in
      let combined_text := join [10%N; 10%N] (page_content <$> chunks) in
      match llm_invoke w (mkPrompt context (slice_to combined_text 4000)) with
      | (w', inl content) => (w', content)
      | (w', inr e) =>
          (w', context ++ py ": Error generating summary - " ++ e)
      end
  end.

(** The sheets whose text is not blank, as documents. *)
Definition create_documents_from_excel (sheet_texts : list (pystr * pystr))
    : list Document :=
  (λ st, mkDocument st.2 st.1) <$> filter (λ st, strip st.2 ≠ []) sheet_texts.

(** [process_excel_file(fid, file_name, year)]; [None] when it raises
    (no row for [fid], another MIME type, a failed download). *)
Definition process_excel_file (meta_map : gmap pystr Summaries.FileMeta)
    (w : World) (fid file_name year : pystr)
    : World * option (Summaries.Generated * list Chunk) :=
  match meta_map !! fid with
  | None => (w, None)
  | Some m =>
      let mime_type := Summaries.mimeType m in
      if bool_decide (mime_type = Summaries.mime_gsheet ∨
                      mime_type = Summaries.mime_xlsx) then
        match download_sheets w fid mime_type with
        | (w1, None) => (w1, None)
        | (w1, Some []) =>
            (w1, Some (Summaries.PlainText
                         (py "File: " ++ file_name ++ py " (Year: " ++ year
                            ++ py "): No readable content found"), []))
        | (w1, Some sheet_texts) =>
            let all_documents := create_documents_from_excel sheet_texts in
            let all_chunks := all_documents ≫= split_documents in
            match all_chunks with
            | [] =>
                (w1, Some (Summaries.PlainText
                             (py "File: " ++ file_name ++ py " (Year: " ++ year
                                ++ py "): No content found in spreadsheet"), []))
            | _ =>
                let '(w2, overall_summary) :=
                  create_contextual_summary w1 all_chunks file_name year None in
                (w2, Some (Summaries.PlainText overall_summary,
                           (λ d, ChunkPage (page_content d)) <$> all_chunks))
            end
        end
      else (w, None)
  end.
End excel.

End Excel.

(* ===================================================================== *)
(** * files_index.py *)
(* ===================================================================== *)

Module DriveFiles.

(** [s.split(sep)] for a separator of one character; [cur] is the part
    being read. *)
Fixpoint split_from (cur s : pystr) (sep : N) : list pystr :=
  match s with
  | [] => [cur]
  | c :: s' =>
      if (c =? sep)%N then cur :: split_from [] s' sep
      else split_from (cur ++ [c]) s' sep
  end.

Definition split (s : pystr) (sep : N) : list pystr := split_from [] s sep.

(** [s.split(sep)[-1]]: the list of [split] is never empty. *)
Definition last_part (s : pystr) (sep : N) : pystr :=
  default [] (last (split s sep)).

Definition dot : N := 46%N.
Definition slash : N := 47%N.

Definition known_extensions : list pystr :=
  [py "docx"; py "xlsx"; py "pptx"; py "pdf"].

Definition mime_to_ext : gmap pystr pystr :=
  list_to_map
    [ (py "application/vnd.google-apps.document", py "docx");
      (py "application/vnd.google-apps.spreadsheet", py "xlsx");
      (py "application/vnd.google-apps.presentation", py "pptx");
      (py "application/vnd.openxmlformats-officedocument.spreadsheetml.sheet",
       py "xlsx");
      (py "application/vnd.openxmlformats-officedocument.wordprocessingml.document",
       py "docx");
      (py "application/vnd.openxmlformats-officedocument.presentationml.presentation",
       py "pptx");
      (py "application/pdf", py "pdf") ].

(** [get_extension(file)] on the [name] and the [mimeType] of the row;
    [None] when [mime_to_ext[...]] raises [KeyError]. *)
Definition get_extension (name mimeType : pystr) : option pystr :=
  let temp := last_part name dot in
  if bool_decide (temp ∈ known_extensions) then Some (last_part name slash)
  else
    match mime_to_ext !! mimeType with
    | Some ext => Some (last_part name slash ++ [dot] ++ ext)
    | None => None
    end.

(** A file of a listing, with the fields the program reads. *)
Record File : Type := mkFile {
  f_id : pystr;
  f_name : pystr;
  f_mimeType : pystr;
  f_parents : option (list pystr);
  f_trashed : option bool;
  f_createdTime : option pystr;
  f_modifiedTime : option pystr;
  f_webViewLink : option pystr;
  f_owners : option (list pystr);
}.

(** A row of the result. *)
Record Row : Type := mkRow {
  r_id : pystr;
  r_name : pystr;
  r_mimeType : pystr;
  r_parents : list pystr;
  r_trashed : bool;
  r_created_at : option pystr;
  r_modified_at : option pystr;
  r_url : option pystr;
  r_owners : list pystr;
}.

Definition row_of (f : File) : Row :=
  mkRow (f_id f) (f_name f) (f_mimeType f) (default [] (f_parents f))
    (default false (f_trashed f)) (f_createdTime f) (f_modifiedTime f)
    (f_webViewLink f) (default [] (f_owners f)).

Definition mime_folder : pystr := py "application/vnd.google-apps.folder".

(** The drive as the listing calls show it: an entry is a file and, when
    the file is a folder, the pages that listing it returns, in the
    order of the page tokens. *)
Inductive Entry : Type :=
  | mkEntry (file : File) (pages : list (list Entry)).

Definition file_of (e : Entry) : File :=
  match e with mkEntry f _ => f end.
Definition pages_of (e : Entry) : list (list Entry) :=
  match e with mkEntry _ pages => pages end.

Section fetch.
(** The two values imported from the settings module. *)
Variable ALLOWED_TYPES : list pystr.
Variable SKIP_FOLDER_ID : pystr.

(** The body of [for f in resp.get("files", [])]: what one entry adds
    to [results]. *)
Fixpoint fetch_entry (e : Entry) : list Row :=
  match e with
  | mkEntry f pages =>
      if bool_decide (f_id f = SKIP_FOLDER_ID) then []
      else if bool_decide (f_mimeType f = mime_folder) then
        pages ≫= (λ page, page ≫= fetch_entry)
      else if bool_decide (f_mimeType f ∈ ALLOWED_TYPES) then [row_of f]
      else []
  end.

(** [fetch_files_recursive(service, folder_id)], on the pages that
    listing [folder_id] returns. *)
Definition fetch_files_recursive (pages : list (list Entry)) : list Row :=
  pages ≫= (λ page, page ≫= fetch_entry).
End fetch.

End DriveFiles.

(* ===================================================================== *)
(** * index_documents.py: the collections *)
(* ===================================================================== *)

Module Collections.

Definition DIMENSION : Z := 1536.
Definition IDX_QUESTIONS : pystr := py "my-doc-questions-private".
Definition IDX_SUMMARIES : pystr := py "my-doc-summaries-private".
Definition IDX_CHUNKS : pystr := py "my-doc-chunks-private".

(** The indexes of the service by name, each with its dimension and its
    metric. *)
Abbreviation Service := (gmap pystr (Z * pystr)).

(** [ensure_index(pc, name, dimension, metric)]: [pc.list_indexes()]
    gives the names, [pc.create_index] adds an index. *)
Definition ensure_index (pc : Service) (name : pystr) (dimension : Z)
    (metric : pystr) : Service :=
  if bool_decide (name ∈ (map_to_list pc).*1) then pc
  else <[name := (dimension, metric)]> pc.

(** The three calls of the script. *)
Definition ensure_indexes (pc : Service) : Service :=
  let pc := ensure_index pc IDX_QUESTIONS DIMENSION (py "cosine") in
  let pc := ensure_index pc IDX_SUMMARIES DIMENSION (py "cosine") in
  ensure_index pc IDX_CHUNKS DIMENSION (py "cosine").

End Collections.

(* ===================================================================== *)
(** * More concrete runs *)
(* ===================================================================== *)

Module Sample.

(** A workbook of one sheet, a splitter that keeps a document whole and
    a text generator that always fails. *)
Definition sheets (w : nat) (fid mime : pystr)
    : nat * option (list (pystr * pystr)) :=
  (S w, Some [(py "Budget", py "Sheet: Budget" ++ [10%N] ++ py "total: 12")]).

Definition whole (d : Excel.Document) : list Excel.Document := [d].

Definition failing_llm (w : nat) (p : Excel.Prompt) : nat * (pystr + pystr) :=
  (S w, inr (py "rate limit")).

Definition workbook_meta : gmap pystr Summaries.FileMeta :=
  {[ py "W" := Summaries.mkFileMeta Summaries.mime_xlsx (Some (py "w.xlsx"))
                 (Some (py "2024")) ]}.

(** A drive: a document, the folder to skip with a document in it, and
    a folder with a document and an image on two pages. *)
Definition allowed : list pystr := [Summaries.mime_gdoc; Summaries.mime_xlsx].

Definition file (id mime : pystr) : DriveFiles.File :=
  DriveFiles.mkFile id id mime None None None None None None.

Definition drive : list (list DriveFiles.Entry) :=
  [ [ DriveFiles.mkEntry (file (py "a") Summaries.mime_gdoc) [];
      DriveFiles.mkEntry (file (py "skip") DriveFiles.mime_folder)
        [ [ DriveFiles.mkEntry (file (py "b") Summaries.mime_gdoc) [] ] ] ];
    [ DriveFiles.mkEntry (file (py "d") DriveFiles.mime_folder)
        [ [ DriveFiles.mkEntry (file (py "c") Summaries.mime_xlsx) [] ];
          [ DriveFiles.mkEntry (file (py "e") (py "image/png")) [] ] ] ] ].

End Sample.
(* ===================================================================== *)
(** * Properties *)
(* ===================================================================== *)

(** ** Batcher *)

Section chunked_facts.
Context {A : Type}.
Implicit Types (xs buf : list A) (n : Z).

(** A group is well sized when it is not empty and holds at most [n] items. *)
Definition group_ok n (g : list A) : Prop :=
  1 ≤ Z.of_nat (length g) ∧ Z.of_nat (length g) ≤ n.

(** Every group but the last one is full. *)
Fixpoint full_but_last n (gs : list (list A)) : Prop :=
  match gs with
  | [] => True
  | [_] => True
  | g :: gs' => Z.of_nat (length g) = n ∧ full_but_last n gs'
  end.

Lemma full_but_last_cons n g gs :
  Z.of_nat (length g) = n → full_but_last n gs → full_but_last n (g :: gs).
Proof. destruct gs; simpl; auto. Qed.

Lemma chunked_from_concat buf xs n :
  concat (chunked_from buf xs n) = buf ++ xs.
Proof.
  revert buf. induction xs as [|x xs IH]; intros buf; simpl.
  - destruct buf; simpl; by rewrite ?app_nil_r.
  - case_match; simpl; rewrite IH; by rewrite <- ?app_assoc.
Qed.

Lemma chunked_from_sizes buf xs n :
  1 ≤ n → Z.of_nat (length buf) < n →
  Forall (group_ok n) (chunked_from buf xs n) ∧
  full_but_last n (chunked_from buf xs n).
Proof.
  intros Hn. revert buf. induction xs as [|x xs IH]; intros buf Hbuf; simpl.
  - destruct buf as [|b buf]; simpl; split; auto.
    constructor; [|constructor]. split; simpl in *; lia.
  - assert (Hlen : Z.of_nat (length (buf ++ [x])) = Z.of_nat (length buf) + 1)
      by (rewrite length_app; simpl; lia).
    destruct (Z.leb_spec n (Z.of_nat (length (buf ++ [x])))) as [Hfull|Hroom].
    + destruct (IH []) as [IH1 IH2]; [simpl; lia|].
      split.
      * constructor; [split; lia | exact IH1].
      * apply full_but_last_cons; [lia | exact IH2].
    + apply IH. lia.
Qed.

Lemma sum_list_lengths_concat (gs : list (list A)) :
  sum_list (length <$> gs) = length (concat gs).
Proof.
  induction gs as [|g gs IH]; simpl; [done|].
  rewrite length_app, <- IH. reflexivity.
Qed.
End chunked_facts.

(** C3. Batch invariant: for every list of items and every bound
    [max_count ≥ 1], the groups yielded by [chunked items max_count]
    concatenate, in order, to the input; their sizes sum to the number of
    items; every group holds between 1 and [max_count] items; and only the
    last group can hold fewer than [max_count] (it is neither empty nor
    dropped, since the concatenation is the whole input). *)
Theorem chunked_batch_invariant {A : Type} (items : list A) (max_count : Z) :
  1 ≤ max_count →
  concat (chunked items max_count) = items ∧
  sum_list (length <$> chunked items max_count) = length items ∧
  Forall (group_ok max_count) (chunked items max_count) ∧
  full_but_last max_count (chunked items max_count).
Proof.
  intros Hn. unfold chunked.
  pose proof (chunked_from_concat [] items max_count) as Hc. simpl in Hc.
  destruct (chunked_from_sizes [] items max_count Hn) as [Hs Hf]; [simpl; lia|].
  repeat split; auto.
  by rewrite sum_list_lengths_concat, Hc.
Qed.

Lemma chunked_batch_invariant_witness :
  concat (chunked [1; 2; 3; 4; 5] 2) = [1; 2; 3; 4; 5] ∧
  sum_list (length <$> chunked [1; 2; 3; 4; 5] 2) = length [1; 2; 3; 4; 5] ∧
  Forall (group_ok 2) (chunked [1; 2; 3; 4; 5] 2) ∧
  full_but_last 2 (chunked [1; 2; 3; 4; 5] 2).
Proof. apply (chunked_batch_invariant [1; 2; 3; 4; 5] 2). lia. Defined.

(** ** Question normalisation *)



Lemma lstrip_by_split (p : N → bool) (s : pystr) :
  ∃ dropped, s = dropped ++ lstrip_by p s ∧
             Forall (λ c, p c = true) dropped ∧
             ∀ c rest, lstrip_by p s = c :: rest → p c = false.
Proof.
  induction s as [|c s IH]; simpl.
  - exists []. repeat split; [constructor | discriminate].
  - destruct (p c) eqn:Hc.
    + destruct IH as (d & Hs & Hd & Hhd).
      exists (c :: d). repeat split.
      * simpl. by rewrite <- Hs.
      * by constructor.
      * exact Hhd.
    + exists []. repeat split; [constructor|].
      intros c' rest [= <- _]. exact Hc.
Qed.

Lemma mem_chars_spec (chars : pystr) (c : N) :
  mem_chars chars c = true ↔ c ∈ chars.
Proof.
  unfold mem_chars. rewrite existsb_exists. split.
  - intros (x & Hin & Heq). apply N.eqb_eq in Heq. subst.
    by apply list_elem_of_In.
  - intros Hin. exists c. split; [by apply list_elem_of_In | apply N.eqb_refl].
Qed.

Lemma markers_spec (c : N) :
  c ∈ Questions.markers ↔
  (c = 45 ∨ c = 8226 ∨ (48 ≤ c ∧ c ≤ 57) ∨ c = 46 ∨ c = 32)%N.
Proof.
  unfold Questions.markers. cbn. rewrite !elem_of_cons, elem_of_nil. lia.
Qed.

(** C4 (as amended). For the raw lines ["1. Foo"; "- Foo"; "2. Bar"] and
    [n = 5] the normalisation returns the empty list: the markers are
    stripped, but "Foo" and "Bar" have 3 characters and only questions of
    more than 10 characters are kept. On lines whose questions pass that
    filter the markers are stripped, the duplicate is removed and the
    first-seen order is kept. *)
Theorem normalize_example :
  Questions.normalize_lines [py "1. Foo"; py "- Foo"; py "2. Bar"] 5 = [] ∧
  Questions.clean_line <$> [py "1. Foo"; py "- Foo"; py "2. Bar"]
    = [py "Foo"; py "Foo"; py "Bar"] ∧
  Questions.normalize_lines
    [py "1. What is Foo about?"; py "- What is Foo about?";
     py "2. Where is Bar held?"] 5
    = [py "What is Foo about?"; py "Where is Bar held?"].
Proof. repeat split; vm_compute; reflexivity. Qed.

(** C4, as stated, fails: the normalised result of the example is not
    ["Foo"; "Bar"]. *)
Lemma normalize_example_not_foo_bar :
  Questions.normalize_lines (splitlines (py "1. Foo" ++ [10%N] ++ py "- Foo" ++ [10%N] ++ py "2. Bar")) 5
    ≠ [py "Foo"; py "Bar"].
Proof. vm_compute. discriminate. Qed.

(** C10. The leading-marker trim removes the longest prefix made of the
    characters '-', '•', the digits, '.' and ' ', whatever they mean: the
    line is the removed prefix followed by the result, every removed
    character is of that set and the result does not start with one. So a
    question that begins with a year loses it: "2024 revenue figures?" is
    stored as "revenue figures?". *)
Theorem lstrip_markers_over_strips :
  (∀ line : pystr, ∃ dropped,
      line = dropped ++ lstrip Questions.markers line ∧
      Forall (λ c, c = 45 ∨ c = 8226 ∨ (48 ≤ c ∧ c ≤ 57) ∨ c = 46 ∨ c = 32)%N dropped ∧
      ∀ c rest, lstrip Questions.markers line = c :: rest → c ∉ Questions.markers) ∧
  Questions.clean_line (py "2024 revenue figures?") = py "revenue figures?" ∧
  Questions.normalize_lines (splitlines (py "2024 revenue figures?")) 10
    = [py "revenue figures?"].
Proof.
  split; [|split; vm_compute; reflexivity].
  intros line. unfold lstrip.
  destruct (lstrip_by_split (mem_chars Questions.markers) line) as (d & Hs & Hd & Hhd).
  exists d. repeat split; [exact Hs | |].
  - eapply Forall_impl; [exact Hd|]. intros c Hc. simpl in Hc.
    by apply markers_spec, mem_chars_spec.
  - intros c rest Hr Hin. apply mem_chars_spec in Hin.
    rewrite (Hhd c rest Hr) in Hin. discriminate.
Qed.

(** ** The resume loop, abstractly *)

Section resume.
Variable already : gset pystr.

(** What the resume contract is about in the state of a driver: the ids
    of the ledger, the three counters, and the positions of the units
    skipped, attempted, sent to the external capability and appended. *)
Record View : Type := mkView {
  v_ids : list pystr;
  v_skipped : Z;
  v_processed : Z;
  v_failed : Z;
  v_skips : list nat;
  v_attempts : list nat;
  v_invokes : list nat;
  v_appends : list nat;
}.

(** One iteration on unit [i] with id [d]: the unit is skipped when its
    id is in the checkpoint; otherwise it is attempted, and it succeeds
    (one entry appended) or fails (with or without external call). *)
Inductive unit_step : View → nat * pystr → View → Prop :=
  | step_skip v i d :
      d ∈ already →
      unit_step v (i, d)
        (mkView (v_ids v) (v_skipped v + 1) (v_processed v) (v_failed v)
           (v_skips v ++ [i]) (v_attempts v) (v_invokes v) (v_appends v))
  | step_ok v i d :
      d ∉ already →
      unit_step v (i, d)
        (mkView (v_ids v ++ [d]) (v_skipped v) (v_processed v + 1) (v_failed v)
           (v_skips v) (v_attempts v ++ [i]) (v_invokes v ++ [i])
           (v_appends v ++ [i]))
  | step_fail v i d (called : bool) :
      d ∉ already →
      unit_step v (i, d)
        (mkView (v_ids v) (v_skipped v) (v_processed v) (v_failed v + 1)
           (v_skips v) (v_attempts v ++ [i])
           (v_invokes v ++ (if called then [i] else [])) (v_appends v)).

Lemma unit_step_eq v u v1 v2 :
  unit_step v u v1 → v2 = v1 → unit_step v u v2.
Proof. by intros ? ->. Qed.

(** The iterations over a work list. *)
Inductive unit_steps : View → list (nat * pystr) → View → Prop :=
  | steps_nil v : unit_steps v [] v
  | steps_cons v u v1 us v2 :
      unit_step v u v1 → unit_steps v1 us v2 → unit_steps v (u :: us) v2.

(** The units of a work list found in the checkpoint, and the others. *)
Definition excluded (us : list (nat * pystr)) : list (nat * pystr) :=
  filter (λ u, u.2 ∈ already) us.
Definition selected (us : list (nat * pystr)) : list (nat * pystr) :=
  filter (λ u, u.2 ∉ already) us.

(** A run from [v0] over [us] ended in [v]: [ok] are the units that
    succeeded, [called] the units sent to the external capability. *)
Record resumed (v0 : View) (us : list (nat * pystr)) (v : View)
    (ok called : list (nat * pystr)) : Prop := mkResumed {
  res_ok : sublist ok called;
  res_called : sublist called (selected us);
  res_ids : v_ids v = v_ids v0 ++ ok.*2;
  res_skips : v_skips v = v_skips v0 ++ (excluded us).*1;
  res_attempts : v_attempts v = v_attempts v0 ++ (selected us).*1;
  res_invokes : v_invokes v = v_invokes v0 ++ called.*1;
  res_appends : v_appends v = v_appends v0 ++ ok.*1;
  res_skipped : v_skipped v = v_skipped v0 + Z.of_nat (length (excluded us));
  res_processed : v_processed v = v_processed v0 + Z.of_nat (length ok);
  res_failed :
    v_failed v + Z.of_nat (length ok)
    = v_failed v0 + Z.of_nat (length (selected us));
}.

Lemma excluded_cons_in i d us :
  d ∈ already → excluded ((i, d) :: us) = (i, d) :: excluded us.
Proof. intros. unfold excluded. by rewrite filter_cons_True. Qed.
Lemma excluded_cons_notin i d us :
  d ∉ already → excluded ((i, d) :: us) = excluded us.
Proof. intros. unfold excluded. rewrite filter_cons_False; [done|]. simpl. auto. Qed.
Lemma selected_cons_in i d us :
  d ∈ already → selected ((i, d) :: us) = selected us.
Proof. intros. unfold selected. rewrite filter_cons_False; [done|]. simpl. auto. Qed.
Lemma selected_cons_notin i d us :
  d ∉ already → selected ((i, d) :: us) = (i, d) :: selected us.
Proof. intros. unfold selected. by rewrite filter_cons_True. Qed.

Lemma unit_steps_resumed v0 us v :
  unit_steps v0 us v → ∃ ok called, resumed v0 us v ok called.
Proof.
  induction 1 as [v|v u v1 us v2 Hstep _ (ok & called & IH)].
  - exists [], []. split; simpl; rewrite ?app_nil_r; try done; lia.
  - destruct IH. inversion Hstep as [? i d Hin|? i d Hnin|? i d c Hnin]; subst;
      simpl in *.
    + exists ok, called.
      split; rewrite ?excluded_cons_in, ?selected_cons_in by done;
        simpl; rewrite <- ?app_assoc in *; simpl; try done; lia.
    + exists ((i, d) :: ok), ((i, d) :: called).
      split; rewrite ?excluded_cons_notin, ?selected_cons_notin by done;
        simpl; rewrite <- ?app_assoc in *; simpl; try done; try lia.
      * by constructor.
      * by constructor.
    + exists ok, (if c then (i, d) :: called else called).
      split; rewrite ?excluded_cons_notin, ?selected_cons_notin by done;
        simpl; rewrite <- ?app_assoc in *; simpl; try done; try lia.
      * destruct c; [by constructor | done].
      * destruct c; by constructor.
      * destruct c; simpl in *; by rewrite <- ?app_assoc in *.
Qed.
End resume.

(** ** The question driver is a resume loop *)

(** Projections of a trace extended by the events of one iteration. *)
Ltac evs_simpl :=
  unfold skips, attempts, invokes, appends, flushes;
  rewrite ?omap_app; simpl; rewrite ?app_nil_r.

Section questions_facts.
Context {World : Type}.
Variable llm_invoke : World → Questions.Prompt → World * option pystr.
Variable summaries_data : SLedger.
Variable meta_map : gmap pystr (pystr * pystr).
Variable already : gset pystr.

Abbreviation QRun := (@Questions.QRun World).
Abbreviation loop_body := (Questions.loop_body llm_invoke summaries_data meta_map already).
Abbreviation try_unit := (Questions.try_unit llm_invoke summaries_data meta_map).

(** The view of a state of [generate_all_questions]. *)
Definition q_view (st : QRun) : View :=
  mkView (q_doc_id (Questions.questions_out st))
    (Questions.skipped_count st) (Questions.processed_count st)
    (Questions.failed_count st)
    (skips (Questions.events st)) (attempts (Questions.events st))
    (invokes (Questions.events st)) (appends (Questions.events st)).

Lemma q_view_dump st : q_view (Questions.dump st) = q_view st.
Proof. unfold q_view, Questions.dump. simpl. by evs_simpl. Qed.

(** What the [try] block does to a unit that entered it. *)
Lemma try_unit_cases i d (st : QRun) :
  (∃ qs w',
      qs ≠ [] ∧
      try_unit i d st
      = Questions.log (EvAppend i)
          (Questions.store d qs
             (Questions.set_world w' (Questions.log (EvInvoke i) st)))) ∨
  (∃ w',
      try_unit i d st
      = Questions.count_failed
          (Questions.set_world w' (Questions.log (EvInvoke i) st))) ∨
  try_unit i d st = Questions.count_failed st.
Proof.
  unfold Questions.try_unit.
  destruct (s_summary summaries_data !! i) as [summary|]; [|by right; right].
  destruct (meta_map !! d) as [[nm yr]|].
  all: case_bool_decide; [|by right; right].
  all: destruct (Questions.generate_questions_from_summary _ _ _ _ _ _) as [w' qs].
  all: destruct qs as [|q qs]; [right; left; by exists w' | left; by exists (q :: qs), w'].
Qed.

Lemma loop_body_refines st u :
  unit_step already (q_view st) u (q_view (loop_body st u)).
Proof.
  destruct u as [i d]. unfold Questions.loop_body.
  case_bool_decide as Hin.
  - eapply unit_step_eq; [by apply step_skip|].
    unfold q_view. simpl. by evs_simpl.
  - match goal with |- context [bool_decide ?P] => destruct (bool_decide P) end;
      rewrite ?q_view_dump.
    all: destruct (try_unit_cases i d (Questions.log (EvAttempt i) st))
      as [(qs & w' & Hqs & ->)|[(w' & ->)| ->]].
    all: first
      [ solve [eapply unit_step_eq;
               [by apply step_ok | unfold q_view; simpl; by evs_simpl]]
      | solve [eapply unit_step_eq;
               [by apply (step_fail _ _ _ _ true) | unfold q_view; simpl; by evs_simpl]]
      | solve [eapply unit_step_eq;
               [by apply (step_fail _ _ _ _ false) | unfold q_view; simpl; by evs_simpl]] ].
Qed.

Lemma run_loop_refines us st :
  unit_steps already (q_view st) us (q_view (foldl loop_body st us)).
Proof.
  revert st. induction us as [|u us IH]; intros st; simpl.
  - constructor.
  - econstructor; [apply loop_body_refines | apply IH].
Qed.
End questions_facts.

(** ** Work lists *)

(** The work list: every id with its position. *)
Definition positioned (docs : list pystr) : list (nat * pystr) :=
  imap (λ i d, (i, d)) docs.

Section positioned_facts.
Implicit Types (docs : list pystr) (already : gset pystr).

Lemma elem_of_positioned docs i d :
  (i, d) ∈ positioned docs ↔ docs !! i = Some d.
Proof.
  unfold positioned. rewrite elem_of_lookup_imap. split.
  - intros (j & y & [= -> ->] & H). done.
  - intros H. by exists i, d.
Qed.

Lemma positioned_fst docs : (positioned docs).*1 = seq 0 (length docs).
Proof.
  unfold positioned. apply list_eq. intros i.
  rewrite list_lookup_fmap, list_lookup_imap.
  destruct (docs !! i) as [d|] eqn:Hd; simpl.
  - symmetry. apply lookup_seq. split; [done|]. by eapply lookup_lt_Some.
  - symmetry. apply lookup_seq_ge. by apply lookup_ge_None.
Qed.

Lemma positioned_snd docs : (positioned docs).*2 = docs.
Proof.
  unfold positioned. apply list_eq. intros i.
  rewrite list_lookup_fmap, list_lookup_imap.
  by destruct (docs !! i).
Qed.

Lemma positioned_length docs : length (positioned docs) = length docs.
Proof. unfold positioned. by rewrite length_imap. Qed.

Lemma NoDup_positioned_fst docs : NoDup (positioned docs).*1.
Proof. rewrite positioned_fst. apply NoDup_seq. Qed.

Lemma NoDup_sublist_fst (l k : list (nat * pystr)) :
  sublist l k → NoDup k.*1 → NoDup l.*1.
Proof. intros Hs Hk. eapply sublist_NoDup; [exact Hk|]. by apply fmap_sublist. Qed.

Lemma selected_sublist already us : sublist (selected already us) us.
Proof. apply sublist_filter. Qed.

Lemma excluded_sublist already us : sublist (excluded already us) us.
Proof. apply sublist_filter. Qed.

Lemma length_excluded_selected already us :
  (length (excluded already us) + length (selected already us) = length us)%nat.
Proof.
  unfold excluded, selected.
  induction us as [|u us IH]; simpl; [done|].
  destruct (decide (u.2 ∈ already)).
  - rewrite filter_cons_True, filter_cons_False by auto. simpl. lia.
  - rewrite filter_cons_False, filter_cons_True by auto. simpl. lia.
Qed.

Lemma excluded_snd already us :
  (excluded already us).*2 = filter (λ d, d ∈ already) us.*2.
Proof.
  unfold excluded. induction us as [|u us IH]; [done|].
  rewrite fmap_cons.
  destruct (decide (u.2 ∈ already)).
  - rewrite (filter_cons_True _ u), (filter_cons_True _ u.2) by done.
    rewrite fmap_cons. by rewrite IH.
  - by rewrite (filter_cons_False _ u), (filter_cons_False _ u.2).
Qed.

(** A store that holds [N] of the units excludes [N] units. *)
Lemma length_excluded_store (store docs : list pystr) :
  NoDup store → NoDup docs → store ⊆ docs →
  length (excluded (list_to_set store) (positioned docs)) = length store.
Proof.
  intros Hs Hd Hsub.
  rewrite <- (length_fmap snd), excluded_snd, positioned_snd.
  apply Permutation_length, NoDup_Permutation; [by apply NoDup_filter | done |].
  intros d. rewrite list_elem_of_filter, elem_of_list_to_set.
  split; [tauto | intros; split; auto].
Qed.
End positioned_facts.

(** ** The resume contract *)

(** The resume contract of a run over the work list [docs] started from a
    checkpoint whose ids are [store]: what the run skipped, attempted, sent
    to the external capability ([inv]) and appended ([app]), by position
    in the work list, its counters and the ids of the final ledger. *)
Record resume_contract (store docs ids_fin : list pystr)
    (skipped processed : Z) (sk att inv app : list nat) : Prop := mkContract {
  rc_skips : sk = (excluded (list_to_set store) (positioned docs)).*1;
  rc_skipped : skipped = Z.of_nat (length store);
  rc_excluded : ∀ i d,
    docs !! i = Some d → d ∈ store → i ∈ sk ∧ (i ∉ att) ∧ (i ∉ inv) ∧ (i ∉ app);
  rc_attempts : att = (selected (list_to_set store) (positioned docs)).*1;
  rc_once : NoDup att;
  rc_remaining : ∀ i d, docs !! i = Some d → d ∉ store → i ∈ att;
  rc_count :
    Z.of_nat (length att) = Z.of_nat (length docs) - Z.of_nat (length store);
  rc_store : ∃ ok,
    sublist ok (selected (list_to_set store) (positioned docs)) ∧
    app = ok.*1 ∧ ids_fin = store ++ ok.*2 ∧
    processed = Z.of_nat (length ok);
  rc_total :
    Z.of_nat (length ids_fin) = Z.of_nat (length store) + processed ∧
    Z.of_nat (length store) + processed ≤ Z.of_nat (length docs);
  rc_nodup : NoDup ids_fin;
}.

Lemma resumed_contract (store docs : list pystr) (v0 v : View) ok called :
  NoDup store → NoDup docs → store ⊆ docs →
  v0 = mkView store 0 0 0 [] [] [] [] →
  resumed (list_to_set store) v0 (positioned docs) v ok called →
  resume_contract store docs (v_ids v) (v_skipped v) (v_processed v)
    (v_skips v) (v_attempts v) (v_invokes v) (v_appends v).
Proof.
  intros Hs Hd Hsub -> [Hok Hcalled Hids Hsk Hatt Hinv Happ Hnsk Hnpr Hnfl].
  simpl in *.
  set (already := list_to_set store : gset pystr) in *.
  set (us := positioned docs) in *.
  assert (HN : length (excluded already us) = length store)
    by (by apply length_excluded_store).
  assert (HM : (length (excluded already us) + length (selected already us)
                = length docs)%nat)
    by (rewrite length_excluded_selected; apply positioned_length).
  assert (Hsel : ∀ i, i ∈ (selected already us).*1 →
                 ∃ d, docs !! i = Some d ∧ d ∉ store).
  { intros i (u & -> & Hu)%list_elem_of_fmap.
    apply list_elem_of_filter in Hu as [Hn Hu]. destruct u as [j d]. simpl in *.
    apply elem_of_positioned in Hu. exists d. split; [done|].
    intros ?. apply Hn. by apply elem_of_list_to_set. }
  assert (Hoksel : sublist ok (selected already us)) by (by etrans).
  split.
  - done.
  - lia.
  - intros i d Hi Hin. rewrite Hsk, Hatt, Hinv, Happ. repeat split.
    + apply list_elem_of_fmap. exists (i, d). split; [done|].
      apply list_elem_of_filter. split; [by apply elem_of_list_to_set|].
      by apply elem_of_positioned.
    + intros (d' & Hd' & Hn)%Hsel. congruence.
    + intros Hc. eapply elem_of_sublist in Hc; [|by apply fmap_sublist].
      apply Hsel in Hc as (d' & Hd' & Hn). congruence.
    + intros Hc. eapply elem_of_sublist in Hc; [|by apply fmap_sublist].
      apply Hsel in Hc as (d' & Hd' & Hn). congruence.
  - done.
  - rewrite Hatt. eapply NoDup_sublist_fst; [apply selected_sublist|].
    apply NoDup_positioned_fst.
  - intros i d Hi Hn. rewrite Hatt.
    apply list_elem_of_fmap. exists (i, d). split; [done|].
    apply list_elem_of_filter. split; [|by apply elem_of_positioned].
    simpl. intros ?%elem_of_list_to_set. done.
  - rewrite Hatt, length_fmap. lia.
  - exists ok. by repeat split.
  - rewrite Hids, length_app, length_fmap.
    apply sublist_length in Hoksel. lia.
  - rewrite Hids. apply NoDup_app. repeat split; [done| |].
    + intros d Hin (u & -> & Hu)%list_elem_of_fmap.
      eapply elem_of_sublist in Hu; [|exact Hoksel].
      apply list_elem_of_filter in Hu as [Hn _]. apply Hn.
      by apply elem_of_list_to_set.
    + eapply sublist_NoDup; [exact Hd|].
      rewrite <- (positioned_snd docs). apply fmap_sublist.
      etrans; [exact Hoksel | apply selected_sublist].
Qed.

(** ** The summaries driver is a resume loop *)

Section summaries_facts.
Context {World : Type}.
Variable process_docx_file process_excel_file :
  World → pystr → pystr → pystr → World * option (Summaries.Generated * list Chunk).
Variable meta_map : gmap pystr Summaries.FileMeta.
Variable already : gset pystr.

Abbreviation SRun := (@Summaries.SRun World).
Abbreviation s_loop_body :=
  (Summaries.loop_body process_docx_file process_excel_file meta_map already).
Abbreviation s_run_loop :=
  (Summaries.run_loop process_docx_file process_excel_file meta_map already).

(** The view of a state of [extract_data]; its failures are the ids of
    [failed_ids]. *)
Definition s_view (st : SRun) : View :=
  mkView (s_doc_id (Summaries.out st))
    (Summaries.skipped_count st) (Summaries.processed_count st)
    (Z.of_nat (length (Summaries.failed_ids st)))
    (skips (Summaries.events st)) (attempts (Summaries.events st))
    (invokes (Summaries.events st)) (appends (Summaries.events st)).

Lemma s_view_dump st : s_view (Summaries.dump st) = s_view st.
Proof. unfold s_view, Summaries.dump. simpl. by evs_simpl. Qed.

Lemma s_view_periodic st :
  s_view (Summaries.periodic_backup st) = s_view st.
Proof.
  unfold Summaries.periodic_backup. case_bool_decide; [apply s_view_dump|done].
Qed.

(** An iteration ends the run only in the skip branch, on an id without
    a row in [meta_map]. *)
Lemma s_loop_body_refines st i d :
  (d ∈ already → is_Some (meta_map !! d)) →
  ∃ st', s_loop_body st (i, d) = Summaries.Ok st' ∧
         unit_step already (s_view st) (i, d) (s_view st').
Proof.
  intros Hmeta. unfold Summaries.loop_body.
  case_bool_decide as Hin.
  - destruct (Hmeta Hin) as [m ->]. eexists. split; [done|].
    eapply unit_step_eq; [by apply step_skip|].
    unfold s_view. simpl. by evs_simpl.
  - destruct (meta_map !! d) as [m|].
    2:{ eexists. split; [done|].
        eapply unit_step_eq; [by apply (step_fail _ _ _ _ false)|].
        unfold s_view. simpl. evs_simpl. rewrite length_app. simpl.
        f_equal. lia. }
    repeat case_bool_decide.
    3:{ eexists. split; [done|].
        eapply unit_step_eq; [by apply (step_fail _ _ _ _ false)|].
        unfold s_view. simpl. evs_simpl. rewrite length_app. simpl.
        f_equal. lia. }
    all: match goal with
         | |- context [match ?p ?w ?a ?b ?c with _ => _ end] =>
             destruct (p w a b c) as [w' [[summary chunks]|]]
         end.
    all: eexists; (split; [done|]); rewrite ?s_view_periodic.
    all: first
      [ solve [eapply unit_step_eq;
               [by apply step_ok | unfold s_view; simpl; by evs_simpl]]
      | eapply unit_step_eq; [by apply (step_fail _ _ _ _ true)|];
        unfold s_view; simpl; evs_simpl; rewrite length_app; simpl;
        f_equal; lia ].
Qed.

Lemma s_run_loop_refines us st :
  (∀ i d, (i, d) ∈ us → d ∈ already → is_Some (meta_map !! d)) →
  ∃ st', s_run_loop us st = Summaries.Ok st' ∧
         unit_steps already (s_view st) us (s_view st').
Proof.
  revert st. induction us as [|[i d] us IH]; intros st Hmeta;
    cbn [Summaries.run_loop].
  - eexists. split; [done | constructor].
  - destruct (s_loop_body_refines st i d) as (st1 & Hst1 & Hstep).
    { apply (Hmeta i). left. }
    rewrite Hst1.
    destruct (IH st1) as (st' & Hst' & Hsteps).
    { intros j e Hin. apply (Hmeta j). by right. }
    exists st'. split; [done|]. by econstructor.
Qed.
End summaries_facts.

(** ** Ledgers only grow, one entry in every list at a time *)

Definition q_push (d : pystr) (qs : list pystr) (l : QLedger) : QLedger :=
  mkQLedger (q_doc_id l ++ [d]) (q_questions l ++ [qs]).

Definition s_push (d summary : pystr) (chunks : list Chunk) (l : SLedger) : SLedger :=
  mkSLedger (s_doc_id l ++ [d]) (s_summary l ++ [summary]) (s_chunks l ++ [chunks]).

Lemma q_wf_empty : q_wf q_empty.
Proof. reflexivity. Qed.

Lemma s_wf_empty : s_wf s_empty.
Proof. by split. Qed.

Lemma q_wf_push d qs l : q_wf l → q_wf (q_push d qs l).
Proof. unfold q_wf, q_push. simpl. rewrite !length_app. simpl. lia. Qed.

Lemma s_wf_push d s c l : s_wf l → s_wf (s_push d s c l).
Proof. unfold s_wf, s_push. simpl. rewrite !length_app. simpl. lia. Qed.

(** [l2] is [l1] followed by new entries. *)
Definition q_extends (l1 l2 : QLedger) : Prop :=
  q_doc_id l1 `prefix_of` q_doc_id l2 ∧ q_questions l1 `prefix_of` q_questions l2.

Definition s_extends (l1 l2 : SLedger) : Prop :=
  s_doc_id l1 `prefix_of` s_doc_id l2 ∧ s_summary l1 `prefix_of` s_summary l2 ∧
  s_chunks l1 `prefix_of` s_chunks l2.

Section questions_ledger.
Context {World : Type}.
Variable llm_invoke : World → Questions.Prompt → World * option pystr.
Variable summaries_data : SLedger.
Variable meta_map : gmap pystr (pystr * pystr).
Variable already : gset pystr.

Abbreviation QRun := (@Questions.QRun World).
Abbreviation q_loop_body :=
  (Questions.loop_body llm_invoke summaries_data meta_map already).

(** The state kept by the driver is sound: the ledger is well formed, and
    so is every ledger written so far. *)
Definition q_sound (st : QRun) : Prop :=
  q_wf (Questions.questions_out st) ∧
  Forall q_wf (flushes (Questions.events st)).

Lemma q_sound_dump st : q_sound st → q_sound (Questions.dump st).
Proof.
  intros [Hwf Hfl]. split; [done|].
  unfold Questions.dump. simpl. evs_simpl.
  apply Forall_app. split; [done|]. by constructor.
Qed.

Lemma q_loop_body_ledger st u :
  Questions.questions_out (q_loop_body st u) = Questions.questions_out st ∨
  ∃ qs, Questions.questions_out (q_loop_body st u)
        = q_push u.2 qs (Questions.questions_out st).
Proof.
  destruct u as [i d]. unfold Questions.loop_body.
  case_bool_decide; [by left|].
  destruct (try_unit_cases llm_invoke summaries_data meta_map i d
              (Questions.log (EvAttempt i) st))
    as [(qs & w' & Hqs & ->)|[(w' & ->)| ->]];
    case_bool_decide; simpl; eauto.
Qed.

Lemma q_loop_body_flushes st u :
  ∃ fl, flushes (Questions.events (q_loop_body st u))
        = flushes (Questions.events st) ++ fl ∧
        Forall (λ l, l = Questions.questions_out (q_loop_body st u)) fl.
Proof.
  destruct u as [i d]. unfold Questions.loop_body.
  case_bool_decide.
  { exists []. simpl. evs_simpl. by split. }
  destruct (try_unit_cases llm_invoke summaries_data meta_map i d
              (Questions.log (EvAttempt i) st))
    as [(qs & w' & Hqs & ->)|[(w' & ->)| ->]];
    case_bool_decide; simpl; evs_simpl;
    first [ by exists []; rewrite app_nil_r
          | eexists [_]; split; [reflexivity|]; by constructor ].
Qed.

Lemma q_loop_body_sound st u : q_sound st → q_sound (q_loop_body st u).
Proof.
  intros [Hwf Hfl].
  assert (Hwf' : q_wf (Questions.questions_out (q_loop_body st u))).
  { destruct (q_loop_body_ledger st u) as [->|(qs & ->)];
      [done | by apply q_wf_push]. }
  split; [done|].
  destruct (q_loop_body_flushes st u) as (fl & -> & Hnew).
  apply Forall_app. split; [done|].
  eapply Forall_impl; [exact Hnew|]. by intros l ->.
Qed.

Lemma q_loop_body_extends st u :
  q_extends (Questions.questions_out st)
    (Questions.questions_out (q_loop_body st u)).
Proof.
  destruct (q_loop_body_ledger st u) as [->|(qs & ->)].
  - by split.
  - split; simpl; by apply prefix_app_r.
Qed.

Lemma q_run_sound us st :
  q_sound st → q_sound (foldl q_loop_body st us).
Proof.
  revert st. induction us as [|u us IH]; intros st Hst; simpl; [done|].
  by apply IH, q_loop_body_sound.
Qed.

Lemma q_run_extends us st :
  q_extends (Questions.questions_out st)
    (Questions.questions_out (foldl q_loop_body st us)).
Proof.
  revert st. induction us as [|u us IH]; intros st; simpl; [by split|].
  destruct (q_loop_body_extends st u) as [H1 H2].
  destruct (IH (q_loop_body st u)) as [H3 H4].
  split; by etrans.
Qed.
End questions_ledger.

Section summaries_ledger.
Context {World : Type}.
Variable process_docx_file process_excel_file :
  World → pystr → pystr → pystr → World * option (Summaries.Generated * list Chunk).
Variable meta_map : gmap pystr Summaries.FileMeta.
Variable already : gset pystr.

Abbreviation SRun' := (@Summaries.SRun World).
Abbreviation s_body :=
  (Summaries.loop_body process_docx_file process_excel_file meta_map already).
Abbreviation s_loop :=
  (Summaries.run_loop process_docx_file process_excel_file meta_map already).

Definition state_of (r : @Summaries.Result World) : SRun' :=
  match r with Summaries.Ok st | Summaries.Raise st => st end.

Definition s_sound (st : SRun') : Prop :=
  s_wf (Summaries.out st) ∧ Forall s_wf (flushes (Summaries.events st)).

Lemma s_sound_dump (st : SRun') : s_sound st → s_sound (Summaries.dump st).
Proof.
  intros [Hwf Hfl]. split; [done|].
  unfold Summaries.dump. simpl. evs_simpl.
  apply Forall_app. split; [done|]. by constructor.
Qed.

Lemma s_sound_periodic (st : SRun') : s_sound st → s_sound (Summaries.periodic_backup st).
Proof.
  unfold Summaries.periodic_backup. case_bool_decide; [apply s_sound_dump|done].
Qed.

Lemma s_out_periodic (st : SRun') :
  Summaries.out (Summaries.periodic_backup st) = Summaries.out st.
Proof. unfold Summaries.periodic_backup. by case_bool_decide. Qed.

(** The ledger after one iteration, whether the run goes on or not. *)
Lemma s_body_ledger st u :
  Summaries.out (state_of (s_body st u)) = Summaries.out st ∨
  ∃ s c, Summaries.out (state_of (s_body st u)) = s_push u.2 s c (Summaries.out st).
Proof.
  destruct u as [i d]. unfold Summaries.loop_body.
  case_bool_decide.
  { destruct (meta_map !! d); by left. }
  destruct (meta_map !! d) as [m|]; [|by left].
  repeat case_bool_decide; try by left.
  all: match goal with
       | |- context [match ?p ?w ?a ?b ?c with _ => _ end] =>
           destruct (p w a b c) as [w' [[summary chunks]|]]
       end; simpl; rewrite ?s_out_periodic; simpl; eauto.
Qed.

Lemma s_body_sound st u : s_sound st → s_sound (state_of (s_body st u)).
Proof.
  intros [Hwf Hfl]. destruct u as [i d]. unfold Summaries.loop_body.
  case_bool_decide.
  { destruct (meta_map !! d); simpl; split; try done.
    simpl. by evs_simpl. }
  destruct (meta_map !! d) as [m|].
  2:{ split; [done|]. simpl. by evs_simpl. }
  repeat case_bool_decide.
  3:{ split; [done|]. simpl. by evs_simpl. }
  all: match goal with
       | |- context [match ?p ?w ?a ?b ?c with _ => _ end] =>
           destruct (p w a b c) as [w' [[summary chunks]|]]
       end; cbn [state_of].
  all: try (apply s_sound_periodic).
  all: split; simpl; try (by evs_simpl).
  all: by apply (s_wf_push d _ _ (Summaries.out st)).
Qed.

Lemma s_body_extends st u :
  s_extends (Summaries.out st) (Summaries.out (state_of (s_body st u))).
Proof.
  destruct (s_body_ledger st u) as [->|(s & c & ->)].
  - by repeat split.
  - repeat split; simpl; by apply prefix_app_r.
Qed.

Lemma s_loop_sound us st : s_sound st → s_sound (state_of (s_loop us st)).
Proof.
  revert st. induction us as [|u us IH]; intros st Hst;
    cbn [Summaries.run_loop]; [done|].
  pose proof (s_body_sound st u Hst) as H1.
  destruct (s_body st u) as [st1|st1]; simpl in *; [by apply IH | done].
Qed.

Lemma s_loop_extends us st :
  s_extends (Summaries.out st) (Summaries.out (state_of (s_loop us st))).
Proof.
  revert st. induction us as [|u us IH]; intros st;
    cbn [Summaries.run_loop]; [by repeat split|].
  pose proof (s_body_extends st u) as (H1 & H2 & H3).
  destruct (s_body st u) as [st1|st1]; simpl in *; [|by repeat split].
  destruct (IH st1) as (H4 & H5 & H6). repeat split; by etrans.
Qed.
End summaries_ledger.

(** ** The runs of the two drivers *)

Section runs.
Context {World : Type}.
Variable llm_invoke : World → Questions.Prompt → World * option pystr.
Variable process_docx_file process_excel_file :
  World → pystr → pystr → pystr → World * option (Summaries.Generated * list Chunk).

Lemma q_units_positioned (sd : SLedger) :
  Questions.units sd = positioned (s_doc_id sd).
Proof. reflexivity. Qed.

Lemma q_dump_last (st : @Questions.QRun World) :
  last (Questions.events (Questions.dump st))
    = Some (EvFlush (Questions.questions_out (Questions.dump st))) ∧
  Questions.backup_file (Questions.dump st)
    = Some (Questions.questions_out (Questions.dump st)).
Proof. unfold Questions.dump. simpl. by rewrite last_snoc. Qed.

Lemma s_dump_last (st : @Summaries.SRun World) :
  last (Summaries.events (Summaries.dump st))
    = Some (EvFlush (Summaries.out (Summaries.dump st))) ∧
  Summaries.backup_file (Summaries.dump st)
    = Some (Summaries.out (Summaries.dump st)).
Proof. unfold Summaries.dump. simpl. by rewrite last_snoc. Qed.

Lemma questions_resume sd mm (store : QLedger) file (w : World) :
  NoDup (s_doc_id sd) → NoDup (q_doc_id store) →
  q_doc_id store ⊆ s_doc_id sd →
  let fin :=
    Questions.generate_all_questions llm_invoke sd mm
      (list_to_set (q_doc_id store))
      (Questions.mkQRun store file 0 0 0 w []) in
  resume_contract (q_doc_id store) (s_doc_id sd)
    (q_doc_id (Questions.questions_out fin))
    (Questions.skipped_count fin) (Questions.processed_count fin)
    (skips (Questions.events fin)) (attempts (Questions.events fin))
    (invokes (Questions.events fin)) (appends (Questions.events fin)) ∧
  q_extends store (Questions.questions_out fin).
Proof.
  intros Hd Hs Hsub fin. subst fin. unfold Questions.generate_all_questions.
  set (st0 := Questions.mkQRun store file 0 0 0 w []).
  set (already := list_to_set (q_doc_id store) : gset pystr).
  unfold Questions.run_loop. rewrite q_units_positioned.
  split.
  - pose proof (run_loop_refines llm_invoke sd mm already
                  (positioned (s_doc_id sd)) st0) as Hsteps.
    apply unit_steps_resumed in Hsteps as (ok & called & Hres).
    eapply resumed_contract in Hres; try done.
    by rewrite <- q_view_dump in Hres.
  - apply (q_run_extends llm_invoke sd mm already _ st0).
Qed.

Lemma summaries_resume mm file_ids (store : SLedger) file (w : World) :
  NoDup file_ids → NoDup (s_doc_id store) → s_doc_id store ⊆ file_ids →
  (∀ fid, fid ∈ file_ids → is_Some (mm !! fid)) →
  ∃ fin,
    Summaries.extract_data process_docx_file process_excel_file mm
      (list_to_set (s_doc_id store)) file_ids
      (Summaries.mkSRun store file [] 0 0 w []) = Summaries.Ok fin ∧
    resume_contract (s_doc_id store) file_ids
      (s_doc_id (Summaries.out fin))
      (Summaries.skipped_count fin) (Summaries.processed_count fin)
      (skips (Summaries.events fin)) (attempts (Summaries.events fin))
      (invokes (Summaries.events fin)) (appends (Summaries.events fin)) ∧
    s_extends store (Summaries.out fin) ∧
    last (Summaries.events fin) = Some (EvFlush (Summaries.out fin)) ∧
    Summaries.backup_file fin = Some (Summaries.out fin).
Proof.
  intros Hd Hs Hsub Hmeta. unfold Summaries.extract_data.
  set (st0 := Summaries.mkSRun store file [] 0 0 w []).
  set (already := list_to_set (s_doc_id store) : gset pystr).
  change (imap (λ i d, (i, d)) file_ids) with (positioned file_ids).
  destruct (s_run_loop_refines process_docx_file process_excel_file mm already
              (positioned file_ids) st0) as (st' & Hrun & Hsteps).
  { intros i d Hin _. apply Hmeta. apply elem_of_positioned in Hin.
    by eapply list_elem_of_lookup_2. }
  pose proof (s_loop_extends process_docx_file process_excel_file mm already
                (positioned file_ids) st0) as Hext.
  rewrite Hrun in *. simpl in Hext.
  exists (Summaries.dump st'). split; [done|].
  split; [|split; [done | apply s_dump_last]].
  apply unit_steps_resumed in Hsteps as (ok & called & Hres).
  eapply resumed_contract in Hres; try done.
  by rewrite <- s_view_dump in Hres.
Qed.
End runs.


(** ** The events of one unit *)

Section about_facts.
Context {L : Type}.
Implicit Types (evs : list (Event L)) (e : Event L).

Lemma about_app i evs1 evs2 : about i (evs1 ++ evs2) = about i evs1 ++ about i evs2.
Proof. apply filter_app. Qed.

Lemma about_snoc_hit i evs e :
  unit_of e = Some i → about i (evs ++ [e]) = about i evs ++ [e].
Proof.
  intros H. rewrite about_app. f_equal. unfold about.
  by rewrite filter_cons_True.
Qed.

Lemma about_snoc_miss i evs e :
  unit_of e ≠ Some i → about i (evs ++ [e]) = about i evs.
Proof.
  intros H. rewrite about_app. unfold about at 2.
  rewrite filter_cons_False by done. apply app_nil_r.
Qed.

Lemma elem_of_about i evs e : e ∈ about i evs ↔ unit_of e = Some i ∧ e ∈ evs.
Proof. unfold about. by rewrite list_elem_of_filter. Qed.
End about_facts.

Section questions_units.
Context {World : Type}.
Variable llm_invoke : World → Questions.Prompt → World * option pystr.
Variable summaries_data : SLedger.
Variable meta_map : gmap pystr (pystr * pystr).
Variable already : gset pystr.

Abbreviation QRun' := (@Questions.QRun World).
Abbreviation q_body :=
  (Questions.loop_body llm_invoke summaries_data meta_map already).

Lemma about_q_dump i (st : QRun') :
  about i (Questions.events (Questions.dump st)) = about i (Questions.events st).
Proof. unfold Questions.dump. simpl. by apply about_snoc_miss. Qed.

(** An iteration on unit [j] adds no event about another unit. *)
Lemma about_q_body_other i j d (st : QRun') :
  i ≠ j →
  about i (Questions.events (q_body st (j, d))) = about i (Questions.events st).
Proof.
  intros Hne. unfold Questions.loop_body.
  case_bool_decide.
  { simpl. apply about_snoc_miss. simpl. intros [= ?]. congruence. }
  destruct (try_unit_cases llm_invoke summaries_data meta_map j d
              (Questions.log (EvAttempt j) st))
    as [(qs & w' & Hqs & ->)|[(w' & ->)| ->]];
    case_bool_decide; rewrite ?about_q_dump; simpl.
    all: repeat (rewrite about_snoc_miss; [|simpl; intros [= ?]; congruence]).
    all: done.
Qed.

Lemma about_q_run_other i us (st : QRun') :
  i ∉ us.*1 →
  about i (Questions.events (foldl q_body st us)) = about i (Questions.events st).
Proof.
  revert st. induction us as [|[j d] us IH]; intros st Hi; simpl; [done|].
  rewrite IH by (intros ?; apply Hi; by right).
  apply about_q_body_other. intros ->. apply Hi. left.
Qed.

(** The summary of a unit is too short for the generator. *)
Definition too_short (summary : pystr) : Prop :=
  summary = [] ∨ len (strip summary) ≤ 20.

Lemma try_unit_short i d summary (st : QRun') :
  s_summary summaries_data !! i = Some summary → too_short summary →
  Questions.try_unit llm_invoke summaries_data meta_map i d st
  = Questions.count_failed st.
Proof.
  intros Hs Hshort. unfold Questions.try_unit.
  destruct (s_summary summaries_data !! i) as [s|] eqn:E; [|done].
  injection Hs as ->.
  destruct (meta_map !! d) as [[nm yr]|];
    (case_bool_decide as Hc; [|done]);
    exfalso; destruct Hc as [H1 H2]; destruct Hshort; [done|lia|done|lia].
Qed.

(** One iteration on a unit whose summary is too short. *)
Lemma q_body_short i d summary (st : QRun') :
  d ∉ already → s_summary summaries_data !! i = Some summary →
  too_short summary →
  let st' := q_body st (i, d) in
  Questions.world st' = Questions.world st ∧
  Questions.questions_out st' = Questions.questions_out st ∧
  Questions.failed_count st' = Questions.failed_count st + 1 ∧
  Questions.skipped_count st' = Questions.skipped_count st ∧
  Questions.processed_count st' = Questions.processed_count st ∧
  about i (Questions.events st') = about i (Questions.events st) ++ [EvAttempt i].
Proof.
  intros Hd Hs Hshort. unfold Questions.loop_body.
  rewrite bool_decide_eq_false_2 by done.
  rewrite (try_unit_short i d summary) by done.
  case_bool_decide; simpl; repeat split;
    repeat (rewrite about_snoc_miss; [|done]); by rewrite about_snoc_hit.
Qed.

(** The whole run, seen from unit [i]. *)
Lemma q_run_split i d docs :
  docs !! i = Some d →
  ∃ before after,
    positioned docs = before ++ (i, d) :: after ∧
    (i ∉ before.*1) ∧ (i ∉ after.*1).
Proof.
  intros Hi. apply elem_of_positioned in Hi.
  apply list_elem_of_split in Hi as (before & after & Heq).
  exists before, after. split; [done|].
  pose proof (NoDup_positioned_fst docs) as Hnd.
  rewrite Heq, fmap_app, fmap_cons in Hnd. simpl in Hnd.
  apply NoDup_app in Hnd as (_ & Hb & Ha).
  apply NoDup_cons in Ha as [Ha _]. split; [|done].
  intros Hin. apply (Hb i Hin). left.
Qed.
End questions_units.

(** ** Skip policy of the question generator *)

Lemma elem_of_appends {L : Type} (evs : list (Event L)) (i : nat) :
  i ∈ appends evs → EvAppend i ∈ evs.
Proof.
  unfold appends. rewrite list_elem_of_omap. intros (e & He & Hi).
  by destruct e; simplify_eq/=.
Qed.

(** C5 (as amended). A unit that is not in the checkpoint and whose
    summary is empty or, once stripped, not longer than 20 characters
    enters the [try] and nothing else happens to it in the whole run: the
    text generator is not invoked for it and nothing is appended to the
    ledger, so its id is not in the final ledger. Its iteration leaves
    the world and the ledger as they are and counts the unit in
    [failed_count]; [skipped_count] and [processed_count] do not move. *)
Theorem short_summary_policy {World : Type}
    (llm_invoke : World → Questions.Prompt → World * option pystr)
    (summaries_data : SLedger) (meta_map : gmap pystr (pystr * pystr))
    (store : QLedger) (file : option QLedger) (w : World)
    (i : nat) (doc_id summary : pystr) :
  NoDup (s_doc_id summaries_data) →
  s_doc_id summaries_data !! i = Some doc_id →
  doc_id ∉ q_doc_id store →
  s_summary summaries_data !! i = Some summary →
  too_short summary →
  let already : gset pystr := list_to_set (q_doc_id store) in
  let fin :=
    Questions.generate_all_questions llm_invoke summaries_data meta_map already
      (Questions.mkQRun store file 0 0 0 w []) in
  about i (Questions.events fin) = [EvAttempt i] ∧
  (doc_id ∉ q_doc_id (Questions.questions_out fin)) ∧
  ∀ st : Questions.QRun,
    let st' :=
      Questions.loop_body llm_invoke summaries_data meta_map already st (i, doc_id) in
    Questions.world st' = Questions.world st ∧
    Questions.questions_out st' = Questions.questions_out st ∧
    Questions.failed_count st' = Questions.failed_count st + 1 ∧
    Questions.skipped_count st' = Questions.skipped_count st ∧
    Questions.processed_count st' = Questions.processed_count st.
Proof.
  intros Hnd Hi Hstore Hs Hshort already fin.
  assert (Hal : doc_id ∉ already) by (unfold already; by rewrite elem_of_list_to_set).
  assert (Habout : about i (Questions.events fin) = [EvAttempt i]).
  { subst fin. unfold Questions.generate_all_questions, Questions.run_loop.
    rewrite about_q_dump, q_units_positioned.
    destruct (q_run_split i doc_id _ Hi) as (before & after & -> & Hb & Ha).
    rewrite (cons_middle (i, doc_id) before after), app_assoc.
    rewrite foldl_app, foldl_snoc.
    rewrite about_q_run_other by done.
    destruct (q_body_short llm_invoke summaries_data meta_map already
                i doc_id summary
                (foldl (Questions.loop_body llm_invoke summaries_data meta_map already)
                   (Questions.mkQRun store file 0 0 0 w []) before))
      as (_ & _ & _ & _ & _ & ->); try done.
    by rewrite about_q_run_other by done. }
  split; [done|]. split.
  - intros Hin.
    pose proof (run_loop_refines llm_invoke summaries_data meta_map already
                  (positioned (s_doc_id summaries_data))
                  (Questions.mkQRun store file 0 0 0 w [])) as Hsteps.
    apply unit_steps_resumed in Hsteps as (ok & called & Hres).
    destruct Hres as [Hok Hcalled Hids _ _ _ Happ _ _ _].
    assert (Hview : q_view fin
                    = q_view (foldl (Questions.loop_body llm_invoke summaries_data
                                       meta_map already)
                                (Questions.mkQRun store file 0 0 0 w [])
                                (positioned (s_doc_id summaries_data)))).
    { subst fin. unfold Questions.generate_all_questions, Questions.run_loop.
      by rewrite q_view_dump, q_units_positioned. }
    rewrite <- Hview in Hids, Happ.
    change (q_doc_id (Questions.questions_out fin) = q_doc_id store ++ ok.*2) in Hids.
    change (appends (Questions.events fin) = [] ++ ok.*1) in Happ.
    rewrite Hids in Hin. apply elem_of_app in Hin as [?|Hin]; [done|].
    apply list_elem_of_fmap in Hin as ([j d] & -> & Hin). simpl in Hal, Hstore, Hi.
    assert (Hj : (j, d) ∈ positioned (s_doc_id summaries_data)).
    { eapply elem_of_sublist; [exact Hin|].
      etrans; [exact Hok|]. etrans; [exact Hcalled|apply selected_sublist]. }
    apply elem_of_positioned in Hj.
    assert (j = i) as -> by (by eapply NoDup_lookup).
    assert (Hev : EvAppend i ∈ about i (Questions.events fin)).
    { apply elem_of_about. split; [done|]. apply elem_of_appends.
      rewrite Happ. apply list_elem_of_fmap. by exists (i, d). }
    rewrite Habout in Hev. by apply list_elem_of_singleton in Hev.
  - intros st st'. subst st'.
    destruct (q_body_short llm_invoke summaries_data meta_map already
                i doc_id summary st) as (? & ? & ? & ? & ? & _); done.
Qed.

(** ** The contracts on concrete runs *)

Lemma short_summary_policy_witness :
  (NoDup (s_doc_id Demo.summaries) ∧
   s_doc_id Demo.summaries !! 0%nat = Some (py "A") ∧
   (py "A" ∉ q_doc_id Demo.store_B) ∧
   s_summary Demo.summaries !! 0%nat = Some [] ∧
   too_short []) ∧
  let already : gset pystr := list_to_set (q_doc_id Demo.store_B) in
  let fin :=
    Questions.generate_all_questions Demo.steady_llm Demo.summaries Demo.q_meta
      already (Questions.mkQRun Demo.store_B None 0 0 0 0%nat []) in
  about 0 (Questions.events fin) = [EvAttempt 0] ∧
  (py "A" ∉ q_doc_id (Questions.questions_out fin)) ∧
  ∀ st : Questions.QRun,
    let st' :=
      Questions.loop_body Demo.steady_llm Demo.summaries Demo.q_meta already st
        (0%nat, py "A") in
    Questions.world st' = Questions.world st ∧
    Questions.questions_out st' = Questions.questions_out st ∧
    Questions.failed_count st' = Questions.failed_count st + 1 ∧
    Questions.skipped_count st' = Questions.skipped_count st ∧
    Questions.processed_count st' = Questions.processed_count st.
Proof.
  assert (H1 : NoDup (s_doc_id Demo.summaries)) by compute_done.
  assert (H2 : s_doc_id Demo.summaries !! 0%nat = Some (py "A")) by reflexivity.
  assert (H3 : py "A" ∉ q_doc_id Demo.store_B) by compute_done.
  assert (H4 : s_summary Demo.summaries !! 0%nat = Some []) by reflexivity.
  assert (H5 : too_short []) by (by left).
  split; [done|].
  exact (short_summary_policy Demo.steady_llm Demo.summaries Demo.q_meta
           Demo.store_B None 0%nat 0%nat (py "A") [] H1 H2 H3 H4 H5).
Defined.

(** C5, as stated, fails: a run over one document whose summary is empty
    counts it as failed, not as skipped. *)
Lemma short_summary_counted_as_failure :
  s_summary Demo.empty_summary_of_A !! 0%nat = Some [] ∧ too_short [] ∧
  Questions.skipped_count Demo.run_A = 0 ∧
  Questions.failed_count Demo.run_A = 1 ∧
  invokes (Questions.events Demo.run_A) = [] ∧
  q_doc_id (Questions.questions_out Demo.run_A) = [].
Proof. split; [done|]. split; [by left|]. vm_compute. done. Qed.


(** ** The scripts, from load to final backup *)

Section scripts.
Context {World : Type}.
Variable llm_invoke : World → Questions.Prompt → World * option pystr.
Variable process_docx_file process_excel_file :
  World → pystr → pystr → pystr → World * option (Summaries.Generated * list Chunk).

Abbreviation q_main := (Questions.main llm_invoke).
Abbreviation s_main := (Summaries.main process_docx_file process_excel_file).

(** The configuration generate_questions.py checks before it starts. *)
Definition q_configured (fs : Questions.Files) : Prop :=
  ∃ sd fi, Questions.summaries_backup fs = Some sd ∧
           Questions.files_index fs = Some fi ∧
           (py "id" ∈ Questions.fi_columns fi ∧
            py "name" ∈ Questions.fi_columns fi ∧
            py "year" ∈ Questions.fi_columns fi) ∧
           NoDup (Questions.fi_rows fi).*1.

(** When the script gets to the driver, the outcome is the driver's. *)
Lemma q_main_finished fs w st :
  q_main fs w = Questions.Finished st →
  ∃ sd mm,
    Questions.summaries_backup fs = Some sd ∧
    st = Questions.generate_all_questions llm_invoke sd mm
           (list_to_set (q_doc_id (Questions.load_questions (Questions.questions_backup fs))))
           (Questions.mkQRun (Questions.load_questions (Questions.questions_backup fs))
              (Questions.as_file (Questions.questions_backup fs)) 0 0 0 w []).
Proof.
  unfold Questions.main.
  destruct (Questions.summaries_backup fs) as [sd|]; [|done].
  destruct (Questions.files_index fs) as [fi|]; [|done].
  repeat case_bool_decide; try done.
  intros [= <-]. by eexists _, _.
Qed.

Lemma q_main_configured fs w :
  q_configured fs → ∃ st, q_main fs w = Questions.Finished st.
Proof.
  intros (sd & fi & Hsd & Hfi & Hcols & Hnd). unfold Questions.main.
  rewrite Hsd, Hfi. rewrite !bool_decide_eq_true_2 by done. by eexists.
Qed.

Lemma q_main_not_configured fs w :
  ¬ q_configured fs →
  q_main fs w = Questions.Exit 1 ∨ q_main fs w = Questions.Raised.
Proof.
  intros Hno. unfold Questions.main.
  destruct (Questions.summaries_backup fs) as [sd|] eqn:Hsd; [|by left].
  destruct (Questions.files_index fs) as [fi|] eqn:Hfi; [|by left].
  case_bool_decide as Hcols; [|by left].
  case_bool_decide as Hnd; [|by right].
  destruct Hno. by exists sd, fi.
Qed.

Lemma q_main_sound fs w st :
  q_wf (Questions.load_questions (Questions.questions_backup fs)) →
  q_main fs w = Questions.Finished st → q_sound st.
Proof.
  intros Hwf (sd & mm & _ & ->)%q_main_finished.
  apply q_sound_dump, q_run_sound. split; [done|]. constructor.
Qed.

(** The summaries script never ends in the skip branch: every id of the
    work list has its row in [meta_map]. *)
Lemma s_main_returns backup df w :
  NoDup (filter (λ row, Summaries.mimeType row.2 ∈ Summaries.supported_mimetypes) df).*1 →
  ∃ st, s_main backup df w = Summaries.Returned (Summaries.Ok st) ∧
        last (Summaries.events st) = Some (EvFlush (Summaries.out st)) ∧
        Summaries.backup_file st = Some (Summaries.out st).
Proof.
  intros Hnd. unfold Summaries.main.
  rewrite bool_decide_eq_true_2 by done.
  unfold Summaries.extract_data.
  set (meta_df := filter _ df) in *.
  edestruct (s_run_loop_refines process_docx_file process_excel_file
               (list_to_map meta_df)
               (list_to_set (s_doc_id (default s_empty backup)))
               (positioned meta_df.*1)) as (st' & Hrun & _).
  { intros i d Hin _. apply elem_of_positioned in Hin.
    apply list_elem_of_lookup_2 in Hin.
    destruct (list_to_map meta_df !! d) as [m|] eqn:Hm; [done|].
    by apply not_elem_of_list_to_map in Hm. }
  unfold positioned in Hrun. rewrite Hrun.
  eexists. split; [done|]. apply s_dump_last.
Qed.

Lemma s_main_sound backup df w r :
  s_wf (default s_empty backup) →
  s_main backup df w = Summaries.Returned r → s_sound (state_of r).
Proof.
  intros Hwf. unfold Summaries.main. case_bool_decide; [|done].
  intros [= <-]. unfold Summaries.extract_data.
  set (meta_df := filter _ df).
  pose proof (s_loop_sound process_docx_file process_excel_file
                (list_to_map meta_df)
                (list_to_set (s_doc_id (default s_empty backup)))
                (imap (λ i d, (i, d)) meta_df.*1)
                (Summaries.mkSRun (default s_empty backup) backup [] 0 0 w []))
    as Hs.
  destruct (Summaries.run_loop _ _ _ _ _ _) as [st|st]; simpl in *.
  - apply s_sound_dump, Hs. split; [done|constructor].
  - apply Hs. split; [done|constructor].
Qed.

(** The backup files the pipeline itself can have written: none at the
    first run, then any ledger dumped by a run started from such a file. *)
Inductive q_written : option Questions.QBackup → Prop :=
  | q_written_none : q_written None
  | q_written_dump fs w st l :
      q_written (Questions.questions_backup fs) →
      q_main fs w = Questions.Finished st →
      l ∈ flushes (Questions.events st) →
      q_written (Some (Questions.mkQBackup (q_doc_id l) (q_questions l) None)).

Inductive s_written : option SLedger → Prop :=
  | s_written_none : s_written None
  | s_written_dump backup df w r l :
      s_written backup →
      s_main backup df w = Summaries.Returned r →
      l ∈ flushes (Summaries.events (state_of r)) →
      s_written (Some l).

Lemma q_written_wf f : q_written f → q_wf (Questions.load_questions f).
Proof.
  induction 1 as [|fs w st l _ IH Hmain Hl]; [apply q_wf_empty|].
  destruct (q_main_sound fs w st IH Hmain) as [_ Hfl].
  rewrite Forall_forall in Hfl. apply (Hfl l Hl).
Qed.

Lemma s_written_wf f : s_written f → s_wf (default s_empty f).
Proof.
  induction 1 as [|backup df w r l _ IH Hmain Hl]; [apply s_wf_empty|].
  destruct (s_main_sound backup df w r IH Hmain) as [_ Hfl].
  rewrite Forall_forall in Hfl. apply (Hfl l Hl).
Qed.
End scripts.

(** The ledgers a run of generate_questions.py wrote to its backup file. *)
Definition q_flushed {World : Type} (o : @Questions.Outcome World) : list QLedger :=
  match o with
  | Questions.Finished st => flushes (Questions.events st)
  | Questions.Exit _ | Questions.Raised => []
  end.





(** ** Running the question driver again *)

(** A generator is deterministic when its answer is a function of the
    prompt, whatever the state of the world. *)
Definition deterministic {World Q A : Type} (call : World → Q → World * A)
    (answer : Q → A) : Prop :=
  ∀ w q, (call w q).2 = answer q.

Section rerun.
Context {World : Type}.
Variable llm_invoke : World → Questions.Prompt → World * option pystr.
Variable answer : Questions.Prompt → option pystr.
Hypothesis llm_deterministic : deterministic llm_invoke answer.
Variable summaries_data : SLedger.
Variable meta_map : gmap pystr (pystr * pystr).

(** The questions of unit [i], as a function of the ledgers and of the
    answers of the generator. *)
Definition unit_questions (i : nat) (d : pystr) : list pystr :=
  match s_summary summaries_data !! i with
  | None => []
  | Some summary =>
      let '(file_name, year) :=
        match meta_map !! d with
        | Some (name, year) => (name, year)
        | None => (py "Unknown", py "Unknown")
        end in
      if bool_decide (summary ≠ [] ∧ 20 < len (strip summary)) then
        let context :=
          if bool_decide (file_name ≠ [] ∧ year ≠ [])
          then Some (file_name, year) else None in
        match answer (Questions.mkPrompt context 10 summary) with
        | Some content => Questions.normalize_lines (splitlines content) 10
        | None => []
        end
      else []
  end.

(** What one iteration does to the ledger. *)
Definition ledger_step (already : gset pystr) (l : QLedger) (u : nat * pystr)
    : QLedger :=
  if bool_decide (u.2 ∈ already) then l
  else match unit_questions u.1 u.2 with
       | [] => l
       | qs => q_push u.2 qs l
       end.

Lemma generate_deterministic w summary file_name year :
  (Questions.generate_questions_from_summary llm_invoke w summary file_name year 10).2
  = match answer (Questions.mkPrompt
                    (if bool_decide (file_name ≠ [] ∧ year ≠ [])
                     then Some (file_name, year) else None) 10 summary) with
    | Some content => Questions.normalize_lines (splitlines content) 10
    | None => []
    end.
Proof.
  unfold Questions.generate_questions_from_summary.
  rewrite <- (llm_deterministic w).
  by destruct (llm_invoke w _) as [w' [content|]].
Qed.

Lemma try_unit_ledger i d (st : Questions.QRun) :
  Questions.questions_out
    (Questions.try_unit llm_invoke summaries_data meta_map i d st)
  = match unit_questions i d with
    | [] => Questions.questions_out st
    | qs => q_push d qs (Questions.questions_out st)
    end.
Proof.
  unfold Questions.try_unit, unit_questions.
  destruct (s_summary summaries_data !! i) as [summary|]; [|done].
  destruct (meta_map !! d) as [[nm yr]|].
  all: case_bool_decide; [|done].
  all: rewrite <- (generate_deterministic (Questions.world st)).
  all: destruct (Questions.generate_questions_from_summary _ _ _ _ _ _) as [w' qs].
  all: by destruct qs.
Qed.

Lemma loop_body_ledger_step already (st : Questions.QRun) u :
  Questions.questions_out
    (Questions.loop_body llm_invoke summaries_data meta_map already st u)
  = ledger_step already (Questions.questions_out st) u.
Proof.
  destruct u as [i d]. unfold Questions.loop_body, ledger_step. simpl.
  case_bool_decide; [done|].
  case_bool_decide; simpl; by rewrite try_unit_ledger.
Qed.

Lemma run_ledger_steps already us (st : Questions.QRun) :
  Questions.questions_out
    (foldl (Questions.loop_body llm_invoke summaries_data meta_map already) st us)
  = foldl (ledger_step already) (Questions.questions_out st) us.
Proof.
  revert st. induction us as [|u us IH]; intros st; simpl; [done|].
  by rewrite IH, loop_body_ledger_step.
Qed.

Lemma ledger_step_grows already l u :
  q_doc_id l ⊆ q_doc_id (ledger_step already l u).
Proof.
  unfold ledger_step. case_bool_decide; [done|].
  destruct (unit_questions _ _); [done|]. simpl.
  intros x Hx. apply elem_of_app. by left.
Qed.

Lemma ledger_steps_grow already us l :
  q_doc_id l ⊆ q_doc_id (foldl (ledger_step already) l us).
Proof.
  revert l. induction us as [|u us IH]; intros l; simpl; [done|].
  etrans; [apply (ledger_step_grows already l u) | apply IH].
Qed.

(** After a run, a unit is in the checkpoint it started from, or has no
    questions, or is in the ledger. *)
Lemma ledger_steps_cover already us l u :
  u ∈ us →
  u.2 ∈ already ∨ unit_questions u.1 u.2 = [] ∨
  u.2 ∈ q_doc_id (foldl (ledger_step already) l us).
Proof.
  revert l. induction us as [|u' us IH]; intros l Hu; [by apply elem_of_nil in Hu|].
  apply elem_of_cons in Hu as [->|Hu]; [|by apply IH].
  simpl. destruct (decide (u'.2 ∈ already)) as [|Hn]; [by left|].
  destruct (unit_questions u'.1 u'.2) as [|q qs] eqn:Hq; [by right; left|].
  right; right. apply ledger_steps_grow.
  unfold ledger_step. rewrite bool_decide_eq_false_2 by done. rewrite Hq. simpl.
  apply elem_of_app. right. left.
Qed.

(** A run in which every unit is in the checkpoint or has no questions
    leaves the ledger as it is. *)
Lemma ledger_steps_fixed already us l :
  (∀ u, u ∈ us → u.2 ∈ already ∨ unit_questions u.1 u.2 = []) →
  foldl (ledger_step already) l us = l.
Proof.
  induction us as [|u us IH]; intros H; simpl; [done|].
  assert (ledger_step already l u = l) as ->.
  { unfold ledger_step. destruct (H u) as [Hin|Hq]; [left| |].
    - by rewrite bool_decide_eq_true_2.
    - case_bool_decide; [done|]. by rewrite Hq. }
  apply IH. intros u' Hu'. apply H. by right.
Qed.

Lemma rerun_ledger us (l0 : QLedger) :
  let l1 := foldl (ledger_step (list_to_set (q_doc_id l0))) l0 us in
  foldl (ledger_step (list_to_set (q_doc_id l1))) l1 us = l1.
Proof.
  intros l1. apply ledger_steps_fixed. intros u Hu.
  destruct (ledger_steps_cover (list_to_set (q_doc_id l0)) us l0 u Hu)
    as [Hin|[Hq|Hin]].
  - left. apply elem_of_list_to_set. apply elem_of_list_to_set in Hin.
    by apply (ledger_steps_grow (list_to_set (q_doc_id l0)) us l0).
  - by right.
  - left. by apply elem_of_list_to_set.
Qed.
End rerun.

(** ** Index writer: the record-building loops *)

Section build_facts.
Context {Vec : Type}.
Variable meta_map : gmap pystr Indexer.BaseMeta.

Abbreviation Built := (@Indexer.Built Vec).
Abbreviation IndexRecord := (@Indexer.IndexRecord Vec).

(** A loop body that adds the entry of a row or counts the row as
    skipped. *)
Definition build_with {X : Type} (entry : X → option (pystr * IndexRecord))
    (acc : Built) (row : X) : Built :=
  match entry row with
  | Some (text, rec) => Indexer.add text rec acc
  | None => Indexer.skip acc
  end.

Lemma foldl_build_with {X : Type} (entry : X → option (pystr * IndexRecord))
    (rows : list X) (acc : Built) :
  foldl (build_with entry) acc rows
  = Indexer.mkBuilt
      (Indexer.texts acc ++ (omap entry rows).*1)
      (Indexer.records acc ++ (omap entry rows).*2)
      (Indexer.skipped acc
       + Z.of_nat (length (filter (λ row, entry row = None) rows))).
Proof.
  revert acc. induction rows as [|row rows IH]; intros acc; simpl.
  - destruct acc. simpl. rewrite !app_nil_r. f_equal. lia.
  - rewrite IH. unfold build_with at 1 2 3.
    destruct (entry row) as [[text rec]|] eqn:He; simpl.
    + rewrite filter_cons_False by (rewrite He; congruence).
      rewrite <- !app_assoc. reflexivity.
    + rewrite filter_cons_True by done. simpl. f_equal. lia.
Qed.

(** The entry of a row of each loop: the text to embed and its record,
    or nothing when the row is rejected. *)
Definition acceptable (text : pystr) : Prop :=
  text ≠ [] ∧ utf8_len text ≤ Indexer.MAX_DOC_BYTES.

Definition summary_entry (row : pystr * pystr) : option (pystr * IndexRecord) :=
  let text := strip row.2 in
  if bool_decide (acceptable text)
  then Some (text, Indexer.summary_record meta_map row.1 text) else None.

Definition chunk_entry (row : pystr * (nat * Chunk)) : option (pystr * IndexRecord) :=
  let content := strip (Indexer.chunk_text row.2.2) in
  if bool_decide (acceptable content)
  then Some (content, Indexer.chunk_record meta_map row.1 row.2.1 content) else None.

(** [clean] and [joined] of the questions loop. *)
Definition clean_questions (questions : list pystr) : list pystr :=
  filter (λ q, q ≠ []) (strip <$> questions).

Definition joined_questions (questions : list pystr) : pystr :=
  join [10%N] (clean_questions questions).

Definition question_entry (row : pystr * list pystr) : option (pystr * IndexRecord) :=
  let clean := clean_questions row.2 in
  let joined := join [10%N] clean in
  if bool_decide (clean ≠ [] ∧ utf8_len joined ≤ Indexer.MAX_DOC_BYTES)
  then Some (joined, Indexer.question_record meta_map row.1 clean joined) else None.

Lemma build_summary_entry acc row :
  Indexer.build_summary meta_map acc row = build_with summary_entry acc row.
Proof.
  destruct row as [d s]. unfold Indexer.build_summary, build_with, summary_entry.
  unfold acceptable. simpl.
  repeat case_bool_decide; try done; try lia; intuition lia.
Qed.

Lemma build_chunk_entry d acc ich :
  Indexer.build_chunk meta_map d acc ich = build_with chunk_entry acc (d, ich).
Proof.
  destruct ich as [i ch]. unfold Indexer.build_chunk, build_with, chunk_entry.
  unfold acceptable. simpl.
  repeat case_bool_decide; try done; try lia; intuition lia.
Qed.

Lemma build_question_entry acc row :
  Indexer.build_question meta_map acc row = build_with question_entry acc row.
Proof.
  destruct row as [d qs]. unfold Indexer.build_question, build_with, question_entry.
  unfold clean_questions. simpl.
  destruct (filter _ _) as [|q clean] eqn:Hc.
  - rewrite bool_decide_eq_false_2; [done|]. by intros [? _].
  - repeat case_bool_decide; try done; try lia; naive_solver lia.
Qed.

Lemma foldl_ext_eq {A B : Type} (f g : A → B → A) (l : list B) (a : A) :
  (∀ a b, f a b = g a b) → foldl f a l = foldl g a l.
Proof.
  intros H. revert a. induction l as [|b l IH]; intros a; simpl; [done|].
  by rewrite H, IH.
Qed.

(** The rows of the three loops. *)
Definition summary_rows (s_data : SLedger) : list (pystr * pystr) :=
  zip (s_doc_id s_data) (s_summary s_data).

Definition question_rows (q_data : QLedger) : list (pystr * list pystr) :=
  zip (q_doc_id q_data) (q_questions q_data).

Definition chunk_rows (s_data : SLedger) : list (pystr * (nat * Chunk)) :=
  zip (s_doc_id s_data) (s_chunks s_data)
    ≫= λ row, (λ ich, (row.1, ich)) <$> imap (λ i ch, (i, ch)) row.2.

(** What a loop leaves in its lists and in its counter. *)
Definition built_from {X : Type} (entry : X → option (pystr * IndexRecord))
    (rows : list X) : Built :=
  Indexer.mkBuilt (omap entry rows).*1 (omap entry rows).*2
    (Z.of_nat (length (filter (λ row, entry row = None) rows))).

Lemma build_summaries_spec s_data :
  Indexer.build_summaries meta_map s_data
  = built_from summary_entry (summary_rows s_data).
Proof.
  unfold Indexer.build_summaries.
  rewrite (foldl_ext_eq _ (build_with summary_entry)) by apply build_summary_entry.
  by rewrite foldl_build_with.
Qed.

Lemma build_questions_spec q_data :
  Indexer.build_questions meta_map q_data
  = built_from question_entry (question_rows q_data).
Proof.
  unfold Indexer.build_questions.
  rewrite (foldl_ext_eq _ (build_with question_entry)) by apply build_question_entry.
  by rewrite foldl_build_with.
Qed.

Lemma build_chunks_of_flat acc row :
  Indexer.build_chunks_of meta_map acc row
  = foldl (build_with chunk_entry) acc
      ((λ ich, (row.1, ich)) <$> imap (λ i ch, (i, ch)) row.2).
Proof.
  destruct row as [d chunks]. unfold Indexer.build_chunks_of. simpl.
  generalize (imap (λ i ch, (i, ch)) chunks). intros l. revert acc.
  induction l as [|ich l IH]; intros acc; simpl; [done|].
  by rewrite IH, build_chunk_entry.
Qed.

Lemma build_chunks_spec s_data :
  Indexer.build_chunks meta_map s_data
  = built_from chunk_entry (chunk_rows s_data).
Proof.
  unfold Indexer.build_chunks, chunk_rows.
  transitivity (foldl (build_with chunk_entry) Indexer.nothing
                  (zip (s_doc_id s_data) (s_chunks s_data)
                     ≫= λ row, (λ ich, (row.1, ich)) <$> imap (λ i ch, (i, ch)) row.2)).
  - generalize (zip (s_doc_id s_data) (s_chunks s_data)). intros rows.
    generalize (@Indexer.nothing Vec). induction rows as [|row rows IH];
      intros acc; simpl; [done|].
    by rewrite foldl_app, IH, build_chunks_of_flat.
  - by rewrite foldl_build_with.
Qed.

Lemma built_from_lengths {X : Type} (entry : X → option (pystr * IndexRecord)) rows :
  length (Indexer.texts (built_from entry rows))
  = length (Indexer.records (built_from entry rows)).
Proof. simpl. by rewrite !length_fmap. Qed.
End build_facts.

(** ** Index writer: embedding and upsert *)

Section embed_facts.
Context {Vec World : Type}.
Variable embed_documents : World → list pystr → World * option (list Vec).

Abbreviation Rec := (@Indexer.IndexRecord Vec).
Abbreviation embed_loop := (Indexer.embed_loop embed_documents).

Definition has_vector (r : Rec) : Prop := is_Some (Indexer.values r).

(** The id and the metadata of a record: what embedding leaves alone. *)
Definition shape (r : Rec) : pystr * list (pystr * Indexer.MetaVal) :=
  (Indexer.id r, Indexer.metadata r).

Lemma set_values_shape (heap : list Rec) ref vec :
  shape <$> Indexer.set_values heap ref vec = shape <$> heap.
Proof.
  unfold Indexer.set_values. apply list_eq. intros j.
  rewrite !list_lookup_fmap.
  destruct (decide (ref = j)) as [->|Hne].
  - rewrite list_lookup_alter_eq. by destruct (heap !! j).
  - by rewrite list_lookup_alter_ne.
Qed.

Lemma set_values_keeps (heap : list Rec) ref vec j r :
  heap !! j = Some r → has_vector r →
  ∃ r', Indexer.set_values heap ref vec !! j = Some r' ∧ has_vector r'.
Proof.
  intros Hj Hr. unfold Indexer.set_values.
  destruct (decide (ref = j)) as [->|Hne].
  - rewrite list_lookup_alter_eq, Hj. simpl. eexists. split; [done|].
    by eexists.
  - rewrite list_lookup_alter_ne by done. by exists r.
Qed.

Lemma set_values_sets (heap : list Rec) ref vec :
  (ref < length heap)%nat →
  ∃ r', Indexer.set_values heap ref vec !! ref = Some r' ∧ has_vector r'.
Proof.
  intros [r Hr]%lookup_lt_is_Some_2. unfold Indexer.set_values.
  rewrite list_lookup_alter_eq, Hr. simpl. eexists. split; [done|]. by eexists.
Qed.

Lemma assign_shape (heap : list Rec) batch vecs :
  shape <$> Indexer.assign heap batch vecs = shape <$> heap.
Proof.
  unfold Indexer.assign. generalize (zip batch vecs). intros l. revert heap.
  induction l as [|bv l IH]; intros heap; simpl; [done|].
  by rewrite IH, set_values_shape.
Qed.

Lemma assign_keeps (heap : list Rec) batch vecs j r :
  heap !! j = Some r → has_vector r →
  ∃ r', Indexer.assign heap batch vecs !! j = Some r' ∧ has_vector r'.
Proof.
  unfold Indexer.assign. generalize (zip batch vecs). intros l. revert heap r.
  induction l as [|bv l IH]; intros heap r Hj Hr; simpl; [by exists r|].
  destruct (set_values_keeps heap bv.1.2 bv.2 j r Hj Hr) as (r' & Hj' & Hr').
  by eapply IH.
Qed.

(** When the embedder hands back a vector per text, every record of
    the batch gets one. *)
Lemma assign_sets (heap : list Rec) batch vecs text ref :
  length vecs = length batch → (text, ref) ∈ batch → (ref < length heap)%nat →
  ∃ r', Indexer.assign heap batch vecs !! ref = Some r' ∧ has_vector r'.
Proof.
  unfold Indexer.assign. revert heap vecs.
  induction batch as [|[t' ref'] batch IH]; intros heap vecs Hlen Hin Href.
  { by apply elem_of_nil in Hin. }
  destruct vecs as [|vec vecs]; [done|]. simpl in *.
  apply elem_of_cons in Hin as [[= <- <-]|Hin].
  - destruct (set_values_sets heap ref vec Href) as (r' & Hr' & Hv).
    by eapply (assign_keeps _ batch vecs).
  - apply IH; [lia|done|].
    unfold Indexer.set_values. by rewrite length_alter.
Qed.

Lemma assign_length (heap : list Rec) batch vecs :
  length (Indexer.assign heap batch vecs) = length heap.
Proof.
  rewrite <- (length_fmap shape), assign_shape. apply length_fmap.
Qed.

Lemma embed_loop_shape w heap batches w' recs :
  embed_loop w heap batches = (w', Some recs) → shape <$> recs = shape <$> heap.
Proof.
  revert w heap. induction batches as [|batch batches IH]; intros w heap; simpl.
  - by intros [= <- <-].
  - destruct (embed_documents w batch.*1) as [w1 [vecs|]]; [|done].
    intros H%IH. by rewrite H, assign_shape.
Qed.

(** The embedder keeps its contract: as many vectors as texts. *)
Definition well_sized : Prop :=
  ∀ w batch w' vecs,
    embed_documents w batch = (w', Some vecs) → length vecs = length batch.

Lemma embed_loop_keeps w heap batches w' recs j r :
  embed_loop w heap batches = (w', Some recs) →
  heap !! j = Some r → has_vector r →
  ∃ r', recs !! j = Some r' ∧ has_vector r'.
Proof.
  revert w heap r. induction batches as [|batch batches IH]; intros w heap r; simpl.
  - intros [= <- <-] ? ?. by exists r.
  - destruct (embed_documents w batch.*1) as [w1 [vecs|]]; [|done].
    intros Hloop Hj Hr.
    destruct (assign_keeps heap batch vecs j r Hj Hr) as (r1 & Hj1 & Hr1).
    by eapply IH.
Qed.

Lemma embed_loop_sets w heap batches w' recs text ref :
  well_sized →
  embed_loop w heap batches = (w', Some recs) →
  (text, ref) ∈ concat batches → (ref < length heap)%nat →
  ∃ r', recs !! ref = Some r' ∧ has_vector r'.
Proof.
  intros Hsized. revert w heap.
  induction batches as [|batch batches IH]; intros w heap; simpl.
  - intros _ Hin. by apply elem_of_nil in Hin.
  - destruct (embed_documents w batch.*1) as [w1 [vecs|]] eqn:Hemb; [|done].
    intros Hloop Hin Href.
    apply Hsized in Hemb. rewrite length_fmap in Hemb.
    apply elem_of_app in Hin as [Hin|Hin].
    + destruct (assign_sets heap batch vecs text ref Hemb Hin Href)
        as (r1 & Hr1 & Hv1).
      by eapply embed_loop_keeps.
    + eapply IH; [done..|]. by rewrite assign_length.
Qed.

(** A batch on which the embedder raises ends the loop. *)
Lemma embed_loop_raises w heap before batch after w1 heap1 w2 :
  embed_loop w heap before = (w1, Some heap1) →
  embed_documents w1 batch.*1 = (w2, None) →
  embed_loop w heap (before ++ batch :: after) = (w2, None).
Proof.
  revert w heap. induction before as [|b before IH]; intros w heap; simpl.
  - intros [= <- <-] ->. done.
  - destruct (embed_documents w b.*1) as [w' [vecs|]]; [|done].
    apply IH.
Qed.

(** The loop ends without records only when the embedder raised. *)
Lemma embed_loop_None w heap batches w2 :
  embed_loop w heap batches = (w2, None) →
  ∃ before batch after w1 heap1,
    batches = before ++ batch :: after ∧
    embed_loop w heap before = (w1, Some heap1) ∧
    embed_documents w1 batch.*1 = (w2, None).
Proof.
  revert w heap. induction batches as [|b batches IH]; intros w heap; simpl; [done|].
  destruct (embed_documents w b.*1) as [w' [vecs|]] eqn:Hemb.
  - intros (before & batch & after & w1 & heap1 & -> & Hloop & Hfail)%IH.
    exists (b :: before), batch, after, w1, heap1. simpl. by rewrite Hemb.
  - intros [= <-]. by exists [], b, batches, w, heap.
Qed.

(** With a deterministic embedder the records do not depend on the
    world. *)
Lemma embed_loop_deterministic vectors w w' heap batches :
  deterministic embed_documents vectors →
  (embed_loop w heap batches).2 = (embed_loop w' heap batches).2.
Proof.
  intros Hdet. revert w w' heap.
  induction batches as [|b batches IH]; intros w w' heap; simpl; [done|].
  pose proof (Hdet w b.*1) as H1. pose proof (Hdet w' b.*1) as H2.
  destruct (embed_documents w b.*1) as [w1 r1].
  destruct (embed_documents w' b.*1) as [w1' r1']. simpl in *. subst.
  destruct (vectors b.*1); [apply IH|done].
Qed.
End embed_facts.

Section upsert_facts.
Context {Vec : Type}.
Abbreviation Rec' := (@Indexer.IndexRecord Vec).
Implicit Types (idx : gmap pystr Rec') (recs : list Rec').

Lemma upsert_app idx recs1 recs2 :
  Indexer.upsert idx (recs1 ++ recs2) = Indexer.upsert (Indexer.upsert idx recs1) recs2.
Proof. apply foldl_app. Qed.

Lemma upsert_snoc idx recs r :
  Indexer.upsert idx (recs ++ [r]) = <[Indexer.id r := r]> (Indexer.upsert idx recs).
Proof. by rewrite upsert_app. Qed.

(** The record last upserted under [k]. *)
Definition latest (k : pystr) recs : option Rec' :=
  last (filter (λ r, Indexer.id r = k) recs).

Lemma upsert_lookup idx recs k :
  Indexer.upsert idx recs !! k
  = match latest k recs with Some r => Some r | None => idx !! k end.
Proof.
  induction recs as [|r recs IH] using rev_ind; [done|].
  rewrite upsert_snoc. unfold latest in *. rewrite filter_app.
  destruct (decide (Indexer.id r = k)) as [<-|Hne].
  - rewrite lookup_insert_eq, filter_cons_True by done.
    by rewrite filter_nil, last_snoc.
  - rewrite lookup_insert_ne, filter_cons_False by done.
    by rewrite filter_nil, app_nil_r.
Qed.

(** Upserting the same records again changes nothing. *)
Lemma upsert_idempotent idx recs :
  Indexer.upsert (Indexer.upsert idx recs) recs = Indexer.upsert idx recs.
Proof.
  apply map_eq. intros k. rewrite !upsert_lookup.
  by destruct (latest k recs).
Qed.

Lemma dom_upsert idx recs :
  dom (Indexer.upsert idx recs) = dom idx ∪ list_to_set (Indexer.id <$> recs).
Proof.
  induction recs as [|r recs IH] using rev_ind.
  - simpl. by rewrite (right_id_L ∅ (∪)).
  - rewrite upsert_snoc, dom_insert_L, IH, fmap_app, list_to_set_app_L.
    simpl. rewrite (right_id_L ∅ (∪)).
    rewrite (comm_L (∪) {[Indexer.id r]}). by rewrite (assoc_L (∪)).
Qed.

Lemma upsert_loop_batches idx (batches : list (list Rec')) n :
  foldl (λ st batch, (Indexer.upsert st.1 batch, st.2 + Z.of_nat (length batch)))
    (idx, n) batches
  = (Indexer.upsert idx (concat batches), n + Z.of_nat (length (concat batches))).
Proof.
  revert idx n. induction batches as [|b batches IH]; intros idx n; simpl.
  - f_equal. lia.
  - rewrite IH, upsert_app, length_app. f_equal. lia.
Qed.

(** The upsert loop upserts every record, in order, and counts them. *)
Lemma upsert_loop_spec idx recs :
  Indexer.upsert_loop idx recs = (Indexer.upsert idx recs, Z.of_nat (length recs)).
Proof.
  unfold Indexer.upsert_loop, chunked.
  rewrite upsert_loop_batches, chunked_from_concat. done.
Qed.
End upsert_facts.

(** ** Index writer: one stage *)

Section stage_facts.
Context {Vec World : Type}.
Variable embed_documents : World → list pystr → World * option (list Vec).

Abbreviation Built' := (@Indexer.Built Vec).
Abbreviation stage := (Indexer.index_stage embed_documents).

(** The lists of texts and of records of a loop go together. *)
Definition paired (b : Built') : Prop :=
  length (Indexer.texts b) = length (Indexer.records b).

Lemma batches_concat (b : Built') :
  concat (Indexer.batches_of b)
  = zip (Indexer.texts b) (seq 0 (length (Indexer.records b))).
Proof. unfold Indexer.batches_of, chunked. apply chunked_from_concat. Qed.

(** The embedder is given the texts of the loop, all of them, in order. *)
Lemma batches_texts (b : Built') :
  paired b →
  concat ((λ batch, batch.*1) <$> Indexer.batches_of b) = Indexer.texts b.
Proof.
  intros Hp.
  transitivity ((concat (Indexer.batches_of b)).*1).
  - generalize (Indexer.batches_of b). intros bs.
    induction bs as [|x bs IH]; simpl; [done|].
    rewrite fmap_app. f_equal. exact IH.
  - rewrite batches_concat. apply fst_zip. rewrite length_seq. unfold paired in Hp. lia.
Qed.

Lemma elem_of_concat {A : Type} (x : A) (l : list A) (ls : list (list A)) :
  l ∈ ls → x ∈ l → x ∈ concat ls.
Proof.
  induction ls as [|l' ls IH]; intros Hl Hx; [by apply elem_of_nil in Hl|].
  simpl. apply elem_of_app. apply elem_of_cons in Hl as [->|Hl]; auto.
Qed.

Lemma batch_texts (b : Built') batch text :
  paired b → batch ∈ Indexer.batches_of b → text ∈ batch.*1 →
  text ∈ Indexer.texts b.
Proof.
  intros Hp Hb Ht. rewrite <- (batches_texts b Hp).
  apply (elem_of_concat text batch.*1); [|done].
  apply list_elem_of_fmap. by exists batch.
Qed.

Lemma stage_raises w idx (b : Built') before batch after w1 heap1 w2 :
  Indexer.batches_of b = before ++ batch :: after →
  Indexer.embed_loop embed_documents w (Indexer.records b) before = (w1, Some heap1) →
  embed_documents w1 batch.*1 = (w2, None) →
  stage w idx b = Indexer.Failed idx w2.
Proof.
  intros Hb Hloop Hfail. unfold Indexer.index_stage. rewrite Hb.
  by rewrite (embed_loop_raises embed_documents w _ before batch after w1 heap1 w2).
Qed.

Lemma stage_failed w idx (b : Built') idx' w' :
  stage w idx b = Indexer.Failed idx' w' →
  idx' = idx ∧
  ∃ before batch after w1 heap1,
    Indexer.batches_of b = before ++ batch :: after ∧
    Indexer.embed_loop embed_documents w (Indexer.records b) before = (w1, Some heap1) ∧
    embed_documents w1 batch.*1 = (w', None).
Proof.
  unfold Indexer.index_stage.
  destruct (Indexer.embed_loop _ _ _ _) as [w1 [recs|]] eqn:Hloop.
  - by destruct (Indexer.upsert_loop idx recs).
  - intros [= <- <-]. split; [done|]. by apply embed_loop_None.
Qed.

Lemma stage_indexed w idx (b : Built') idx' n s w' :
  stage w idx b = Indexer.Indexed idx' n s w' →
  ∃ recs,
    Indexer.embed_loop embed_documents w (Indexer.records b) (Indexer.batches_of b)
      = (w', Some recs) ∧
    shape <$> recs = shape <$> Indexer.records b ∧
    idx' = Indexer.upsert idx recs ∧
    n = Z.of_nat (length (Indexer.records b)) ∧ s = Indexer.skipped b.
Proof.
  unfold Indexer.index_stage.
  destruct (Indexer.embed_loop _ _ _ _) as [w1 [recs|]] eqn:Hloop; [|done].
  rewrite upsert_loop_spec. intros [= <- <- <- <-].
  exists recs. pose proof (embed_loop_shape _ _ _ _ _ _ Hloop) as Hshape.
  repeat split; try done.
  by rewrite <- (length_fmap shape), Hshape, length_fmap.
Qed.

(** Every record of an indexed stage went to the collection with its
    vector, when the embedder hands back a vector per text. *)
Lemma stage_vectors w idx (b : Built') idx' n s w' :
  well_sized embed_documents → paired b →
  stage w idx b = Indexer.Indexed idx' n s w' →
  ∀ k r, idx' !! k = Some r → idx !! k = Some r ∨ has_vector r.
Proof.
  intros Hsized Hp (recs & Hloop & Hshape & -> & _)%stage_indexed k r.
  rewrite upsert_lookup. unfold latest.
  destruct (last (filter _ recs)) as [r'|] eqn:Hlast; [|by left].
  intros [= ->]. right.
  apply last_Some_elem_of, list_elem_of_filter in Hlast as [_ Hin].
  apply list_elem_of_lookup in Hin as [j Hj].
  assert (Hlen : length recs = length (Indexer.records b)).
  { by rewrite <- (length_fmap shape), Hshape, length_fmap. }
  assert (Hjlt : (j < length (Indexer.records b))%nat).
  { rewrite <- Hlen. by eapply lookup_lt_Some. }
  assert (Htext : ∃ text, (text, j) ∈ concat (Indexer.batches_of b)).
  { rewrite batches_concat.
    destruct (lookup_lt_is_Some_2 (Indexer.texts b) j) as [text Ht].
    { unfold paired in Hp. lia. }
    exists text. apply list_elem_of_lookup. exists j.
    apply lookup_zip_with_Some. exists text, j. repeat split; [done|].
    apply lookup_seq. split; [done|lia]. }
  destruct Htext as [text Htext].
  destruct (embed_loop_sets embed_documents w _ _ w' recs text j Hsized Hloop Htext Hjlt)
    as (r' & Hr' & Hv).
  by simplify_eq.
Qed.

(** With a deterministic embedder, a stage run again over the collection
    it produced leaves it as it is. *)
Lemma stage_again vectors w idx (b : Built') idx' n s w' w2 :
  deterministic embed_documents vectors →
  stage w idx b = Indexer.Indexed idx' n s w' →
  ∃ w3, stage w2 idx' b = Indexer.Indexed idx' n s w3.
Proof.
  intros Hdet. unfold Indexer.index_stage.
  pose proof (embed_loop_deterministic embed_documents vectors w w2
                (Indexer.records b) (Indexer.batches_of b) Hdet) as Heq.
  destruct (Indexer.embed_loop embed_documents w _ _) as [w1 [recs|]]; [|done].
  destruct (Indexer.embed_loop embed_documents w2 _ _) as [w3 r3].
  simpl in Heq. subst r3.
  rewrite !upsert_loop_spec. intros [= <- <- <- <-].
  exists w3. by rewrite upsert_idempotent.
Qed.
End stage_facts.

(** ** Byte ceiling *)

Section ceiling.
Context {Vec : Type}.
Variable meta_map : gmap pystr Indexer.BaseMeta.

Abbreviation Rec2 := (@Indexer.IndexRecord Vec).

(** The text a record carries in its metadata. *)
Definition carries (r : Rec2) (text : pystr) : Prop :=
  (py "text", Indexer.MStr text) ∈ Indexer.metadata r ∨
  (py "questions_text", Indexer.MStr text) ∈ Indexer.metadata r.

Lemma elem_of_present k v (l : list (pystr * option Indexer.MetaVal)) :
  (k, v) ∈ Indexer.present l ↔ (k, Some v) ∈ l.
Proof.
  unfold Indexer.present. rewrite list_elem_of_omap. split.
  - intros ([k' [v'|]] & Hin & Heq); simplify_eq/=. done.
  - intros Hin. by exists (k, Some v).
Qed.

Lemma summary_record_carries d t t' :
  carries (Indexer.summary_record meta_map d t) t' ↔ t' = t.
Proof.
  unfold carries, Indexer.summary_record. cbn [Indexer.metadata].
  rewrite !elem_of_present. unfold Indexer.base_fields.
  rewrite !elem_of_app, !elem_of_cons, !elem_of_nil.
  split; [|intros ->; auto 10].
  intros H; decompose [or] H; clear H; try done;
    match goal with
    | H : (?k1, _) = (?k2, _) |- _ =>
        first [ by (assert (k1 ≠ k2) by (vm_compute; discriminate); congruence)
              | by simplify_eq/= ]
    end.
Qed.

Lemma chunk_record_carries d i t t' :
  carries (Indexer.chunk_record meta_map d i t) t' ↔ t' = t.
Proof.
  unfold carries, Indexer.chunk_record. cbn [Indexer.metadata].
  rewrite !elem_of_present. unfold Indexer.base_fields.
  rewrite !elem_of_app, !elem_of_cons, !elem_of_nil.
  split; [|intros ->; auto 10].
  intros H; decompose [or] H; clear H; try done;
    match goal with
    | H : (?k1, _) = (?k2, _) |- _ =>
        first [ by (assert (k1 ≠ k2) by (vm_compute; discriminate); congruence)
              | by simplify_eq/= ]
    end.
Qed.

Lemma question_record_carries d clean t t' :
  carries (Indexer.question_record meta_map d clean t) t' ↔ t' = t.
Proof.
  unfold carries, Indexer.question_record. cbn [Indexer.metadata].
  rewrite !elem_of_present. unfold Indexer.base_fields.
  rewrite !elem_of_app, !elem_of_cons, !elem_of_nil.
  split; [|intros ->; auto 10].
  intros H; decompose [or] H; clear H; try done;
    match goal with
    | H : (?k1, _) = (?k2, _) |- _ =>
        first [ by (assert (k1 ≠ k2) by (vm_compute; discriminate); congruence)
              | by simplify_eq/= ]
    end.
Qed.

(** An entry pairs an acceptable text with a record that carries it,
    whole, and nothing else. *)
Definition faithful {X : Type} (entry : X → option (pystr * Rec2)) : Prop :=
  ∀ row t r, entry row = Some (t, r) →
    utf8_len t ≤ Indexer.MAX_DOC_BYTES ∧ ∀ t', carries r t' ↔ t' = t.

Lemma summary_entry_faithful : faithful (summary_entry meta_map).
Proof.
  intros [d s] t r. unfold summary_entry. simpl.
  case_bool_decide as Ha; [|done]. intros [= <- <-]. split; [apply Ha|].
  apply summary_record_carries.
Qed.

Lemma chunk_entry_faithful : faithful (chunk_entry meta_map).
Proof.
  intros [d [i ch]] t r. unfold chunk_entry. simpl.
  case_bool_decide as Ha; [|done]. intros [= <- <-]. split; [apply Ha|].
  apply chunk_record_carries.
Qed.

Lemma question_entry_faithful : faithful (question_entry meta_map).
Proof.
  intros [d qs] t r. unfold question_entry. simpl.
  case_bool_decide as Ha; [|done]. intros [= <- <-]. split; [apply Ha|].
  apply question_record_carries.
Qed.

(** What a loop over faithful entries leaves behind, seen from a text
    over the ceiling. *)
Record ceiling_kept (b : @Indexer.Built Vec) (text : pystr) : Prop := mkCeiling {
  ck_paired : paired b;
  ck_texts : Forall (λ t, utf8_len t ≤ Indexer.MAX_DOC_BYTES) (Indexer.texts b);
  ck_whole : Forall2 (λ t r, ∀ t', carries r t' ↔ t' = t)
               (Indexer.texts b) (Indexer.records b);
  ck_not_text : text ∉ Indexer.texts b;
  ck_not_embedded : ∀ batch, batch ∈ Indexer.batches_of b → text ∉ batch.*1;
  ck_not_record : ∀ r, r ∈ Indexer.records b → ¬ carries r text;
}.

Lemma built_from_ceiling {X : Type} (entry : X → option (pystr * Rec2)) rows text :
  faithful entry → Indexer.MAX_DOC_BYTES < utf8_len text →
  ceiling_kept (built_from entry rows) text.
Proof.
  intros Hf Hbig.
  assert (Hall : Forall (λ tr, utf8_len tr.1 ≤ Indexer.MAX_DOC_BYTES ∧
                               ∀ t', carries tr.2 t' ↔ t' = tr.1)
                   (omap entry rows)).
  { apply Forall_forall. intros [t r] (row & Hrow & He)%list_elem_of_omap.
    by apply (Hf row). }
  assert (Htexts : Forall (λ t, utf8_len t ≤ Indexer.MAX_DOC_BYTES)
                     (Indexer.texts (built_from entry rows))).
  { simpl. apply Forall_fmap. eapply Forall_impl; [exact Hall|]. by intros ? [? _]. }
  assert (Hwhole : Forall2 (λ t r, ∀ t', carries r t' ↔ t' = t)
                     (Indexer.texts (built_from entry rows))
                     (Indexer.records (built_from entry rows))).
  { simpl. apply Forall2_fmap, Forall_Forall2_diag.
    eapply Forall_impl; [exact Hall|]. by intros ? [_ ?]. }
  assert (Hnot : text ∉ Indexer.texts (built_from entry rows)).
  { intros Hin. rewrite Forall_forall in Htexts. specialize (Htexts _ Hin). lia. }
  split; try done.
  - apply built_from_lengths.
  - intros batch Hb Ht. apply Hnot.
    eapply batch_texts; [apply built_from_lengths|done..].
  - intros r Hr Hc.
    apply list_elem_of_lookup in Hr as [j Hj].
    destruct (Forall2_lookup_r _ _ _ _ _ Hwhole Hj) as (t & Ht & Hrt).
    apply Hrt in Hc. subst t. apply Hnot.
    by eapply list_elem_of_lookup_2.
Qed.
End ceiling.

(** C8. Byte ceiling. A text that encodes to more bytes than
    [MAX_DOC_BYTES] is rejected by the loop that meets it, before any
    embedding: the row is counted as skipped and nothing is added to the
    texts to embed or to the records. So in each of the three stages such
    a text is in no batch given to the embedder and no record carries it;
    every text that is embedded is within the ceiling and its record
    carries it whole. The text of a summary or a chunk is the stripped
    content, the text of a question list the joined clean questions, as
    the writer prepares them. *)
Theorem byte_ceiling_enforced {Vec : Type}
    (meta_map : gmap pystr Indexer.BaseMeta)
    (q_data : QLedger) (s_data : SLedger) (text : pystr) :
  Indexer.MAX_DOC_BYTES < utf8_len text →
  (∀ (acc : @Indexer.Built Vec) doc_id summary,
     strip summary = text →
     Indexer.build_summary meta_map acc (doc_id, summary) = Indexer.skip acc) ∧
  (∀ (acc : @Indexer.Built Vec) doc_id i ch,
     strip (Indexer.chunk_text ch) = text →
     Indexer.build_chunk meta_map doc_id acc (i, ch) = Indexer.skip acc) ∧
  (∀ (acc : @Indexer.Built Vec) doc_id questions,
     joined_questions questions = text →
     Indexer.build_question meta_map acc (doc_id, questions) = Indexer.skip acc) ∧
  ceiling_kept (@Indexer.build_questions Vec meta_map q_data) text ∧
  ceiling_kept (@Indexer.build_summaries Vec meta_map s_data) text ∧
  ceiling_kept (@Indexer.build_chunks Vec meta_map s_data) text.
Proof.
  intros Hbig. split; [|split; [|split; [|split; [|split]]]].
  - intros acc d summary <-. unfold Indexer.build_summary.
    case_bool_decide; [done|]. by rewrite bool_decide_eq_true_2.
  - intros acc d i ch <-. unfold Indexer.build_chunk.
    case_bool_decide; [done|]. by rewrite bool_decide_eq_true_2.
  - intros acc d qs <-. unfold Indexer.build_question, joined_questions, clean_questions in *.
    destruct (filter _ _); [done|]. by rewrite bool_decide_eq_true_2.
  - rewrite build_questions_spec.
    apply built_from_ceiling; [apply question_entry_faithful|done].
  - rewrite build_summaries_spec.
    apply built_from_ceiling; [apply summary_entry_faithful|done].
  - rewrite build_chunks_spec.
    apply built_from_ceiling; [apply chunk_entry_faithful|done].
Qed.

Lemma byte_ceiling_enforced_witness :
  Indexer.MAX_DOC_BYTES < utf8_len Demo.oversized ∧
  (∀ (acc : @Indexer.Built (list Z)) doc_id summary,
     strip summary = Demo.oversized →
     Indexer.build_summary Demo.i_meta acc (doc_id, summary) = Indexer.skip acc) ∧
  (∀ (acc : @Indexer.Built (list Z)) doc_id i ch,
     strip (Indexer.chunk_text ch) = Demo.oversized →
     Indexer.build_chunk Demo.i_meta doc_id acc (i, ch) = Indexer.skip acc) ∧
  (∀ (acc : @Indexer.Built (list Z)) doc_id questions,
     joined_questions questions = Demo.oversized →
     Indexer.build_question Demo.i_meta acc (doc_id, questions) = Indexer.skip acc) ∧
  ceiling_kept (@Indexer.build_questions (list Z) Demo.i_meta Demo.store_B) Demo.oversized ∧
  ceiling_kept (@Indexer.build_summaries (list Z) Demo.i_meta Demo.summaries) Demo.oversized ∧
  ceiling_kept (@Indexer.build_chunks (list Z) Demo.i_meta Demo.summaries) Demo.oversized.
Proof.
  assert (H : Indexer.MAX_DOC_BYTES < utf8_len Demo.oversized)
    by (vm_compute; reflexivity).
  split; [exact H|].
  exact (byte_ceiling_enforced Demo.i_meta Demo.store_B Demo.summaries Demo.oversized H).
Defined.

(** ** Embedding failures *)

(** C6 (as amended). The indexer does not catch the exception of the
    embedder. When the embedder raises on a batch, the stage ends there:
    the batches after it are not embedded and nothing of the stage is
    upserted, the collection is as it was, so no record goes to it with a
    missing vector. The exception ends the script too: the stages after
    the failed one do not run, the collections of the stages before it
    keep what they got. When a stage does upsert and the embedder hands
    back a vector per text, every record it upserts has its vector. *)
Theorem embedding_failure_aborts {Vec World : Type}
    (embed_documents : World → list pystr → World * option (list Vec))
    (w : World) (idx : gmap pystr (@Indexer.IndexRecord Vec))
    (b : @Indexer.Built Vec)
    (before : list (list (pystr * nat))) (batch : list (pystr * nat))
    (after : list (list (pystr * nat)))
    (w1 : World) (heap1 : list (@Indexer.IndexRecord Vec)) (w2 : World) :
  Indexer.batches_of b = before ++ batch :: after →
  Indexer.embed_loop embed_documents w (Indexer.records b) before = (w1, Some heap1) →
  embed_documents w1 batch.*1 = (w2, None) →
  Indexer.index_stage embed_documents w idx b = Indexer.Failed idx w2 ∧
  (∀ mm q_data s_data ix,
     b = Indexer.build_questions mm q_data → idx = Indexer.idx_questions ix →
     Indexer.main embed_documents mm q_data s_data ix w = Indexer.Raised ix w2) ∧
  (∀ mm q_data s_data ix w0 q n s,
     Indexer.index_stage embed_documents w0 (Indexer.idx_questions ix)
       (Indexer.build_questions mm q_data) = Indexer.Indexed q n s w →
     b = Indexer.build_summaries mm s_data → idx = Indexer.idx_summaries ix →
     Indexer.main embed_documents mm q_data s_data ix w0
     = Indexer.Raised
         (Indexer.mkIndexes q (Indexer.idx_summaries ix) (Indexer.idx_chunks ix)) w2) ∧
  (∀ mm q_data s_data ix w0 q n s w' c n' s',
     Indexer.index_stage embed_documents w0 (Indexer.idx_questions ix)
       (Indexer.build_questions mm q_data) = Indexer.Indexed q n s w' →
     Indexer.index_stage embed_documents w' (Indexer.idx_summaries ix)
       (Indexer.build_summaries mm s_data) = Indexer.Indexed c n' s' w →
     b = Indexer.build_chunks mm s_data → idx = Indexer.idx_chunks ix →
     Indexer.main embed_documents mm q_data s_data ix w0
     = Indexer.Raised (Indexer.mkIndexes q c (Indexer.idx_chunks ix)) w2) ∧
  (well_sized embed_documents →
   ∀ w idx (b : @Indexer.Built Vec) idx' n s w',
     paired b →
     Indexer.index_stage embed_documents w idx b = Indexer.Indexed idx' n s w' →
     ∀ k r, idx' !! k = Some r → idx !! k = Some r ∨ has_vector r).
Proof.
  intros Hb Hloop Hfail.
  pose proof (stage_raises embed_documents w idx b before batch after w1 heap1 w2
                Hb Hloop Hfail) as Hstage.
  split; [done|]. split; [|split; [|split]].
  - intros mm q_data s_data ix -> ->. unfold Indexer.main. by rewrite Hstage.
  - intros mm q_data s_data ix w0 q n s Hq -> ->. unfold Indexer.main.
    by rewrite Hq, Hstage.
  - intros mm q_data s_data ix w0 q n s w' c n' s' Hq Hs -> ->. unfold Indexer.main.
    by rewrite Hq, Hs, Hstage.
  - intros Hsized w3 idx3 b3 idx' n s w' Hp Hst.
    by eapply stage_vectors.
Qed.

Lemma embedding_failure_aborts_witness :
  (Indexer.batches_of Demo.built_B = [] ++ [(Demo.long_summary, 0%nat)] :: [] ∧
   Indexer.embed_loop Demo.failing_embed 0%nat (Indexer.records Demo.built_B) []
     = (0%nat, Some (Indexer.records Demo.built_B)) ∧
   Demo.failing_embed 0%nat [(Demo.long_summary, 0%nat)].*1 = (1%nat, None)) ∧
  Indexer.index_stage Demo.failing_embed 0%nat ∅ Demo.built_B
  = Indexer.Failed ∅ 1%nat.
Proof.
  set (b := Demo.built_B).
  assert (H1 : Indexer.batches_of b = [] ++ [(Demo.long_summary, 0%nat)] :: [])
    by (vm_compute; reflexivity).
  assert (H2 : Indexer.embed_loop Demo.failing_embed 0%nat (Indexer.records b) []
               = (0%nat, Some (Indexer.records b))) by reflexivity.
  assert (H3 : Demo.failing_embed 0%nat [(Demo.long_summary, 0%nat)].*1 = (1%nat, None))
    by reflexivity.
  split; [done|].
  exact (proj1 (embedding_failure_aborts Demo.failing_embed 0%nat ∅ b
                  [] [(Demo.long_summary, 0%nat)] [] 0%nat (Indexer.records b) 1%nat
                  H1 H2 H3)).
Defined.

(** C6, as stated, fails: with an embedder that raises, the script ends
    by the exception in its first stage; nothing is upserted in any
    collection, the summaries are never reached. *)
Lemma embedding_failure_is_fatal :
  Indexer.main Demo.failing_embed Demo.i_meta Demo.store_B Demo.summaries
    Demo.no_indexes 0%nat
  = Indexer.Raised Demo.no_indexes 1%nat ∧
  Indexer.texts (@Indexer.build_summaries (list Z) Demo.i_meta Demo.summaries)
  = [Demo.long_summary; Demo.long_summary].
Proof. split; vm_compute; reflexivity. Qed.

(** ** Running the pipeline again *)

Section again.
Context {World : Type}.
Variable llm_invoke : World → Questions.Prompt → World * option pystr.

(** A unit whose id is in the checkpoint is not selected. *)
Lemma not_selected (already : gset pystr) docs i d :
  docs !! i = Some d → d ∈ already →
  i ∉ (selected already (positioned docs)).*1.
Proof.
  intros Hi Hd (u & -> & Hu)%list_elem_of_fmap.
  apply list_elem_of_filter in Hu as [Hn Hu]. destruct u as [j d']. simpl in *.
  apply elem_of_positioned in Hu. by simplify_eq.
Qed.

Lemma questions_rerun answer sd mm (store : QLedger) file (w w' : World) :
  deterministic llm_invoke answer →
  let fin1 :=
    Questions.generate_all_questions llm_invoke sd mm
      (list_to_set (q_doc_id store))
      (Questions.mkQRun store file 0 0 0 w []) in
  let fin2 :=
    Questions.generate_all_questions llm_invoke sd mm
      (list_to_set (q_doc_id (Questions.questions_out fin1)))
      (Questions.mkQRun (Questions.questions_out fin1)
         (Questions.backup_file fin1) 0 0 0 w' []) in
  Questions.questions_out fin2 = Questions.questions_out fin1 ∧
  Questions.backup_file fin2 = Questions.backup_file fin1 ∧
  Questions.processed_count fin2 = 0 ∧
  appends (Questions.events fin2) = [] ∧
  ∀ i d, s_doc_id sd !! i = Some d →
         d ∈ q_doc_id (Questions.questions_out fin1) →
         (i ∉ attempts (Questions.events fin2)) ∧
         (i ∉ invokes (Questions.events fin2)).
Proof.
  intros Hdet fin1 fin2.
  set (l1 := Questions.questions_out fin1).
  set (already2 := list_to_set (q_doc_id l1) : gset pystr).
  set (st2 := Questions.mkQRun l1 (Questions.backup_file fin1) 0 0 0 w' []).
  set (end2 := foldl (Questions.loop_body llm_invoke sd mm already2) st2
                 (positioned (s_doc_id sd))).
  assert (Hfin2 : fin2 = Questions.dump end2) by reflexivity.
  assert (Hl1 : l1 = foldl (ledger_step answer sd mm (list_to_set (q_doc_id store)))
                       store (positioned (s_doc_id sd))).
  { unfold l1, fin1, Questions.generate_all_questions, Questions.run_loop.
    rewrite q_units_positioned. simpl.
    by rewrite (run_ledger_steps llm_invoke answer Hdet). }
  assert (Hsame : Questions.questions_out end2 = l1).
  { unfold end2. rewrite (run_ledger_steps llm_invoke answer Hdet). simpl.
    unfold already2. rewrite Hl1. apply rerun_ledger. }
  assert (Hout : Questions.questions_out fin2 = l1) by (by rewrite Hfin2).
  pose proof (run_loop_refines llm_invoke sd mm already2
                (positioned (s_doc_id sd)) st2) as Hsteps.
  apply unit_steps_resumed in Hsteps as (ok & called & Hres).
  fold end2 in Hres. rewrite <- (q_view_dump end2), <- Hfin2 in Hres.
  destruct Hres as [Hok Hcalled Hids _ Hatt Hinv Happ _ Hpr _].
  change (q_doc_id (Questions.questions_out fin2) = q_doc_id l1 ++ ok.*2) in Hids.
  change (attempts (Questions.events fin2)
          = [] ++ (selected already2 (positioned (s_doc_id sd))).*1) in Hatt.
  change (invokes (Questions.events fin2) = [] ++ called.*1) in Hinv.
  change (appends (Questions.events fin2) = [] ++ ok.*1) in Happ.
  change (Questions.processed_count fin2 = 0 + Z.of_nat (length ok)) in Hpr.
  assert (Hnil : ok = []).
  { rewrite Hout in Hids. apply (f_equal length) in Hids.
    rewrite length_app, length_fmap in Hids. destruct ok; [done|simpl in *; lia]. }
  subst ok. split; [done|]. split.
  { transitivity (Some l1).
    - rewrite Hfin2. destruct (q_dump_last end2) as [_ ->]. by rewrite <- Hfin2, Hout.
    - symmetry. apply q_dump_last. }
  split; [by rewrite Hpr|]. split; [done|].
  intros i d Hi Hd.
  assert (Hns : i ∉ (selected already2 (positioned (s_doc_id sd))).*1).
  { eapply not_selected; [done|]. by apply elem_of_list_to_set. }
  split.
  - by rewrite Hatt.
  - rewrite Hinv. intros Hin. apply Hns.
    eapply elem_of_sublist; [exact Hin|]. by apply fmap_sublist.
Qed.
End again.

Section index_again.
Context {Vec World : Type}.
Variable embed_documents : World → list pystr → World * option (list Vec).

Lemma main_again vectors mm q_data s_data ix w ix1 w1 w' :
  deterministic embed_documents vectors →
  Indexer.main embed_documents mm q_data s_data ix w = Indexer.Done ix1 w1 →
  ∃ w2, Indexer.main embed_documents mm q_data s_data ix1 w' = Indexer.Done ix1 w2.
Proof.
  intros Hdet. unfold Indexer.main.
  destruct (Indexer.index_stage embed_documents w _ _) as [q n s wa|] eqn:Hq; [|done].
  destruct (Indexer.index_stage embed_documents wa _ _) as [c n' s' wb|] eqn:Hs; [|done].
  destruct (Indexer.index_stage embed_documents wb _ _) as [k n'' s'' wc|] eqn:Hc; [|done].
  intros [= <- <-]. simpl.
  destruct (stage_again embed_documents vectors _ _ _ _ _ _ _ w' Hdet Hq) as [w3 ->].
  destruct (stage_again embed_documents vectors _ _ _ _ _ _ _ w3 Hdet Hs) as [w4 ->].
  destruct (stage_again embed_documents vectors _ _ _ _ _ _ _ w4 Hdet Hc) as [w5 ->].
  by exists w5.
Qed.
End index_again.

(** ** Record ids *)

Section record_ids.
Context {Vec : Type}.
Variable meta_map : gmap pystr Indexer.BaseMeta.

Abbreviation Rec3 := (@Indexer.IndexRecord Vec).

Lemma summary_id_inj d t d' t' :
  Indexer.id (@Indexer.summary_record Vec meta_map d t)
  = Indexer.id (@Indexer.summary_record Vec meta_map d' t') → d = d'.
Proof. simpl. by intros ?%app_inv_tail. Qed.

Lemma question_id_inj d c t d' c' t' :
  Indexer.id (@Indexer.question_record Vec meta_map d c t)
  = Indexer.id (@Indexer.question_record Vec meta_map d' c' t') → d = d'.
Proof. simpl. by intros ?%app_inv_tail. Qed.

Lemma zip_fst_sublist {A B : Type} (l : list A) (k : list B) :
  (zip l k).*1 `sublist_of` l.
Proof.
  revert k. induction l as [|x l IH]; intros [|y k]; simpl;
    try done; try apply sublist_nil_l.
  apply sublist_skip, IH.
Qed.

(** The ids of the records of a loop, among the ids of its rows. *)
Lemma entry_ids_sublist {X : Type} (entry : X → option (pystr * Rec3))
    (key : X → pystr) rows :
  (∀ row t r, entry row = Some (t, r) → Indexer.id r = key row) →
  Indexer.id <$> (omap entry rows).*2 `sublist_of` key <$> rows.
Proof.
  intros Hkey. induction rows as [|row rows IH]; simpl; [done|].
  destruct (entry row) as [[t r]|] eqn:He; simpl.
  - rewrite (Hkey row t r He). by apply sublist_skip.
  - by apply sublist_cons.
Qed.

Lemma summary_record_ids_NoDup s_data :
  NoDup (s_doc_id s_data) →
  NoDup (Indexer.id <$> Indexer.records (@Indexer.build_summaries Vec meta_map s_data)).
Proof.
  intros Hnd. rewrite build_summaries_spec. simpl.
  eapply sublist_NoDup;
    [|apply (entry_ids_sublist (summary_entry meta_map) (λ row, row.1 ++ py "::summary"))].
  - match goal with |- NoDup (_ <$> ?rows) =>
      replace ((λ row : pystr * _, row.1 ++ py "::summary") <$> rows)
        with ((λ d, d ++ py "::summary") <$> rows.*1)
        by (by rewrite <- list_fmap_compose)
    end.
    apply NoDup_fmap_2; [intros ? ? ?; by eapply app_inv_tail|].
    eapply sublist_NoDup; [exact Hnd | apply zip_fst_sublist].
  - intros [d s] t r. unfold summary_entry. simpl.
    case_bool_decide; [|done]. by intros [= <- <-].
Qed.

Lemma question_record_ids_NoDup q_data :
  NoDup (q_doc_id q_data) →
  NoDup (Indexer.id <$> Indexer.records (@Indexer.build_questions Vec meta_map q_data)).
Proof.
  intros Hnd. rewrite build_questions_spec. simpl.
  eapply sublist_NoDup;
    [|apply (entry_ids_sublist (question_entry meta_map) (λ row, row.1 ++ py "::questions"))].
  - match goal with |- NoDup (_ <$> ?rows) =>
      replace ((λ row : pystr * _, row.1 ++ py "::questions") <$> rows)
        with ((λ d, d ++ py "::questions") <$> rows.*1)
        by (by rewrite <- list_fmap_compose)
    end.
    apply NoDup_fmap_2; [intros ? ? ?; by eapply app_inv_tail|].
    eapply sublist_NoDup; [exact Hnd | apply zip_fst_sublist].
  - intros [d s] t r. unfold question_entry. simpl.
    case_bool_decide; [|done]. by intros [= <- <-].
Qed.
End record_ids.

(** ** The ids of chunk records *)

Lemma py_cons c s : py (String c s) = N_of_ascii c :: py s.
Proof. reflexivity. Qed.

Lemma py_inj s1 s2 : py s1 = py s2 → s1 = s2.
Proof.
  revert s2. induction s1 as [|c1 s1 IH]; intros [|c2 s2]; try done.
  rewrite !py_cons. intros [= Hc Hs].
  f_equal; [|by apply IH].
  by rewrite <- (ascii_N_embedding c1), <- (ascii_N_embedding c2), Hc.
Qed.

Lemma pretty_N_go_no_colon x s :
  58%N ∉ py s → 58%N ∉ py (pretty_N_go x s).
Proof.
  revert s. induction (N.lt_wf_0 x) as [x _ IH]; intros s Hs.
  assert (x = 0 ∨ 0 < x)%N as [->|Hx] by lia.
  - by rewrite pretty_N_go_0.
  - rewrite pretty_N_go_step by done. apply IH.
    { by apply N.div_lt. }
    rewrite py_cons. apply not_elem_of_cons. split; [|done].
    unfold pretty_N_char. by repeat case_match.
Qed.

Lemma str_nat_no_colon i : 58%N ∉ Indexer.str_nat i.
Proof.
  unfold Indexer.str_nat, pretty, pretty_nat, pretty, pretty_N.
  case_decide.
  - change (py "0") with [48%N]. intros Hin.
    apply elem_of_cons in Hin as [Hin|Hin]; [done|]. by apply elem_of_nil in Hin.
  - apply pretty_N_go_no_colon. apply not_elem_of_nil.
Qed.

Lemma str_nat_inj i j : Indexer.str_nat i = Indexer.str_nat j → i = j.
Proof. unfold Indexer.str_nat. intros H%py_inj. by apply (inj pretty). Qed.

(** A separator that does not occur after it splits a string in one way. *)
Lemma app_sep_inj (c : N) (l1 l2 s1 s2 : pystr) :
  c ∉ s1 → c ∉ s2 → l1 ++ c :: s1 = l2 ++ c :: s2 → l1 = l2 ∧ s1 = s2.
Proof.
  intros Hs1 Hs2. revert l2. induction l1 as [|x l1 IH]; intros [|y l2]; simpl.
  - by intros [= ->].
  - intros [= -> ->]. destruct Hs1. apply elem_of_app. right. left.
  - intros [= <- <-]. destruct Hs2. apply elem_of_app. right. left.
  - intros [= -> Heq]. destruct (IH l2 Heq) as [-> ->]. done.
Qed.

Section chunk_ids.
Context {Vec : Type}.
Variable meta_map : gmap pystr Indexer.BaseMeta.

Definition chunk_key (di : pystr * nat) : pystr :=
  di.1 ++ py "::chunk::" ++ Indexer.str_nat di.2.

Lemma chunk_key_inj di1 di2 : chunk_key di1 = chunk_key di2 → di1 = di2.
Proof.
  destruct di1 as [d1 i1], di2 as [d2 i2]. unfold chunk_key. cbn [fst snd].
  assert (Hr : ∀ d i, d ++ py "::chunk::" ++ Indexer.str_nat i
                      = (d ++ py "::chunk:") ++ 58%N :: Indexer.str_nat i)
    by (intros; by rewrite <- app_assoc).
  rewrite !Hr.
  intros [Hd Hi]%app_sep_inj; try apply str_nat_no_colon.
  apply app_inv_tail in Hd. apply str_nat_inj in Hi. by subst.
Qed.

Lemma chunk_id_inj d i t d' i' t' :
  Indexer.id (@Indexer.chunk_record Vec meta_map d i t)
  = Indexer.id (@Indexer.chunk_record Vec meta_map d' i' t') → d = d' ∧ i = i'.
Proof.
  intros H. apply (chunk_key_inj (d, i) (d', i')) in H. by simplify_eq.
Qed.

(** The artifact key of a chunk row: the document and the position. *)
Definition chunk_keys (rows : list (pystr * list Chunk)) : list (pystr * nat) :=
  rows ≫= λ row, (λ ich, (row.1, ich.1)) <$> imap (λ i ch, (i, ch)) row.2.

Lemma imap_positions {A : Type} (l : list A) :
  (imap (λ i x, (i, x)) l).*1 = seq 0 (length l).
Proof.
  apply list_eq. intros i.
  rewrite list_lookup_fmap, list_lookup_imap.
  destruct (l !! i) as [d|] eqn:Hd; simpl.
  - symmetry. apply lookup_seq. split; [done|]. by eapply lookup_lt_Some.
  - symmetry. apply lookup_seq_ge. by apply lookup_ge_None.
Qed.

Lemma chunk_keys_NoDup (ids : list pystr) (chunks : list (list Chunk)) :
  NoDup ids →
  NoDup (chunk_keys (zip ids chunks)) ∧
  ∀ di, di ∈ chunk_keys (zip ids chunks) → di.1 ∈ ids.
Proof.
  revert chunks. induction ids as [|d ids IH]; intros chunks Hnd.
  { split; [constructor|]. intros di H. by apply elem_of_nil in H. }
  destruct chunks as [|chs chunks].
  { split; [constructor|]. intros di H. by apply elem_of_nil in H. }
  apply NoDup_cons in Hnd as [Hd Hnd].
  destruct (IH chunks Hnd) as [IH1 IH2].
  unfold chunk_keys in *. simpl. split.
  - apply NoDup_app. split; [|split; [|done]].
    + match goal with |- NoDup (_ <$> ?l) =>
        replace ((λ ich : nat * Chunk, (d, ich.1)) <$> l)
          with ((λ i : nat, (d, i)) <$> l.*1)
          by (by rewrite <- list_fmap_compose)
      end.
      rewrite imap_positions.
      apply NoDup_fmap_2; [by intros ? ? [= ->]|apply NoDup_seq].
    + intros di (ich & -> & _)%list_elem_of_fmap Hin.
      apply IH2 in Hin. done.
  - intros di [Hin|Hin]%elem_of_app.
    + apply list_elem_of_fmap in Hin as (ich & -> & _). left.
    + right. by apply IH2.
Qed.

Lemma chunk_rows_keys (s_data : SLedger) :
  (λ row, (row.1, row.2.1)) <$> chunk_rows s_data
  = chunk_keys (zip (s_doc_id s_data) (s_chunks s_data)).
Proof.
  unfold chunk_rows, chunk_keys.
  generalize (zip (s_doc_id s_data) (s_chunks s_data)). intros rows.
  induction rows as [|row rows IH]; simpl; [done|].
  rewrite fmap_app. f_equal; [by rewrite <- list_fmap_compose | exact IH].
Qed.

Lemma chunk_record_ids_NoDup s_data :
  NoDup (s_doc_id s_data) →
  NoDup (Indexer.id <$> Indexer.records (@Indexer.build_chunks Vec meta_map s_data)).
Proof.
  intros Hnd. rewrite build_chunks_spec. simpl.
  eapply sublist_NoDup;
    [|apply (entry_ids_sublist (chunk_entry meta_map)
               (λ row, chunk_key (row.1, row.2.1)))].
  - match goal with |- NoDup (_ <$> ?rows) =>
      replace ((λ row : pystr * (nat * Chunk), chunk_key (row.1, row.2.1)) <$> rows)
        with (chunk_key <$> ((λ row : pystr * (nat * Chunk), (row.1, row.2.1)) <$> rows))
        by (by rewrite <- list_fmap_compose)
    end.
    apply NoDup_fmap_2; [intros ? ?; apply chunk_key_inj|].
    rewrite chunk_rows_keys. by apply chunk_keys_NoDup.
  - intros [d [i ch]] t r. unfold chunk_entry. simpl.
    case_bool_decide; [|done]. by intros [= <- <-].
Qed.
End chunk_ids.




(* ===================================================================== *)
(** * Further properties *)
(* ===================================================================== *)

(** ** Strings: stripping and lines *)

Section strip_facts.
Implicit Types (s : pystr) (p : N → bool).

Lemma lstrip_by_sublist p s : lstrip_by p s `sublist_of` s.
Proof.
  induction s as [|c s IH]; simpl; [done|].
  destruct (p c); [by apply sublist_cons | done].
Qed.

Lemma lstrip_by_head p s c rest : lstrip_by p s = c :: rest → p c = false.
Proof.
  destruct (lstrip_by_split p s) as (d & _ & _ & H). apply H.
Qed.

Lemma lstrip_by_keep p c (rest : pystr) : p c = false → lstrip_by p (c :: rest) = c :: rest.
Proof. intros H. simpl. by rewrite H. Qed.

Lemma lstrip_by_idem p s : lstrip_by p (lstrip_by p s) = lstrip_by p s.
Proof.
  destruct (lstrip_by p s) as [|c rest] eqn:E; [done|].
  apply lstrip_by_keep. by eapply lstrip_by_head.
Qed.

Lemma rstrip_by_idem p s : rstrip_by p (rstrip_by p s) = rstrip_by p s.
Proof.
  unfold rstrip_by. by rewrite reverse_involutive, lstrip_by_idem.
Qed.

(** [rstrip] drops a suffix whose code points satisfy [p]. *)
Lemma rstrip_by_split p s :
  ∃ dropped, s = rstrip_by p s ++ dropped ∧ Forall (λ c, p c = true) dropped.
Proof.
  unfold rstrip_by.
  destruct (lstrip_by_split p (reverse s)) as (d & Hs & Hd & _).
  exists (reverse d). split.
  - rewrite <- reverse_app, <- Hs. by rewrite reverse_involutive.
  - by apply Forall_reverse.
Qed.

Lemma rstrip_by_last p s c : last (rstrip_by p s) = Some c → p c = false.
Proof.
  unfold rstrip_by. rewrite last_reverse.
  destruct (lstrip_by p (reverse s)) as [|x rest] eqn:E; [done|].
  intros [= <-]. by eapply lstrip_by_head.
Qed.

Lemma rstrip_by_sublist p s : rstrip_by p s `sublist_of` s.
Proof.
  destruct (rstrip_by_split p s) as (d & Hs & _).
  rewrite Hs at 2. by apply sublist_inserts_r.
Qed.

(** [rstrip] keeps the head of a string that does not vanish. *)
Lemma rstrip_by_head p s c rest :
  rstrip_by p s = c :: rest → ∃ rest', s = c :: rest'.
Proof.
  intros E. destruct (rstrip_by_split p s) as (d & Hs & _).
  rewrite E in Hs. by exists (rest ++ d).
Qed.

Lemma strip_head s c rest : strip s = c :: rest → is_space c = false.
Proof.
  unfold strip. intros (rest' & E)%rstrip_by_head. by eapply lstrip_by_head.
Qed.

Lemma strip_last s c : last (strip s) = Some c → is_space c = false.
Proof. apply rstrip_by_last. Qed.

Lemma strip_idem s : strip (strip s) = strip s.
Proof.
  unfold strip at 1.
  destruct (strip s) as [|c rest] eqn:E; [done|].
  rewrite lstrip_by_keep by (by eapply strip_head).
  rewrite <- E. unfold strip. apply rstrip_by_idem.
Qed.

Lemma strip_sublist s : strip s `sublist_of` s.
Proof.
  unfold strip. etrans; [apply rstrip_by_sublist | apply lstrip_by_sublist].
Qed.

(** A string that starts and ends with other than whitespace is its own
    strip. *)
Lemma strip_fixed s :
  (∀ c rest, s = c :: rest → is_space c = false) →
  (∀ c, last s = Some c → is_space c = false) →
  strip s = s.
Proof.
  intros Hh Hl. unfold strip.
  assert (lstrip_by is_space s = s) as ->.
  { destruct s as [|c rest]; [done|]. apply lstrip_by_keep. by eapply Hh. }
  unfold rstrip_by.
  destruct (reverse s) as [|c rest] eqn:E.
  - apply (f_equal reverse) in E. rewrite reverse_involutive in E. by subst.
  - rewrite lstrip_by_keep; [by rewrite <- E, reverse_involutive|].
    apply Hl. rewrite <- (reverse_involutive s), E, last_reverse. done.
Qed.
End strip_facts.

(** A string without line boundary. *)
Definition one_line (s : pystr) : Prop :=
  Forall (λ c, is_linebreak c = false) s.

Section lines_facts.
Implicit Types (s cur : pystr).

Lemma one_line_sublist s t : s `sublist_of` t → one_line t → one_line s.
Proof.
  intros Hs Ht. apply Forall_forall. intros c Hc.
  unfold one_line in Ht. rewrite Forall_forall in Ht. apply Ht.
  by eapply elem_of_sublist.
Qed.

Lemma splitlines_from_cr cur x s :
  x ≠ 10%N →
  splitlines_from cur (13%N :: x :: s) = cur :: splitlines_from [] (x :: s).
Proof.
  intros Hx. cbn [splitlines_from N.eqb Pos.eqb].
  repeat (match goal with
          | |- context [match ?p with _ => _ end] => is_var p; destruct p
          end; try done).
Qed.

Lemma splitlines_from_crlf cur s :
  splitlines_from cur (13%N :: 10%N :: s) = cur :: splitlines_from [] s.
Proof. reflexivity. Qed.

Lemma splitlines_from_one_line_aux s :
  (∀ cur, one_line cur → Forall one_line (splitlines_from cur s)) ∧
  (∀ c cur, one_line cur → Forall one_line (splitlines_from cur (c :: s))).
Proof.
  induction s as [|x s [IH1 IH2]].
  - split.
    + intros cur Hcur. simpl. destruct cur; constructor; [done|constructor].
    + intros c cur Hcur. simpl.
      destruct (c =? 13)%N; [|destruct (is_linebreak c) eqn:Hlb]; simpl.
      * constructor; [done|constructor].
      * constructor; [done|constructor].
      * destruct (cur ++ [c]) eqn:E; constructor; [|constructor].
        rewrite <- E. apply Forall_app. split; [done|]. by constructor.
  - split; [apply IH2|].
    intros c cur Hcur.
    destruct (decide (c = 13%N)) as [->|Hc].
    + destruct (decide (x = 10%N)) as [->|Hx].
      * rewrite splitlines_from_crlf. constructor; [done|]. apply IH1. constructor.
      * rewrite splitlines_from_cr by done. constructor; [done|].
        apply IH2. constructor.
    + cbn [splitlines_from]. apply N.eqb_neq in Hc. rewrite Hc.
      destruct (is_linebreak c) eqn:Hlb.
      * constructor; [done|]. apply IH2. constructor.
      * apply IH2. apply Forall_app. split; [done|]. by constructor.
Qed.

Lemma splitlines_from_one_line cur s :
  one_line cur → Forall one_line (splitlines_from cur s).
Proof. apply splitlines_from_one_line_aux. Qed.

Lemma splitlines_one_line s : Forall one_line (splitlines s).
Proof. apply splitlines_from_one_line. constructor. Qed.

Lemma splitlines_from_app cur l s :
  one_line l → splitlines_from cur (l ++ s) = splitlines_from (cur ++ l) s.
Proof.
  revert cur. induction l as [|c l IH]; intros cur Hl; simpl.
  - by rewrite app_nil_r.
  - apply Forall_cons in Hl as [Hc Hl].
    assert ((c =? 13)%N = false) as ->.
    { apply N.eqb_neq. intros ->. done. }
    rewrite Hc, IH by done. by rewrite <- app_assoc.
Qed.

Lemma splitlines_from_nl cur s :
  splitlines_from cur (10%N :: s) = cur :: splitlines_from [] s.
Proof. reflexivity. Qed.

(** Lines joined with a line feed split back into the lines, when no
    line holds a line boundary and the last one is not empty. *)
Lemma splitlines_join (lines : list pystr) :
  Forall one_line lines → last lines ≠ Some [] →
  splitlines (join [10%N] lines) = lines.
Proof.
  unfold splitlines. induction lines as [|l lines IH]; intros Hall Hlast; [done|].
  apply Forall_cons in Hall as [Hl Hall].
  destruct lines as [|l' lines].
  - simpl. rewrite <- (app_nil_r l) at 1. rewrite splitlines_from_app by done.
    simpl. destruct l; [by destruct Hlast|done].
  - change (join [10%N] (l :: l' :: lines))
      with (l ++ 10%N :: join [10%N] (l' :: lines)).
    rewrite splitlines_from_app by done. simpl app.
    rewrite splitlines_from_nl. f_equal. by apply IH.
Qed.
End lines_facts.

(** ** Strings: UTF-8 length *)

Lemma utf8_len_app (s t : pystr) : utf8_len (s ++ t) = utf8_len s + utf8_len t.
Proof.
  unfold utf8_len. induction s as [|c s IH]; simpl; [done|]. rewrite IH. lia.
Qed.

Lemma utf8_width_bounds (c : N) : 1 ≤ utf8_width c ≤ 4.
Proof. unfold utf8_width. repeat case_match; lia. Qed.

Lemma utf8_len_bounds (s : pystr) : len s ≤ utf8_len s ≤ 4 * len s.
Proof.
  unfold utf8_len, len. induction s as [|c s IH]; simpl length; simpl foldr; [lia|].
  pose proof (utf8_width_bounds c). lia.
Qed.

(** ** What the question generator returns *)

Section fromkeys_facts.
Implicit Types (seen qs : list pystr).

Lemma elem_of_fromkeys_from seen qs q :
  q ∈ Questions.fromkeys_from seen qs ↔ q ∈ qs ∧ q ∉ seen.
Proof.
  revert seen. induction qs as [|x qs IH]; intros seen; simpl.
  - rewrite elem_of_nil. naive_solver.
  - case_bool_decide as Hx.
    + rewrite IH, elem_of_cons. naive_solver.
    + rewrite elem_of_cons, IH, !elem_of_cons. 
      destruct (decide (q = x)) as [->|Hne]; naive_solver.
Qed.

Lemma fromkeys_from_NoDup seen qs : NoDup (Questions.fromkeys_from seen qs).
Proof.
  revert seen. induction qs as [|x qs IH]; intros seen; simpl; [constructor|].
  case_bool_decide; [apply IH|].
  constructor; [|apply IH].
  rewrite elem_of_fromkeys_from, elem_of_cons. naive_solver.
Qed.

Lemma fromkeys_from_sublist seen qs : Questions.fromkeys_from seen qs `sublist_of` qs.
Proof.
  revert seen. induction qs as [|x qs IH]; intros seen; simpl; [done|].
  case_bool_decide; [apply sublist_cons, IH | apply sublist_skip, IH].
Qed.
End fromkeys_facts.

Lemma slice_to_sublist {A : Type} (xs : list A) (n : Z) : slice_to xs n `sublist_of` xs.
Proof. unfold slice_to. case_match; apply sublist_take. Qed.

Lemma slice_to_length {A : Type} (xs : list A) (n : Z) :
  0 ≤ n → Z.of_nat (length (slice_to xs n)) ≤ n.
Proof.
  intros Hn. unfold slice_to. rewrite (proj2 (Z.leb_le 0 n)) by done.
  rewrite length_take. lia.
Qed.

(** A stored question: more than 10 characters, no whitespace around it,
    on one line. *)
Definition question_ok (q : pystr) : Prop :=
  10 < len q ∧ strip q = q ∧ one_line q.

Lemma clean_line_sublist (q : pystr) : Questions.clean_line q `sublist_of` q.
Proof.
  unfold Questions.clean_line, lstrip.
  etrans; [apply strip_sublist|]. etrans; [apply lstrip_by_sublist|].
  apply strip_sublist.
Qed.

Lemma clean_line_stripped (q : pystr) :
  strip (Questions.clean_line q) = Questions.clean_line q.
Proof. unfold Questions.clean_line. apply strip_idem. Qed.

Lemma Forall_sublist {A : Type} (P : A → Prop) (l k : list A) :
  l `sublist_of` k → Forall P k → Forall P l.
Proof.
  intros Hs Hk. apply Forall_forall. intros x Hx.
  rewrite Forall_forall in Hk. apply Hk. by eapply elem_of_sublist.
Qed.

(** The normalisation of raw lines. *)
Lemma normalize_lines_ok (raw_lines : list pystr) (n : Z) :
  Forall one_line raw_lines →
  Questions.normalize_lines raw_lines n `sublist_of` Questions.clean_line <$> raw_lines ∧
  NoDup (Questions.normalize_lines raw_lines n) ∧
  Forall question_ok (Questions.normalize_lines raw_lines n) ∧
  (0 ≤ n → Z.of_nat (length (Questions.normalize_lines raw_lines n)) ≤ n).
Proof.
  intros Hraw. unfold Questions.normalize_lines.
  set (cleaned := Questions.clean_line <$> filter (λ q, strip q ≠ []) raw_lines).
  set (long := filter (λ q, 10 < len q) cleaned).
  assert (Hsub : slice_to (Questions.fromkeys long) n `sublist_of` cleaned).
  { etrans; [apply slice_to_sublist|]. etrans; [apply fromkeys_from_sublist|].
    apply sublist_filter. }
  assert (Hlong : slice_to (Questions.fromkeys long) n `sublist_of` long).
  { etrans; [apply slice_to_sublist|]. apply fromkeys_from_sublist. }
  split; [|split; [|split]].
  - etrans; [exact Hsub|]. apply fmap_sublist, sublist_filter.
  - eapply sublist_NoDup; [apply fromkeys_from_NoDup | apply slice_to_sublist].
  - apply Forall_forall. intros q Hq.
    assert (Hq1 : q ∈ long) by (by eapply elem_of_sublist).
    apply list_elem_of_filter in Hq1 as [Hlen Hq1].
    apply list_elem_of_fmap in Hq1 as (r & -> & Hr).
    apply list_elem_of_filter in Hr as [_ Hr].
    split; [done|]. split; [apply clean_line_stripped|].
    eapply one_line_sublist; [apply clean_line_sublist|].
    rewrite Forall_forall in Hraw. by apply Hraw.
  - apply slice_to_length.
Qed.

Lemma generate_questions_ok {World : Type}
    (llm_invoke : World → Questions.Prompt → World * option pystr)
    (w : World) (summary file_name year : pystr) (n : Z) :
  let qs := (Questions.generate_questions_from_summary llm_invoke w summary
               file_name year n).2 in
  NoDup qs ∧ Forall question_ok qs ∧ (0 ≤ n → Z.of_nat (length qs) ≤ n).
Proof.
  unfold Questions.generate_questions_from_summary.
  destruct (llm_invoke w _) as [w' [content|]]; simpl.
  - destruct (normalize_lines_ok (splitlines content) n (splitlines_one_line content))
      as (_ & ? & ? & ?). done.
  - split; [constructor|]. split; [constructor|]. simpl. lia.
Qed.

(** X1. Whatever the text generator answers, the list returned by
    [generate_questions_from_summary] for a bound [n ≥ 0] has no
    duplicate and at most [n] questions; every question has more than 10
    characters, no whitespace at either end and no line boundary inside.
    When the generator answers, the list is a sublist, in order, of the
    cleaned lines of the answer; when it raises, the list is empty. *)
Theorem generated_questions_shape {World : Type}
    (llm_invoke : World → Questions.Prompt → World * option pystr)
    (w : World) (summary file_name year : pystr) (n : Z) :
  0 ≤ n →
  let context :=
    if bool_decide (file_name ≠ [] ∧ year ≠ []) then Some (file_name, year) else None in
  let qs := (Questions.generate_questions_from_summary llm_invoke w summary
               file_name year n).2 in
  NoDup qs ∧ Z.of_nat (length qs) ≤ n ∧ Forall question_ok qs ∧
  match (llm_invoke w (Questions.mkPrompt context n summary)).2 with
  | Some content => qs `sublist_of` Questions.clean_line <$> splitlines content
  | None => qs = []
  end.
Proof.
  intros Hn context qs.
  destruct (generate_questions_ok llm_invoke w summary file_name year n)
    as (H1 & H2 & H3).
  split; [done|]. split; [by apply H3|]. split; [done|].
  subst qs context. unfold Questions.generate_questions_from_summary.
  destruct (llm_invoke w _) as [w' [content|]]; simpl; [|done].
  apply normalize_lines_ok, splitlines_one_line.
Qed.

Lemma generated_questions_shape_witness :
  0 ≤ 10 ∧
  NoDup (Questions.generate_questions_from_summary Demo.steady_llm 0%nat
           Demo.long_summary (py "b.docx") (py "2024") 10).2 ∧
  Z.of_nat (length (Questions.generate_questions_from_summary Demo.steady_llm 0%nat
                      Demo.long_summary (py "b.docx") (py "2024") 10).2) ≤ 10.
Proof.
  assert (H : 0 ≤ 10) by lia.
  split; [exact H|].
  destruct (generated_questions_shape Demo.steady_llm 0%nat Demo.long_summary
              (py "b.docx") (py "2024") 10 H) as (H1 & H2 & _).
  split; [exact H1 | exact H2].
Defined.

(** ** What the question driver stores, counts and saves *)

(** An entry of the questions ledger as the driver appends it. *)
Definition entry_ok (qs : list pystr) : Prop :=
  qs ≠ [] ∧ NoDup qs ∧ (length qs ≤ 10)%nat ∧ Forall question_ok qs.

(** The ledger [l] is the ledger [disk] followed by [k] entries. *)
Definition q_ahead (disk l : QLedger) (k : nat) : Prop :=
  ∃ ids qss, length ids = k ∧ length qss = k ∧
    l = mkQLedger (q_doc_id disk ++ ids) (q_questions disk ++ qss).

Lemma q_ahead_refl l : q_ahead l l 0.
Proof. exists [], []. rewrite !app_nil_r. by destruct l. Qed.

Lemma q_ahead_push disk l k d qs :
  q_ahead disk l k → q_ahead disk (q_push d qs l) (S k).
Proof.
  intros (ids & qss & H1 & H2 & ->). exists (ids ++ [d]), (qss ++ [qs]).
  rewrite !length_app. simpl. unfold q_push. simpl.
  rewrite <- !(assoc_L (++)). split; [lia|]. split; [lia|done].
Qed.

Section questions_run.
Context {World : Type}.
Variable llm_invoke : World → Questions.Prompt → World * option pystr.
Variable summaries_data : SLedger.
Variable meta_map : gmap pystr (pystr * pystr).
Variable already : gset pystr.

Abbreviation QRun := (@Questions.QRun World).
Abbreviation loop_body :=
  (Questions.loop_body llm_invoke summaries_data meta_map already).
Abbreviation try_unit := (Questions.try_unit llm_invoke summaries_data meta_map).

(** The content of the backup file; an absent file reads as the empty
    ledger. *)
Definition q_on_disk (st : QRun) : QLedger :=
  default q_empty (Questions.backup_file st).

Lemma try_unit_entry i d (st : QRun) :
  (∃ qs w',
      entry_ok qs ∧
      try_unit i d st
      = Questions.log (EvAppend i)
          (Questions.store d qs
             (Questions.set_world w' (Questions.log (EvInvoke i) st)))) ∨
  (∃ w',
      try_unit i d st
      = Questions.count_failed
          (Questions.set_world w' (Questions.log (EvInvoke i) st))) ∨
  try_unit i d st = Questions.count_failed st.
Proof.
  unfold Questions.try_unit.
  destruct (s_summary summaries_data !! i) as [summary|]; [|by right; right].
  destruct (meta_map !! d) as [[nm yr]|].
  all: case_bool_decide; [|by right; right].
  all: match goal with
       | |- context [Questions.generate_questions_from_summary ?f ?w ?s ?a ?b ?n] =>
           pose proof (generate_questions_ok f w s a b n) as Hok;
           destruct (Questions.generate_questions_from_summary f w s a b n)
             as [w' qs]
       end.
  all: simpl in Hok; destruct Hok as (Hnd & Hall & Hlen).
  all: destruct qs as [|q qs]; [right; left; by exists w'|].
  all: left; exists (q :: qs), w'; split; [|done].
  all: split; [done|]; split; [done|]; split; [|done].
  all: specialize (Hlen ltac:(lia)); lia.
Qed.

(** One iteration, on the variables of the program. *)
Definition q_same (st st' : QRun) : Prop :=
  Questions.questions_out st' = Questions.questions_out st ∧
  Questions.processed_count st' = Questions.processed_count st.

Definition q_saved (st st' : QRun) : Prop :=
  Questions.backup_file st'
  = if bool_decide (0 < Questions.processed_count st' ∧
                    Questions.processed_count st' `mod` Questions.backup_every = 0)
    then Some (Questions.questions_out st')
    else Questions.backup_file st.

Lemma q_body_cases (st : QRun) i d :
  let st' := loop_body st (i, d) in
  (d ∈ already ∧ q_same st st' ∧
   Questions.backup_file st' = Questions.backup_file st ∧
   Questions.failed_count st' = Questions.failed_count st ∧
   Questions.skipped_count st' = Questions.skipped_count st + 1) ∨
  ((d ∉ already) ∧ q_saved st st' ∧
   Questions.skipped_count st' = Questions.skipped_count st ∧
   ((∃ qs, entry_ok qs ∧
       Questions.questions_out st' = q_push d qs (Questions.questions_out st) ∧
       Questions.processed_count st' = Questions.processed_count st + 1 ∧
       Questions.failed_count st' = Questions.failed_count st) ∨
    (q_same st st' ∧
     Questions.failed_count st' = Questions.failed_count st + 1))).
Proof.
  intros st'. subst st'. unfold Questions.loop_body.
  case_bool_decide as Hin; [left; by repeat split|].
  right. split; [done|].
  destruct (try_unit_entry i d (Questions.log (EvAttempt i) st))
    as [(qs & w' & Hqs & ->)|[(w' & ->)| ->]].
  all: unfold q_saved, q_same; simpl.
  all: case_bool_decide; simpl.
  all: rewrite ?bool_decide_eq_true_2 by done.
  all: rewrite ?bool_decide_eq_false_2 by done.
  all: split; [done|]; split; [done|].
  1,2: left; exists qs; split; [done|]; by split.
  all: right; by repeat split.
Qed.

(** The three counters over a work list. *)
Lemma q_run_counters us (st : QRun) :
  let st' := foldl loop_body st us in
  Questions.processed_count st' + Questions.failed_count st'
    + Questions.skipped_count st'
  = Questions.processed_count st + Questions.failed_count st
    + Questions.skipped_count st + Z.of_nat (length us) ∧
  Z.of_nat (length (q_doc_id (Questions.questions_out st')))
  = Z.of_nat (length (q_doc_id (Questions.questions_out st)))
    + (Questions.processed_count st' - Questions.processed_count st) ∧
  Questions.processed_count st ≤ Questions.processed_count st' ∧
  Questions.failed_count st ≤ Questions.failed_count st' ∧
  Questions.skipped_count st ≤ Questions.skipped_count st'.
Proof.
  revert st. induction us as [|[i d] us IH]; intros st; [simpl; lia|].
  cbn [foldl length].
  destruct (IH (loop_body st (i, d))) as (H1 & H2 & H3 & H4 & H5).
  cbn zeta in H1, H2, H3, H4, H5. rewrite H1, H2.
  destruct (q_body_cases st i d)
    as [(_ & [E1 E2] & _ & E3 & E4)
       |(_ & _ & E4 & [(qs & _ & E1 & E2 & E3)|([E1 E2] & E3)])].
  all: simpl in *; rewrite ?E1 in *; rewrite ?E2 in *; rewrite ?E3, ?E4 in *.
  all: unfold q_push; simpl; rewrite ?length_app; simpl; lia.
Qed.

(** The entries a run appends. *)
Lemma q_run_entries us (st : QRun) :
  ∃ ids new,
    Questions.questions_out (foldl loop_body st us)
    = mkQLedger (q_doc_id (Questions.questions_out st) ++ ids)
        (q_questions (Questions.questions_out st) ++ new) ∧
    length ids = length new ∧ ids `sublist_of` us.*2 ∧ Forall entry_ok new ∧
    Forall (λ d, d ∉ already) ids.
Proof.
  revert st. induction us as [|[i d] us IH]; intros st; cbn [foldl].
  { exists [], []. rewrite !app_nil_r. by destruct (Questions.questions_out st). }
  destruct (IH (loop_body st (i, d))) as (ids & new & -> & Hlen & Hsub & Hok & Hnot).
  destruct (q_body_cases st i d)
    as [(_ & [E1 E2] & _)
       |(Hd & _ & _ & [(qs & Hqs & E1 & _)|([E1 E2] & _)])].
  all: simpl in *; rewrite E1.
  - exists ids, new. repeat split; try done. by apply sublist_cons.
  - exists (d :: ids), (qs :: new). unfold q_push. simpl.
    rewrite <- !(assoc_L (++)). simpl.
    repeat split; try done; [lia|by apply sublist_skip|by constructor|by constructor].
  - exists ids, new. repeat split; try done. by apply sublist_cons.
Qed.

(** What is not on disk yet. *)
Definition q_lag (st : QRun) : Prop :=
  0 ≤ Questions.processed_count st ∧
  q_ahead (q_on_disk st) (Questions.questions_out st)
    (Z.to_nat (Questions.processed_count st `mod` Questions.backup_every)).

Lemma q_body_lag (st : QRun) u : q_lag st → q_lag (loop_body st u).
Proof.
  destruct u as [i d]. intros [Hp Hahead]. unfold q_lag, q_on_disk in *.
  pose proof (q_body_cases st i d) as Hcases. cbn zeta in Hcases.
  set (st' := loop_body st (i, d)) in *.
  destruct Hcases
    as [(_ & [E1 E2] & E0 & _)
       |(_ & E0 & _ & [(qs & _ & E1 & E2 & _)|([E1 E2] & _)])].
  all: unfold q_saved in *; rewrite E0, E1, E2; clear E0.
  - done.
  - split; [lia|]. case_bool_decide as Hc; simpl.
    + destruct Hc as [_ ->]. apply q_ahead_refl.
    + replace (Z.to_nat ((Questions.processed_count st + 1)
                         `mod` Questions.backup_every))
        with (S (Z.to_nat (Questions.processed_count st
                           `mod` Questions.backup_every))).
      { by apply q_ahead_push. }
      unfold Questions.backup_every in *.
      assert ((Questions.processed_count st + 1) `mod` 20 ≠ 0)
        by (intros ?; apply Hc; lia).
      Z.div_mod_to_equations. lia.
  - split; [done|]. case_bool_decide as Hc; simpl; [|done].
    destruct Hc as [_ ->]. apply q_ahead_refl.
Qed.

Lemma q_run_lag us (st : QRun) : q_lag st → q_lag (foldl loop_body st us).
Proof.
  revert st. induction us as [|u us IH]; intros st Hst; cbn [foldl]; [done|].
  by apply IH, q_body_lag.
Qed.
End questions_run.

Section questions_extras.
Context {World : Type}.
Variable llm_invoke : World → Questions.Prompt → World * option pystr.
Variable summaries_data : SLedger.
Variable meta_map : gmap pystr (pystr * pystr).

(** X2. Whatever the text generator answers and whatever the ledger
    loaded at start holds, [generate_all_questions] leaves the loaded
    entries in place and appends, for ids of the summaries data that are
    not in the checkpoint and in the order of the summaries data,
    entries that are never empty: each has between 1 and 10 questions,
    no duplicate, and every question has more than 10 characters, no
    whitespace around it and no line boundary inside. *)
Theorem stored_questions_well_formed (already : gset pystr)
    (st : @Questions.QRun World) :
  ∃ ids new,
    Questions.questions_out
      (Questions.generate_all_questions llm_invoke summaries_data meta_map
         already st)
    = mkQLedger (q_doc_id (Questions.questions_out st) ++ ids)
        (q_questions (Questions.questions_out st) ++ new) ∧
    length ids = length new ∧
    ids `sublist_of` s_doc_id summaries_data ∧
    Forall (λ d, d ∉ already) ids ∧
    Forall entry_ok new.
Proof.
  unfold Questions.generate_all_questions, Questions.run_loop.
  destruct (q_run_entries llm_invoke summaries_data meta_map already
              (Questions.units summaries_data) st)
    as (ids & new & Hout & Hlen & Hsub & Hok & Hnot).
  exists ids, new. split; [exact Hout|]. split; [done|]. split; [|done].
  rewrite q_units_positioned, positioned_snd in Hsub. done.
Qed.


(** X4. Started as the script starts it (ledger and backup file loaded
    from the same file, or both empty), the question driver has, after
    any number of iterations of its loop, exactly
    [processed_count mod 20] entries in the ledger that are not in the
    backup file yet, and the rest of the ledger is the backup file: an
    interruption between two iterations loses at most 19 entries. *)
Theorem questions_unsaved_entries (f : option Questions.QBackup) (w : World)
    (k : nat) :
  let already : gset pystr :=
    list_to_set (q_doc_id (Questions.load_questions f)) in
  let st :=
    foldl (Questions.loop_body llm_invoke summaries_data meta_map already)
      (Questions.mkQRun (Questions.load_questions f) (Questions.as_file f)
         0 0 0 w [])
      (take k (Questions.units summaries_data)) in
  ∃ n : nat,
    Z.of_nat n = Questions.processed_count st `mod` Questions.backup_every ∧
    (n < 20)%nat ∧
    q_ahead (default q_empty (Questions.backup_file st))
      (Questions.questions_out st) n.
Proof.
  intros already st.
  assert (Hlag : q_lag st).
  { apply q_run_lag. split; [simpl; lia|].
    unfold q_on_disk. simpl.
    replace (default q_empty (Questions.as_file f))
      with (Questions.load_questions f) by (by destruct f).
    apply q_ahead_refl. }
  destruct Hlag as [Hp Hahead]. unfold q_on_disk in Hahead.
  exists (Z.to_nat (Questions.processed_count st `mod` Questions.backup_every)).
  split; [|split; [|done]].
  all: unfold Questions.backup_every; Z.div_mod_to_equations; lia.
Qed.
End questions_extras.

(** ** What the summary driver stores, counts and saves *)

(** The ledger [l] is the ledger [disk] followed by [k] entries. *)
Definition s_ahead (disk l : SLedger) (k : nat) : Prop :=
  ∃ ids ss cs, length ids = k ∧ length ss = k ∧ length cs = k ∧
    l = mkSLedger (s_doc_id disk ++ ids) (s_summary disk ++ ss)
          (s_chunks disk ++ cs).

Lemma s_ahead_refl l : s_ahead l l 0.
Proof. exists [], [], []. rewrite !app_nil_r. by destruct l. Qed.

Lemma s_ahead_push disk l k d s c :
  s_ahead disk l k → s_ahead disk (s_push d s c l) (S k).
Proof.
  intros (ids & ss & cs & H1 & H2 & H3 & ->).
  exists (ids ++ [d]), (ss ++ [s]), (cs ++ [c]).
  rewrite !length_app. simpl. unfold s_push. simpl.
  rewrite <- !(assoc_L (++)). repeat split; lia.
Qed.

Section summaries_run.
Context {World : Type}.
Variable process_docx_file process_excel_file :
  World → pystr → pystr → pystr → World * option (Summaries.Generated * list Chunk).
Variable meta_map : gmap pystr Summaries.FileMeta.
Variable already : gset pystr.

Abbreviation SRun := (@Summaries.SRun World).
Abbreviation s_body :=
  (Summaries.loop_body process_docx_file process_excel_file meta_map already).
Abbreviation s_loop :=
  (Summaries.run_loop process_docx_file process_excel_file meta_map already).

(** The content of the backup file; an absent file reads as the empty
    ledger. *)
Definition s_on_disk (st : SRun) : SLedger :=
  default s_empty (Summaries.backup_file st).

Definition s_saved (st st' : SRun) : Prop :=
  Summaries.backup_file st'
  = if bool_decide (0 < Summaries.processed_count st' ∧
                    Summaries.processed_count st' `mod` Summaries.backup_every = 0)
    then Some (Summaries.out st')
    else Summaries.backup_file st.

(** One iteration, on the variables of the program. *)
Lemma s_body_cases (st : SRun) i fid :
  let r := s_body st (i, fid) in
  let st' := state_of r in
  (fid ∈ already ∧
   r = (if bool_decide (is_Some (meta_map !! fid))
        then Summaries.Ok st' else Summaries.Raise st') ∧
   Summaries.out st' = Summaries.out st ∧
   Summaries.backup_file st' = Summaries.backup_file st ∧
   Summaries.failed_ids st' = Summaries.failed_ids st ∧
   Summaries.processed_count st' = Summaries.processed_count st ∧
   Summaries.skipped_count st' = Summaries.skipped_count st + 1) ∨
  ((fid ∉ already) ∧ r = Summaries.Ok st' ∧
   Summaries.skipped_count st' = Summaries.skipped_count st ∧
   ((∃ s c,
       Summaries.out st' = s_push fid s c (Summaries.out st) ∧
       Summaries.processed_count st' = Summaries.processed_count st + 1 ∧
       Summaries.failed_ids st' = Summaries.failed_ids st ∧
       s_saved st st') ∨
    (Summaries.out st' = Summaries.out st ∧
     Summaries.processed_count st' = Summaries.processed_count st ∧
     Summaries.failed_ids st' = Summaries.failed_ids st ++ [fid] ∧
     Summaries.backup_file st' = Summaries.backup_file st))).
Proof.
  intros r st'. subst r st'. unfold Summaries.loop_body.
  case_bool_decide as Hin.
  { left. split; [done|].
    destruct (meta_map !! fid) as [m|] eqn:Hm.
    - rewrite bool_decide_eq_true_2 by eauto. by repeat split.
    - rewrite bool_decide_eq_false_2 by (by intros [? ?]). by repeat split. }
  right. split; [done|].
  destruct (meta_map !! fid) as [m|]; [|split; [done|]; split; [done|]; by right].
  repeat case_bool_decide.
  3:{ split; [done|]. split; [done|]. by right. }
  all: match goal with
       | |- context [match ?p ?w ?a ?b ?c with _ => _ end] =>
           destruct (p w a b c) as [w' [[summary chunks]|]]
       end; cbn [state_of].
  all: split; [done|].
  2,4: split; [done|]; by right.
  all: unfold s_saved, Summaries.periodic_backup.
  all: case_bool_decide as Hc; simpl; (split; [done|]); left.
  all: exists (Summaries._as_text summary), chunks.
  all: split; [done|]; split; [done|]; split; [done|].
  all: simpl in Hc.
  all: by rewrite ?bool_decide_eq_true_2, ?bool_decide_eq_false_2 by done.
Qed.

(** What is not on disk yet. *)
Definition s_lag (st : SRun) : Prop :=
  0 ≤ Summaries.processed_count st ∧
  s_ahead (s_on_disk st) (Summaries.out st)
    (Z.to_nat (Summaries.processed_count st `mod` Summaries.backup_every)).

Lemma s_body_lag (st : SRun) u : s_lag st → s_lag (state_of (s_body st u)).
Proof.
  destruct u as [i d]. intros [Hp Hahead]. unfold s_lag, s_on_disk in *.
  pose proof (s_body_cases st i d) as Hcases. cbn zeta in Hcases.
  set (st' := state_of (s_body st (i, d))) in *.
  destruct Hcases
    as [(_ & _ & E1 & E0 & _ & E2 & _)
       |(_ & _ & _ & [(s & c & E1 & E2 & _ & E0)|(E1 & E2 & _ & E0)])].
  all: unfold s_saved in *; rewrite E0, E1, E2; clear E0.
  - done.
  - split; [lia|]. case_bool_decide as Hc; simpl.
    + destruct Hc as [_ ->]. apply s_ahead_refl.
    + replace (Z.to_nat ((Summaries.processed_count st + 1)
                         `mod` Summaries.backup_every))
        with (S (Z.to_nat (Summaries.processed_count st
                           `mod` Summaries.backup_every))).
      { by apply s_ahead_push. }
      unfold Summaries.backup_every in *.
      assert ((Summaries.processed_count st + 1) `mod` 10 ≠ 0)
        by (intros ?; apply Hc; lia).
      Z.div_mod_to_equations. lia.
  - done.
Qed.

Lemma s_loop_lag us (st : SRun) : s_lag st → s_lag (state_of (s_loop us st)).
Proof.
  revert st. induction us as [|u us IH]; intros st Hst;
    cbn [Summaries.run_loop]; [done|].
  pose proof (s_body_lag st u Hst) as H1.
  destruct (s_body st u) as [st1|st1]; cbn [state_of] in *; [by apply IH|done].
Qed.

(** The files of a work list that are not in the checkpoint. *)
Definition remaining (fids : list pystr) : list pystr :=
  filter (λ d, d ∉ already) fids.

(** A run that ends normally: the new ledger ids [ids] and the new
    failed ids [fl] split the remaining files. *)
Lemma s_loop_accounts us (st st' : SRun) :
  s_loop us st = Summaries.Ok st' →
  ∃ ids fl,
    s_doc_id (Summaries.out st') = s_doc_id (Summaries.out st) ++ ids ∧
    Summaries.failed_ids st' = Summaries.failed_ids st ++ fl ∧
    ids `sublist_of` remaining us.*2 ∧
    fl `sublist_of` remaining us.*2 ∧
    ids ++ fl ≡ₚ remaining us.*2 ∧
    Summaries.processed_count st'
    = Summaries.processed_count st + Z.of_nat (length ids) ∧
    Summaries.skipped_count st'
    = Summaries.skipped_count st
      + Z.of_nat (length us) - Z.of_nat (length (remaining us.*2)) ∧
    (∀ u, u ∈ us → u.2 ∈ already → is_Some (meta_map !! u.2)).
Proof.
  revert st. induction us as [|[i d] us IH]; intros st;
    cbn [Summaries.run_loop].
  { intros [= <-]. exists [], []. rewrite !app_nil_r. simpl.
    repeat split; try done; try lia. by intros u ?%elem_of_nil. }
  pose proof (s_body_cases st i d) as Hcases. cbn zeta in Hcases.
  destruct (s_body st (i, d)) as [st1|st1] eqn:Hbody; cbn [state_of] in Hcases.
  2:{ intros [=]. }
  intros Hrun. destruct (IH st1 Hrun)
    as (ids & fl & Hids & Hfl & Hs1 & Hs2 & Hperm & Hp & Hsk & Hmeta).
  unfold remaining in *. cbn [fmap list_fmap length].
  destruct Hcases
    as [(Hin & Hr & E1 & _ & E3 & E2 & E4)
       |(Hin & _ & E4 & [(s & c & E1 & E2 & E3 & _)|(E1 & E2 & E3 & _)])].
  - rewrite filter_cons_False by (simpl; auto).
    exists ids, fl. rewrite Hids, Hfl, Hp, Hsk, E1, E2, E3, E4.
    repeat split; try done; try lia.
    intros u [->|Hu]%elem_of_cons Hal; [|by apply Hmeta].
    simpl. case_bool_decide; [done|discriminate].
  - rewrite filter_cons_True by done.
    exists (d :: ids), fl. rewrite Hids, Hfl, Hp, Hsk, E1, E2, E3, E4.
    unfold s_push. cbn [s_doc_id length]. rewrite <- (assoc_L (++)).
    repeat split; try done; try lia.
    + by apply sublist_skip.
    + by apply sublist_cons.
    + simpl. by f_equiv.
    + intros u [->|Hu]%elem_of_cons Hal; [done|by apply Hmeta].
  - rewrite filter_cons_True by done.
    exists ids, (d :: fl). rewrite Hids, Hfl, Hp, Hsk, E1, E2, E3, E4.
    rewrite <- (assoc_L (++)). cbn [length].
    repeat split; try done; try lia.
    + by apply sublist_cons.
    + by apply sublist_skip.
    + rewrite <- Hperm. symmetry. apply Permutation_middle.
    + intros u [->|Hu]%elem_of_cons Hal; [done|by apply Hmeta].
Qed.

(** A run is ended by an exception only at a file of the checkpoint that
    has no row in the metadata. *)
Lemma s_loop_raises us (st st' : SRun) :
  s_loop us st = Summaries.Raise st' →
  ∃ u, u ∈ us ∧ u.2 ∈ already ∧ meta_map !! u.2 = None.
Proof.
  revert st. induction us as [|[i d] us IH]; intros st;
    cbn [Summaries.run_loop]; [done|].
  pose proof (s_body_cases st i d) as Hcases. cbn zeta in Hcases.
  destruct (s_body st (i, d)) as [st1|st1] eqn:Hbody; cbn [state_of] in Hcases.
  - intros (u & Hu & ?)%IH. exists u. split; [|done]. by apply elem_of_cons; right.
  - intros _. exists (i, d). split; [by apply elem_of_cons; left|].
    destruct Hcases as [(Hin & Hr & _)|(_ & [=] & _)].
    split; [done|]. simpl.
    destruct (meta_map !! d) eqn:Hm; [|done].
    rewrite bool_decide_eq_true_2 in Hr by eauto. discriminate.
Qed.
End summaries_run.

Section summaries_extras.
Context {World : Type}.
Variable process_docx_file process_excel_file :
  World → pystr → pystr → pystr → World * option (Summaries.Generated * list Chunk).
Variable meta_map : gmap pystr Summaries.FileMeta.


End summaries_extras.

(** ** From the questions ledger to the index *)

Lemma entry_ok_clean (qs : list pystr) :
  Forall question_ok qs → clean_questions qs = qs.
Proof.
  unfold clean_questions. induction 1 as [|q qs (Hlen & Hstrip & _) _ IH]; [done|].
  cbn [fmap list_fmap]. rewrite Hstrip.
  rewrite filter_cons_True.
  - f_equal. exact IH.
  - intros ->. unfold len in Hlen. simpl in Hlen. lia.
Qed.

Lemma entry_ok_lines (qs : list pystr) :
  Forall question_ok qs → splitlines (join [10%N] qs) = qs.
Proof.
  intros Hok. apply splitlines_join.
  - eapply Forall_impl; [exact Hok|]. by intros q (_ & _ & ?).
  - intros Hlast. apply last_Some_elem_of in Hlast.
    rewrite Forall_forall in Hok. destruct (Hok _ Hlast) as (Hlen & _).
    unfold len in Hlen. simpl in Hlen. lia.
Qed.



(** ** What a stage of the indexer uploads *)

Section stage_extras.
Context {Vec World : Type}.
Variable embed_documents : World → list pystr → World * option (list Vec).
Variable meta_map : gmap pystr Indexer.BaseMeta.

Abbreviation Stage := (@Indexer.Stage Vec World).
Abbreviation IRec := (@Indexer.IndexRecord Vec).
Abbreviation IBuilt := (@Indexer.Built Vec).

Lemma built_from_counts {X : Type} (entry : X → option (pystr * IRec)) rows :
  Z.of_nat (length (Indexer.records (built_from entry rows)))
  + Indexer.skipped (built_from entry rows)
  = Z.of_nat (length rows).
Proof.
  unfold built_from. cbn [Indexer.records Indexer.skipped].
  rewrite length_fmap.
  induction rows as [|row rows IH]; [done|].
  cbn [omap list_omap]. destruct (entry row) as [tr|] eqn:E.
  - rewrite filter_cons_False by (rewrite E; congruence).
    cbn [length]. lia.
  - rewrite filter_cons_True by done. cbn [length]. lia.
Qed.

(** The counters printed at the end of a stage. *)
Definition stage_counts (rows : nat) (idx : gmap pystr IRec) (st : Stage) : Prop :=
  match st with
  | Indexer.Indexed _ uploaded skipped _ =>
      0 ≤ uploaded ∧ 0 ≤ skipped ∧ uploaded + skipped = Z.of_nat rows
  | Indexer.Failed idx' _ => idx' = idx
  end.

Lemma stage_counts_built {X : Type} (entry : X → option (pystr * IRec)) rows w idx :
  stage_counts (length rows) idx
    (Indexer.index_stage embed_documents w idx (built_from entry rows)).
Proof.
  pose proof (built_from_counts entry rows) as Hsum.
  destruct (Indexer.index_stage _ _ _ _) as [idx' n s w'|idx' w'] eqn:Hst; simpl.
  - apply stage_indexed in Hst as (recs & _ & _ & _ & -> & ->).
    split; [lia|]. split; [|done]. unfold built_from. simpl. lia.
  - by apply stage_failed in Hst as [-> _].
Qed.

(** X8. A stage that runs to its end reports counters that add up:
    the records uploaded plus the rows skipped are the rows of the
    backup that the stage read, one row per document for questions and
    summaries (as far as both lists of the ledger go) and one row per
    chunk for chunks. A stage ended by the embedder reports nothing and
    leaves its collection as it was. *)
Theorem stage_counters_add_up (q_data : QLedger) (s_data : SLedger)
    (w : World) (idx : gmap pystr IRec) :
  stage_counts (length (q_doc_id q_data) `min` length (q_questions q_data)) idx
    (Indexer.index_stage embed_documents w idx
       (Indexer.build_questions meta_map q_data)) ∧
  stage_counts (length (s_doc_id s_data) `min` length (s_summary s_data)) idx
    (Indexer.index_stage embed_documents w idx
       (Indexer.build_summaries meta_map s_data)) ∧
  stage_counts
    (sum_list (length <$> (zip (s_doc_id s_data) (s_chunks s_data)).*2)) idx
    (Indexer.index_stage embed_documents w idx
       (Indexer.build_chunks meta_map s_data)).
Proof.
  rewrite build_questions_spec, build_summaries_spec, build_chunks_spec.
  split; [|split].
  - rewrite <- length_zip. apply stage_counts_built.
  - rewrite <- length_zip. apply stage_counts_built.
  - replace (sum_list (length <$> (zip (s_doc_id s_data) (s_chunks s_data)).*2))
      with (length (chunk_rows s_data)); [apply stage_counts_built|].
    unfold chunk_rows.
    induction (zip (s_doc_id s_data) (s_chunks s_data)) as [|[d cs] rows IH];
      [done|].
    cbn [mbind list_bind fmap list_fmap sum_list sum_list_with snd].
    rewrite length_app, length_fmap, length_imap. f_equal. exact IH.
Qed.

(** X9. A stage that runs to its end changes its collection only at the
    ids of the records it built: the ids of the collection are the old
    ids and those; a record under another id is as before; under each
    of those ids lies a record with that id and the metadata of a built
    record. A stage ended by the embedder leaves the collection as it
    was. *)
Theorem stage_touches_only_its_ids (w : World) (idx : gmap pystr IRec)
    (b : IBuilt) :
  match Indexer.index_stage embed_documents w idx b with
  | Indexer.Indexed idx' _ _ _ =>
      dom idx' = dom idx ∪ list_to_set (Indexer.id <$> Indexer.records b) ∧
      (∀ k, k ∉ Indexer.id <$> Indexer.records b → idx' !! k = idx !! k) ∧
      (∀ k, k ∈ Indexer.id <$> Indexer.records b →
            ∃ r r0, idx' !! k = Some r ∧ Indexer.id r = k ∧
                    r0 ∈ Indexer.records b ∧ shape r = shape r0)
  | Indexer.Failed idx' _ => idx' = idx
  end.
Proof.
  destruct (Indexer.index_stage _ _ _ _) as [idx' n s w'|idx' w'] eqn:Hst.
  2:{ by apply stage_failed in Hst as [-> _]. }
  apply stage_indexed in Hst as (recs & _ & Hshape & -> & _).
  assert (Hids : Indexer.id <$> recs = Indexer.id <$> Indexer.records b).
  { change (@Indexer.id Vec) with (fst ∘ (@shape Vec)).
    by rewrite !list_fmap_compose, Hshape. }
  split; [by rewrite dom_upsert, Hids|]. split.
  - intros k Hk. rewrite upsert_lookup. unfold latest.
    destruct (last _) as [r|] eqn:Hlast; [|done].
    apply last_Some_elem_of, list_elem_of_filter in Hlast as [Hid Hr].
    destruct Hk. rewrite <- Hids, <- Hid. by apply list_elem_of_fmap_2.
  - intros k Hk. rewrite <- Hids in Hk.
    apply list_elem_of_fmap in Hk as (r1 & -> & Hr1).
    rewrite upsert_lookup. unfold latest.
    destruct (last _) as [r|] eqn:Hlast.
    + apply last_Some_elem_of, list_elem_of_filter in Hlast as [Hid Hr].
      assert (Hs : shape r ∈ shape <$> Indexer.records b).
      { rewrite <- Hshape. by apply list_elem_of_fmap_2. }
      apply list_elem_of_fmap in Hs as (r0 & Hs & Hr0).
      by exists r, r0.
    + apply last_None in Hlast.
      assert (Hin : r1 ∈ filter (λ r, Indexer.id r = Indexer.id r1) recs)
        by (by apply list_elem_of_filter).
      rewrite Hlast in Hin. by apply elem_of_nil in Hin.
Qed.

(** ** The vector of a record is the vector of its text *)

(** An embedder that answers every batch with one vector per text, the
    vector of a text depending on the text alone. *)
Definition pointwise (vec_of : pystr → Vec) : Prop :=
  ∀ w batch, (embed_documents w batch).2 = Some (vec_of <$> batch).

Definition with_vector (vec_of : pystr → Vec) (text : pystr) (r : IRec) : IRec :=
  Indexer.mkRecord (Indexer.id r) (Some (vec_of text)) (Indexer.metadata r).

Definition fill (vec_of : pystr → Vec) (heap : list IRec) (tr : pystr * nat)
    : list IRec :=
  Indexer.set_values heap tr.2 (vec_of tr.1).

Lemma assign_pointwise (vec_of : pystr → Vec) heap (batch : list (pystr * nat)) :
  Indexer.assign heap batch (vec_of <$> batch.*1) = foldl (fill vec_of) heap batch.
Proof.
  unfold Indexer.assign. revert heap.
  induction batch as [|[t ref] batch IH]; intros heap; [done|].
  cbn [fmap list_fmap zip zip_with foldl fst snd]. apply IH.
Qed.

Lemma embed_loop_pointwise (vec_of : pystr → Vec) w heap batches :
  pointwise vec_of →
  ∃ w', Indexer.embed_loop embed_documents w heap batches
        = (w', Some (foldl (fill vec_of) heap (concat batches))).
Proof.
  intros Hpw. revert w heap.
  induction batches as [|batch batches IH]; intros w heap;
    cbn [Indexer.embed_loop concat].
  { by exists w. }
  pose proof (Hpw w batch.*1) as Hans.
  destruct (embed_documents w batch.*1) as [w1 ans]. simpl in Hans. subst ans.
  rewrite assign_pointwise, foldl_app. apply IH.
Qed.

Lemma fill_zip (vec_of : pystr → Vec) (pre heap : list IRec) (texts : list pystr) :
  length texts = length heap →
  foldl (fill vec_of) (pre ++ heap) (zip texts (seq (length pre) (length heap)))
  = pre ++ zip_with (with_vector vec_of) texts heap.
Proof.
  revert pre texts. induction heap as [|r heap IH]; intros pre texts Hlen.
  { destruct texts; [|done]. done. }
  destruct texts as [|t texts]; [done|].
  cbn [length seq zip zip_with foldl]. unfold fill at 2. cbn [fst snd].
  unfold Indexer.set_values.
  replace (length pre) with (length pre + 0)%nat at 1 by lia.
  rewrite alter_app_r. cbn [alter list_alter].
  specialize (IH (pre ++ [with_vector vec_of t r]) texts).
  rewrite length_app in IH. cbn [length] in IH.
  replace (length pre + 1)%nat with (S (length pre)) in IH by lia.
  rewrite <- !(assoc_L (++)) in IH. cbn [app] in IH.
  apply IH. simpl in Hlen. lia.
Qed.

Lemma stage_pointwise (vec_of : pystr → Vec) (w : World) (idx : gmap pystr IRec) (b : IBuilt) :
  pointwise vec_of → paired b →
  ∃ w',
    Indexer.index_stage embed_documents w idx b
    = Indexer.Indexed
        (Indexer.upsert idx
           (zip_with (with_vector vec_of) (Indexer.texts b) (Indexer.records b)))
        (Z.of_nat (length (Indexer.records b))) (Indexer.skipped b) w'.
Proof.
  intros Hpw Hp. unfold Indexer.index_stage.
  destruct (embed_loop_pointwise vec_of w (Indexer.records b)
              (Indexer.batches_of b) Hpw) as (w' & ->).
  exists w'. rewrite upsert_loop_spec, batches_concat.
  pose proof (fill_zip vec_of [] (Indexer.records b) (Indexer.texts b) Hp) as Hfill.
  cbn [app length] in Hfill. rewrite Hfill.
  f_equal. rewrite length_zip_with. unfold paired in Hp. lia.
Qed.
End stage_extras.

(** X10. With an embedder that answers every batch with one vector per
    text, the vector of a text depending on the text alone, a stage whose
    texts and records are paired always runs to its end, and every record
    it uploads carries the vector of its own text, wherever the batches
    of 128 are cut: the uploaded records are the built records, in order,
    each with the vector of the text at the same position. *)
Theorem records_get_their_own_vectors {Vec World : Type}
    (embed_documents : World → list pystr → World * option (list Vec))
    (vec_of : pystr → Vec) (w : World)
    (idx : gmap pystr (@Indexer.IndexRecord Vec)) (b : @Indexer.Built Vec) :
  pointwise embed_documents vec_of → paired b →
  ∃ w',
    Indexer.index_stage embed_documents w idx b
    = Indexer.Indexed
        (Indexer.upsert idx
           (zip_with (with_vector vec_of) (Indexer.texts b) (Indexer.records b)))
        (Z.of_nat (length (Indexer.records b))) (Indexer.skipped b) w'.
Proof. apply stage_pointwise. Qed.

Lemma records_get_their_own_vectors_witness :
  (pointwise Demo.embed (λ t, [len t]) ∧ paired Demo.built_B) ∧
  ∃ w',
    Indexer.index_stage Demo.embed 0%nat ∅ Demo.built_B
    = Indexer.Indexed
        (Indexer.upsert ∅
           (zip_with (with_vector (λ t, [len t])) (Indexer.texts Demo.built_B)
              (Indexer.records Demo.built_B)))
        (Z.of_nat (length (Indexer.records Demo.built_B)))
        (Indexer.skipped Demo.built_B) w'.
Proof.
  assert (H1 : pointwise Demo.embed (λ t, [len t])) by (intros w batch; reflexivity).
  assert (H2 : paired Demo.built_B) by reflexivity.
  split; [by split|].
  exact (records_get_their_own_vectors Demo.embed (λ t, [len t]) 0%nat ∅
           Demo.built_B H1 H2).
Defined.



(** ** The batches of [chunked] *)

Section chunked_extras.
Context {A : Type}.
Implicit Types (xs buf : list A) (n : Z).

Lemma chunked_from_short buf xs n :
  Z.of_nat (length buf + length xs) < n →
  chunked_from buf xs n = match buf ++ xs with [] => [] | _ => [buf ++ xs] end.
Proof.
  revert buf. induction xs as [|x xs IH]; intros buf Hlen;
    cbn [chunked_from].
  { rewrite app_nil_r. done. }
  rewrite (proj2 (Z.leb_gt _ _)) by (rewrite length_app; simpl in *; lia).
  rewrite IH by (rewrite length_app; simpl in *; lia).
  by rewrite <- (assoc_L (++)).
Qed.

Lemma chunked_from_long buf xs n :
  Z.of_nat (length buf) < n → n ≤ Z.of_nat (length buf + length xs) →
  chunked_from buf xs n
  = take (Z.to_nat n) (buf ++ xs) :: chunked (drop (Z.to_nat n) (buf ++ xs)) n.
Proof.
  revert buf. induction xs as [|x xs IH]; intros buf Hbuf Hlen;
    cbn [chunked_from].
  { simpl in Hlen. lia. }
  destruct (Z.leb_spec n (Z.of_nat (length (buf ++ [x])))) as [Hfull|Hnot].
  - rewrite length_app in Hfull. simpl in Hfull.
    assert (Hn : Z.to_nat n = length (buf ++ [x]))
      by (rewrite length_app; simpl; lia).
    rewrite (assoc_L (++) buf [x] xs : buf ++ x :: xs = (buf ++ [x]) ++ xs).
    rewrite Hn, take_app_length, drop_app_length. done.
  - rewrite length_app in Hnot. simpl in Hnot.
    rewrite IH by (rewrite ?length_app; simpl in *; lia).
    by rewrite <- (assoc_L (++)).
Qed.

(** The generator, one batch at a time. *)
Lemma chunked_unfold xs n :
  1 ≤ n →
  chunked xs n
  = match xs with
    | [] => []
    | _ => take (Z.to_nat n) xs :: chunked (drop (Z.to_nat n) xs) n
    end.
Proof.
  intros Hn. unfold chunked at 1.
  destruct (Z.lt_ge_cases (Z.of_nat (length xs)) n) as [Hshort|Hlong].
  - rewrite chunked_from_short by (simpl; lia). cbn [app].
    destruct xs as [|x xs]; [done|].
    rewrite take_ge, drop_ge by lia. done.
  - rewrite chunked_from_long by (simpl; lia). cbn [app].
    destruct xs as [|x xs]; [simpl in Hlong; lia|done].
Qed.

Lemma chunked_lookup xs n (k : nat) :
  1 ≤ n →
  chunked xs n !! k
  = if decide (k * Z.to_nat n < length xs)%nat
    then Some (take (Z.to_nat n) (drop (k * Z.to_nat n) xs)) else None.
Proof.
  intros Hn. revert xs. induction k as [|k IH]; intros xs.
  - rewrite chunked_unfold by done. destruct xs as [|x xs]; [done|].
    cbn [lookup list_lookup]. rewrite decide_True by (simpl; lia). done.
  - rewrite chunked_unfold by done. destruct xs as [|x xs].
    { rewrite decide_False by (simpl; lia). done. }
    cbn [lookup list_lookup]. rewrite IH, length_drop, drop_drop.
    replace (Z.to_nat n + k * Z.to_nat n)%nat with (S k * Z.to_nat n)%nat by lia.
    destruct (decide (k * Z.to_nat n < length (x :: xs) - Z.to_nat n)%nat);
      [rewrite decide_True by lia|rewrite decide_False by lia]; done.
Qed.

Lemma chunked_count xs n :
  1 ≤ n →
  Z.of_nat (length (chunked xs n)) = (Z.of_nat (length xs) + n - 1) / n.
Proof.
  intros Hn. remember (length xs) as L eqn:HL. revert xs HL.
  induction (lt_wf L) as [L _ IH]. intros xs ->.
  rewrite chunked_unfold by done. destruct xs as [|x xs].
  { simpl. rewrite Z.div_small; lia. }
  set (ys := x :: xs) in *.
  assert (Hpos : (0 < length ys)%nat) by (simpl; lia). clearbody ys.
  replace (length (take (Z.to_nat n) ys :: chunked (drop (Z.to_nat n) ys) n))
    with (S (length (chunked (drop (Z.to_nat n) ys) n))) by done.
  rewrite Nat2Z.inj_succ.
  rewrite (IH (length (drop (Z.to_nat n) ys)) ltac:(rewrite length_drop; lia)
             (drop (Z.to_nat n) ys) eq_refl).
  rewrite length_drop. set (L := length ys) in *.
  destruct (Z.lt_ge_cases (Z.of_nat L) n) as [Hshort|Hlong].
  - replace (Z.of_nat (L - Z.to_nat n)) with 0 by lia.
    rewrite (Z.div_small (0 + n - 1)) by lia.
    replace (Z.of_nat L + n - 1) with ((Z.of_nat L - 1) + 1 * n) by lia.
    rewrite Z.div_add by lia. rewrite Z.div_small; lia.
  - replace (Z.of_nat (L - Z.to_nat n)) with (Z.of_nat L - n) by lia.
    replace (Z.of_nat L + n - 1) with ((Z.of_nat L - n + n - 1) + 1 * n)
      by lia.
    rewrite Z.div_add by lia. lia.
Qed.

End chunked_extras.

(** X12. For a batch size of at least 1, [chunked] cuts the items at
    every multiple of the size: the [k]-th batch is the slice
    [xs[k*n : (k+1)*n]] and there is none beyond the items, so the
    number of batches (of calls to the embedder or to the index) is the
    number of items divided by the size, rounded up. *)
Theorem chunked_slices {A : Type} (xs : list A) (n : Z) :
  1 ≤ n →
  (∀ k : nat,
     chunked xs n !! k
     = if decide (k * Z.to_nat n < length xs)%nat
       then Some (take (Z.to_nat n) (drop (k * Z.to_nat n) xs)) else None) ∧
  Z.of_nat (length (chunked xs n)) = (Z.of_nat (length xs) + n - 1) / n.
Proof.
  intros Hn. split; [intros k; by apply chunked_lookup | by apply chunked_count].
Qed.

Lemma chunked_slices_witness :
  1 ≤ 2 ∧
  chunked [1; 2; 3; 4; 5] 2 !! 2%nat = Some [5] ∧
  Z.of_nat (length (chunked [1; 2; 3; 4; 5] 2)) = 3.
Proof.
  assert (H : 1 ≤ 2) by lia.
  split; [exact H|].
  destruct (chunked_slices [1; 2; 3; 4; 5] 2 H) as [H1 H2].
  split; [exact (H1 2%nat) | exact H2].
Defined.

(** X13. A batch size of 1 or less (zero and negative sizes included)
    does not fail and does not loop: every item is yielded as a batch of
    its own. *)
Theorem chunked_degenerate_size {A : Type} (xs : list A) (n : Z) :
  n ≤ 1 → chunked xs n = (λ x, [x]) <$> xs.
Proof.
  intros Hn. unfold chunked. induction xs as [|x xs IH]; [done|].
  cbn [chunked_from app fmap list_fmap].
  rewrite (proj2 (Z.leb_le _ _)) by (simpl; lia). f_equal. exact IH.
Qed.

Lemma chunked_degenerate_size_witness :
  -3 ≤ 1 ∧ chunked [7; 8; 9] (-3) = [[7]; [8]; [9]].
Proof.
  assert (H : -3 ≤ 1) by lia.
  split; [exact H|].
  exact (chunked_degenerate_size [7; 8; 9] (-3) H).
Defined.

(** ** Spreadsheets: what the summary driver stores *)

(** The summaries stored for a workbook without text. *)
Definition placeholders (file_name year : pystr) : list pystr :=
  [ py "File: " ++ file_name ++ py " (Year: " ++ year
      ++ py "): No readable content found";
    py "File: " ++ file_name ++ py " (Year: " ++ year
      ++ py "): No content found in spreadsheet" ].

(** The request made for the chunks of a workbook. *)
Definition sheet_prompt (file_name year : pystr) (chunks : list Chunk) : Excel.Prompt :=
  Excel.mkPrompt (Excel.context_of file_name year None)
    (slice_to (join [10%N; 10%N] (Indexer.chunk_text <$> chunks)) 4000).

(** The summary stored for a workbook whose chunks are [chunks], after
    the text generator gave [answer]. *)
Definition sheet_summary (file_name year : pystr) (answer : pystr + pystr) : pystr :=
  match answer with
  | inl content => content
  | inr e =>
      Excel.context_of file_name year None ++ py ": Error generating summary - " ++ e
  end.

Lemma slice_to_len (s : pystr) (n : Z) : 0 ≤ n → len (slice_to s n) ≤ n.
Proof. apply slice_to_length. Qed.

Section excel_facts.
Context {World : Type}.
Variable llm_invoke : World → Excel.Prompt → World * (pystr + pystr).
Variable download_sheets :
  World → pystr → pystr → World * option (list (pystr * pystr)).
Variable split_documents : Excel.Document → list Excel.Document.
Variable meta_map : gmap pystr Summaries.FileMeta.

Abbreviation process_excel_file :=
  (Excel.process_excel_file llm_invoke download_sheets split_documents meta_map).

(** What [process_excel_file] returns once the workbook is there. *)
Definition sheet_result (w1 w2 : World) (file_name year summary : pystr)
    (chunks : list Chunk) : Prop :=
  match chunks with
  | [] => summary ∈ placeholders file_name year ∧ w2 = w1
  | _ =>
      len (Excel.p_text (sheet_prompt file_name year chunks)) ≤ 4000 ∧
      w2 = (llm_invoke w1 (sheet_prompt file_name year chunks)).1 ∧
      summary
      = sheet_summary file_name year
          (llm_invoke w1 (sheet_prompt file_name year chunks)).2
  end.

Lemma process_excel_file_returns w fid file_name year m w1 sheets :
  meta_map !! fid = Some m →
  Summaries.mimeType m ∈ [Summaries.mime_gsheet; Summaries.mime_xlsx] →
  download_sheets w fid (Summaries.mimeType m) = (w1, Some sheets) →
  ∃ w2 summary chunks,
    process_excel_file w fid file_name year
    = (w2, Some (Summaries.PlainText summary, chunks)) ∧
    sheet_result w1 w2 file_name year summary chunks.
Proof.
  intros Hm Hmime Hdl. unfold Excel.process_excel_file. rewrite Hm.
  rewrite bool_decide_eq_true_2.
  2:{ rewrite !elem_of_cons, elem_of_nil in Hmime. tauto. }
  rewrite Hdl. destruct sheets as [|sh sheets].
  { eexists w1, _, []. split; [done|]. split; [|done].
    apply elem_of_cons. by left. }
  cbv zeta.
  destruct (Excel.create_documents_from_excel (sh :: sheets) ≫= split_documents)
    as [|d docs].
  { eexists w1, _, []. split; [done|]. split; [|done].
    apply elem_of_cons. right. apply elem_of_cons. by left. }
  unfold Excel.create_contextual_summary.
  assert (Hp : Excel.mkPrompt (Excel.context_of file_name year None)
                 (slice_to (join [10%N; 10%N] (Excel.page_content <$> d :: docs)) 4000)
               = sheet_prompt file_name year
                   ((λ d, ChunkPage (Excel.page_content d)) <$> d :: docs)).
  { unfold sheet_prompt. by rewrite <- list_fmap_compose. }
  rewrite Hp.
  destruct (llm_invoke w1 _) as [w2 answer] eqn:Hllm.
  exists w2, (sheet_summary file_name year answer),
    ((λ d, ChunkPage (Excel.page_content d)) <$> d :: docs).
  split; [by destruct answer|].
  cbn [fmap list_fmap sheet_result]. cbn [fmap list_fmap] in Hllm.
  rewrite Hllm. split; [|done].
  apply slice_to_len. lia.
Qed.
End excel_facts.



(** ** files_index.py: the name written to the CSV *)

Section split_facts.
Implicit Types (s cur pre seg : pystr) (sep : N).

Lemma last_split_from cur s sep :
  is_Some (last (DriveFiles.split_from cur s sep)).
Proof.
  revert cur. induction s as [|c s IH]; intros cur; cbn [DriveFiles.split_from].
  - by eexists.
  - destruct (c =? sep)%N; [|apply IH].
    rewrite last_cons. destruct (IH []) as [x ->]. by eexists.
Qed.

Lemma last_split_no_sep cur s sep :
  sep ∉ s → last (DriveFiles.split_from cur s sep) = Some (cur ++ s).
Proof.
  revert cur. induction s as [|c s IH]; intros cur Hs; cbn [DriveFiles.split_from].
  - by rewrite app_nil_r.
  - apply not_elem_of_cons in Hs as [Hc Hs].
    destruct (N.eqb_spec c sep) as [->|_]; [done|].
    rewrite IH by done. by rewrite <- (assoc_L (++)).
Qed.

Lemma last_split_sep cur pre seg sep :
  sep ∉ seg → last (DriveFiles.split_from cur (pre ++ sep :: seg) sep) = Some seg.
Proof.
  intros Hseg. revert cur.
  induction pre as [|c pre IH]; intros cur; cbn [app DriveFiles.split_from].
  - rewrite N.eqb_refl, last_cons. by rewrite last_split_no_sep.
  - destruct (c =? sep)%N; [|apply IH].
    rewrite last_cons. by rewrite IH.
Qed.

(** A string has no separator, or a last one. *)
Lemma last_occurrence s sep :
  sep ∉ s ∨ ∃ pre seg, s = pre ++ sep :: seg ∧ sep ∉ seg.
Proof.
  induction s as [|c s [IH|(pre & seg & -> & Hseg)]].
  - left. apply not_elem_of_nil.
  - destruct (decide (c = sep)) as [->|Hc].
    + right. by exists [], s.
    + left. by apply not_elem_of_cons.
  - right. by exists (c :: pre), seg.
Qed.

Lemma last_part_no_sep s sep : sep ∉ s → DriveFiles.last_part s sep = s.
Proof.
  intros Hs. unfold DriveFiles.last_part, DriveFiles.split.
  by rewrite last_split_no_sep.
Qed.

Lemma last_part_sep pre seg sep :
  sep ∉ seg → DriveFiles.last_part (pre ++ sep :: seg) sep = seg.
Proof.
  intros Hs. unfold DriveFiles.last_part, DriveFiles.split.
  by rewrite last_split_sep.
Qed.

Lemma last_part_free s sep : sep ∉ DriveFiles.last_part s sep.
Proof.
  destruct (last_occurrence s sep) as [Hs|(pre & seg & -> & Hseg)].
  - by rewrite last_part_no_sep.
  - by rewrite last_part_sep.
Qed.

Lemma last_part_suffix s sep : DriveFiles.last_part s sep `suffix_of` s.
Proof.
  destruct (last_occurrence s sep) as [Hs|(pre & seg & -> & Hseg)].
  - by rewrite last_part_no_sep.
  - rewrite last_part_sep by done. by exists (pre ++ [sep]); rewrite <- (assoc_L (++)).
Qed.

(** Taking the part after the last [b] keeps the part after the last
    [a] when that part has no [b]. *)
Lemma last_part_twice s (a b : N) :
  a ≠ b → b ∉ DriveFiles.last_part s a →
  DriveFiles.last_part (DriveFiles.last_part s b) a = DriveFiles.last_part s a ∧
  DriveFiles.last_part s a `suffix_of` DriveFiles.last_part s b.
Proof.
  intros Hab Hb.
  destruct (last_occurrence s b) as [Hs|(pre2 & r & Hsplit & Hr)].
  { rewrite (last_part_no_sep s b) by done. split; [done|]. apply last_part_suffix. }
  destruct (last_occurrence s a) as [Ha|(pre & temp & -> & Htemp)].
  { rewrite (last_part_no_sep s a) in Hb by done.
    destruct Hb. rewrite Hsplit. apply elem_of_app. right. by left. }
  rewrite (last_part_sep pre temp a) in * by done.
  rewrite Hsplit, (last_part_sep pre2 r b) by done.
  apply app_eq_app in Hsplit as [l [[-> Hl]|[-> Hl]]].
  - destruct l as [|c l]; simplify_eq/=.
    rewrite last_part_sep by done. split; [done|].
    by exists (l ++ [a]); rewrite <- (assoc_L (++)).
  - destruct l as [|c l]; simplify_eq/=.
    destruct Hb. apply elem_of_app. right. by left.
Qed.
End split_facts.

Lemma known_extensions_plain ext :
  ext ∈ DriveFiles.known_extensions →
  (DriveFiles.dot ∉ ext) ∧ (DriveFiles.slash ∉ ext).
Proof.
  revert ext. apply Forall_forall. compute_done.
Qed.

Lemma mime_to_ext_known mime ext :
  DriveFiles.mime_to_ext !! mime = Some ext → ext ∈ DriveFiles.known_extensions.
Proof.
  intros H. unfold DriveFiles.mime_to_ext in H.
  apply elem_of_list_to_map_2 in H.
  match type of H with
  | _ ∈ ?l =>
      assert (Hall : Forall (λ p, p.2 ∈ DriveFiles.known_extensions) l)
        by compute_done
  end.
  rewrite Forall_forall in Hall. exact (Hall _ H).
Qed.

Lemma get_extension_shape (name mimeType r : pystr) :
  DriveFiles.get_extension name mimeType = Some r →
  (DriveFiles.slash ∉ r) ∧
  DriveFiles.last_part name DriveFiles.slash `prefix_of` r ∧
  ∃ ext, ext ∈ DriveFiles.known_extensions ∧ ext `suffix_of` r ∧
         DriveFiles.last_part r DriveFiles.dot = ext.
Proof.
  unfold DriveFiles.get_extension.
  case_bool_decide as Htemp.
  - intros [= <-].
    destruct (known_extensions_plain _ Htemp) as [_ Hslash].
    destruct (last_part_twice name DriveFiles.dot DriveFiles.slash) as [H1 H2];
      [done|done|].
    split; [apply last_part_free|]. split; [done|].
    exists (DriveFiles.last_part name DriveFiles.dot). by repeat split.
  - destruct (DriveFiles.mime_to_ext !! mimeType) as [ext|] eqn:Hext; [|done].
    intros [= <-]. apply mime_to_ext_known in Hext.
    destruct (known_extensions_plain _ Hext) as [Hdot Hslash].
    split; [|split].
    + apply not_elem_of_app. split; [apply last_part_free|].
      cbn [app]. apply not_elem_of_cons. split; [|done]. by intros [=].
    + by apply prefix_app_r.
    + exists ext. split; [done|]. split.
      * exists (DriveFiles.last_part name DriveFiles.slash ++ [DriveFiles.dot]).
        by rewrite <- (assoc_L (++)).
      * cbn [app]. by rewrite last_part_sep.
Qed.

(** X15. When [get_extension] returns a name, the name has no directory
    part (no "/"), starts with the base name of the file, and ends with
    one of docx, xlsx, pptx, pdf, which is also what follows its last
    dot; applying [get_extension] to the returned name gives the same
    name again, so that a name is never given a second extension. *)
Theorem get_extension_names (name mimeType r : pystr) :
  DriveFiles.get_extension name mimeType = Some r →
  (DriveFiles.slash ∉ r) ∧
  DriveFiles.last_part name DriveFiles.slash `prefix_of` r ∧
  (∃ ext, ext ∈ DriveFiles.known_extensions ∧ ext `suffix_of` r) ∧
  ∀ mimeType', DriveFiles.get_extension r mimeType' = Some r.
Proof.
  intros (Hslash & Hpre & ext & Hext & Hsuf & Hlast)%get_extension_shape.
  split; [done|]. split; [done|]. split; [by exists ext|].
  intros mimeType'. unfold DriveFiles.get_extension.
  rewrite Hlast, bool_decide_eq_true_2 by done.
  by rewrite last_part_no_sep.
Qed.

Lemma get_extension_names_witness :
  DriveFiles.get_extension (py "plans/budget 2024") Summaries.mime_gsheet
  = Some (py "budget 2024.xlsx") ∧
  DriveFiles.get_extension (py "budget 2024.xlsx") Summaries.mime_gsheet
  = Some (py "budget 2024.xlsx").
Proof.
  assert (H : DriveFiles.get_extension (py "plans/budget 2024") Summaries.mime_gsheet
              = Some (py "budget 2024.xlsx")) by reflexivity.
  split; [exact H|].
  destruct (get_extension_names _ _ _ H) as (_ & _ & _ & H4).
  exact (H4 Summaries.mime_gsheet).
Defined.

(** ** files_index.py: the files listed *)

(** Induction on the entries of a drive. *)
Fixpoint Entry_rect' (P : DriveFiles.Entry → Prop)
    (step : ∀ f pages, Forall (Forall P) pages → P (DriveFiles.mkEntry f pages))
    (e : DriveFiles.Entry) : P e :=
  match e with
  | DriveFiles.mkEntry f pages =>
      step f pages
        ((fix go_pages (ps : list (list DriveFiles.Entry)) : Forall (Forall P) ps :=
            match ps with
            | [] => @List.Forall_nil _ _
            | p :: ps' =>
                @List.Forall_cons _ _ p ps'
                  ((fix go_page (es : list DriveFiles.Entry) : Forall P es :=
                      match es with
                      | [] => @List.Forall_nil _ _
                      | e' :: es' =>
                          @List.Forall_cons _ _ e' es' (Entry_rect' P step e') (go_page es')
                      end) p)
                  (go_pages ps')
            end) pages)
  end.

Section fetch_facts.
Variable ALLOWED_TYPES : list pystr.
Variable SKIP_FOLDER_ID : pystr.

Abbreviation fetch_entry := (DriveFiles.fetch_entry ALLOWED_TYPES SKIP_FOLDER_ID).

(** The files at or below an entry that the listing can reach: the
    entry itself, and what is reached below it when it is a folder
    other than the one to skip. *)
Inductive reaches : DriveFiles.Entry → DriveFiles.File → Prop :=
  | reaches_self e : reaches e (DriveFiles.file_of e)
  | reaches_below e page e' f :
      DriveFiles.f_id (DriveFiles.file_of e) ≠ SKIP_FOLDER_ID →
      DriveFiles.f_mimeType (DriveFiles.file_of e) = DriveFiles.mime_folder →
      page ∈ DriveFiles.pages_of e → e' ∈ page → reaches e' f →
      reaches e f.

(** The files that end in the result: not the one to skip, not a
    folder, of an allowed type. *)
Definition wanted (f : DriveFiles.File) : Prop :=
  DriveFiles.f_id f ≠ SKIP_FOLDER_ID ∧
  DriveFiles.f_mimeType f ≠ DriveFiles.mime_folder ∧
  DriveFiles.f_mimeType f ∈ ALLOWED_TYPES.

Lemma fetch_entry_reaches e r :
  r ∈ fetch_entry e ↔ ∃ f, r = DriveFiles.row_of f ∧ reaches e f ∧ wanted f.
Proof.
  revert r. induction e as [f pages IH] using Entry_rect'. intros r.
  cbn [DriveFiles.fetch_entry].
  case_bool_decide as Hskip.
  { rewrite elem_of_nil. split; [done|].
    intros (f' & -> & Hreach & Hid & _).
    inversion Hreach; simplify_eq/=; done. }
  case_bool_decide as Hfolder.
  - rewrite list_elem_of_bind. split.
    + intros (page & Hr & Hpage).
      apply list_elem_of_bind in Hr as (e' & Hr & He').
      rewrite Forall_forall in IH. specialize (IH page Hpage).
      rewrite Forall_forall in IH.
      apply (IH e' He') in Hr as (f' & -> & Hreach & Hw).
      exists f'. split; [done|]. split; [|done].
      by eapply (reaches_below (DriveFiles.mkEntry f pages) page e').
    + intros (f' & -> & Hreach & Hw).
      inversion Hreach as [|? page e' ? _ _ Hpage He' Hreach']; simplify_eq/=.
      { by destruct Hw as (_ & ? & _). }
      exists page. split; [|done].
      apply list_elem_of_bind. exists e'. split; [|done].
      rewrite Forall_forall in IH. specialize (IH page Hpage).
      rewrite Forall_forall in IH. apply (IH e' He'). by exists f'.
  - case_bool_decide as Hallowed.
    + rewrite list_elem_of_singleton. split.
      * intros ->. exists f. split; [done|]. split; [|done].
        apply (reaches_self (DriveFiles.mkEntry f pages)).
      * intros (f' & -> & Hreach & Hw).
        inversion Hreach; simplify_eq/=; done.
    + rewrite elem_of_nil. split; [done|].
      intros (f' & -> & Hreach & _ & _ & Hal).
      inversion Hreach; simplify_eq/=; done.
Qed.
End fetch_facts.

(** X16. On a drive given as the tree of its listings,
    [fetch_files_recursive] returns exactly the rows of the files that
    can be reached from the pages of the start folder through folders
    other than [SKIP_FOLDER_ID], and that are themselves not
    [SKIP_FOLDER_ID], not folders and of an allowed type: nothing in or
    below the folder to skip is returned, no folder is returned even when
    the folder type is among the allowed types, and no reachable file of
    an allowed type is left out, on whatever page it is listed. *)
Theorem fetch_lists_reachable_files (ALLOWED_TYPES : list pystr)
    (SKIP_FOLDER_ID : pystr) (pages : list (list DriveFiles.Entry))
    (r : DriveFiles.Row) :
  r ∈ DriveFiles.fetch_files_recursive ALLOWED_TYPES SKIP_FOLDER_ID pages ↔
  ∃ page e f,
    page ∈ pages ∧ e ∈ page ∧ reaches SKIP_FOLDER_ID e f ∧
    wanted ALLOWED_TYPES SKIP_FOLDER_ID f ∧ r = DriveFiles.row_of f.
Proof.
  unfold DriveFiles.fetch_files_recursive. rewrite list_elem_of_bind. split.
  - intros (page & Hr & Hpage).
    apply list_elem_of_bind in Hr as (e & Hr & He).
    apply fetch_entry_reaches in Hr as (f & -> & Hreach & Hw).
    by exists page, e, f.
  - intros (page & e & f & Hpage & He & Hreach & Hw & ->).
    exists page. split; [|done].
    apply list_elem_of_bind. exists e. split; [|done].
    apply fetch_entry_reaches. by exists f.
Qed.

Lemma fetch_sample_drive :
  DriveFiles.r_id
    <$> DriveFiles.fetch_files_recursive Sample.allowed (py "skip") Sample.drive
  = [py "a"; py "c"].
Proof. reflexivity. Qed.

(** ** index_documents.py: the collections before the stages *)

Lemma ensure_index_lookup (pc : Collections.Service) (name : pystr)
    (dimension : Z) (metric : pystr) :
  Collections.ensure_index pc name dimension metric
  = match pc !! name with
    | Some _ => pc
    | None => <[name := (dimension, metric)]> pc
    end.
Proof.
  unfold Collections.ensure_index.
  destruct (pc !! name) as [x|] eqn:Hx.
  - rewrite bool_decide_eq_true_2; [done|].
    apply list_elem_of_fmap. exists (name, x). split; [done|].
    by apply elem_of_map_to_list.
  - rewrite bool_decide_eq_false_2; [done|].
    intros ([k x] & Hk & Hkx%elem_of_map_to_list)%list_elem_of_fmap.
    simpl in Hk. subst k. congruence.
Qed.

Lemma ensure_index_keeps pc name dimension metric k x :
  pc !! k = Some x →
  Collections.ensure_index pc name dimension metric !! k = Some x.
Proof.
  intros Hk. rewrite ensure_index_lookup.
  destruct (pc !! name) eqn:Hn; [done|].
  rewrite lookup_insert_ne; [done|]. intros ->. congruence.
Qed.

Lemma ensure_index_new pc name dimension metric :
  pc !! name = None →
  Collections.ensure_index pc name dimension metric !! name
  = Some (dimension, metric).
Proof.
  intros Hn. rewrite ensure_index_lookup, Hn. by rewrite lookup_insert_eq.
Qed.

Lemma ensure_index_other pc name dimension metric k :
  k ≠ name →
  Collections.ensure_index pc name dimension metric !! k = pc !! k.
Proof.
  intros Hk. rewrite ensure_index_lookup.
  destruct (pc !! name); [done|]. by rewrite lookup_insert_ne.
Qed.

Lemma ensure_index_some pc name dimension metric :
  is_Some (Collections.ensure_index pc name dimension metric !! name).
Proof.
  destruct (pc !! name) as [x|] eqn:Hn.
  - exists x. by apply ensure_index_keeps.
  - eexists. by apply ensure_index_new.
Qed.

Lemma ensure_index_present pc name dimension metric :
  is_Some (pc !! name) → Collections.ensure_index pc name dimension metric = pc.
Proof. intros [x Hx]. by rewrite ensure_index_lookup, Hx. Qed.

(** X17. The three calls of [ensure_index] before the stages leave every
    index that exists as it is, whatever its dimension and metric (a
    collection of another dimension is accepted without a word); they
    create the missing ones among the three names with dimension 1536 and
    the cosine metric and touch no other name; after them the three
    collections exist, and running the calls again changes nothing. *)
Theorem ensure_indexes_keeps_existing (pc : Collections.Service) :
  (∀ name x, pc !! name = Some x → Collections.ensure_indexes pc !! name = Some x) ∧
  (∀ name,
     name ∈ [Collections.IDX_QUESTIONS; Collections.IDX_SUMMARIES;
             Collections.IDX_CHUNKS] →
     Collections.ensure_indexes pc !! name
     = Some (default (Collections.DIMENSION, py "cosine") (pc !! name))) ∧
  (∀ name,
     name ∉ [Collections.IDX_QUESTIONS; Collections.IDX_SUMMARIES;
             Collections.IDX_CHUNKS] →
     Collections.ensure_indexes pc !! name = pc !! name) ∧
  Collections.ensure_indexes (Collections.ensure_indexes pc)
  = Collections.ensure_indexes pc.
Proof.
  assert (Hkeep : ∀ name x, pc !! name = Some x →
                  Collections.ensure_indexes pc !! name = Some x).
  { intros name x Hx. unfold Collections.ensure_indexes.
    by do 3 apply ensure_index_keeps. }
  assert (Hqs : Collections.IDX_QUESTIONS ≠ Collections.IDX_SUMMARIES) by compute_done.
  assert (Hqc : Collections.IDX_QUESTIONS ≠ Collections.IDX_CHUNKS) by compute_done.
  assert (Hsc : Collections.IDX_SUMMARIES ≠ Collections.IDX_CHUNKS) by compute_done.
  assert (Hthree : ∀ name,
            name ∈ [Collections.IDX_QUESTIONS; Collections.IDX_SUMMARIES;
                    Collections.IDX_CHUNKS] →
            Collections.ensure_indexes pc !! name
            = Some (default (Collections.DIMENSION, py "cosine") (pc !! name))).
  { intros name Hname.
    destruct (pc !! name) as [x|] eqn:Hx; [by apply Hkeep|].
    rewrite !elem_of_cons, elem_of_nil in Hname.
    unfold Collections.ensure_indexes. cbn [default].
    destruct Hname as [->|[->|[->|[]]]].
    - do 2 apply ensure_index_keeps. by apply ensure_index_new.
    - apply ensure_index_keeps. apply ensure_index_new.
      by rewrite ensure_index_other.
    - apply ensure_index_new. by rewrite !ensure_index_other. }
  split; [exact Hkeep|]. split; [exact Hthree|]. split.
  - intros name Hname. rewrite !not_elem_of_cons in Hname.
    destruct Hname as (H1 & H2 & H3 & _).
    unfold Collections.ensure_indexes. by rewrite !ensure_index_other.
  - set (pc' := Collections.ensure_indexes pc) in *.
    unfold Collections.ensure_indexes at 1.
    rewrite (ensure_index_present pc' Collections.IDX_QUESTIONS).
    2:{ rewrite Hthree; [by eexists|]. rewrite !elem_of_cons. tauto. }
    rewrite (ensure_index_present pc' Collections.IDX_SUMMARIES).
    2:{ rewrite Hthree; [by eexists|]. rewrite !elem_of_cons. tauto. }
    rewrite (ensure_index_present pc' Collections.IDX_CHUNKS); [done|].
    rewrite Hthree; [by eexists|]. rewrite !elem_of_cons. tauto.
Qed.

(** ** The whole indexing script with an embedder that answers *)

(** The records of a stage, each with the vector of its text. *)
Definition vectored {Vec : Type} (vec_of : pystr → Vec) (b : @Indexer.Built Vec)
    : list (@Indexer.IndexRecord Vec) :=
  zip_with (with_vector vec_of) (Indexer.texts b) (Indexer.records b).

Lemma build_questions_paired {Vec : Type} mm q_data :
  paired (@Indexer.build_questions Vec mm q_data).
Proof. rewrite build_questions_spec. apply built_from_lengths. Qed.

Lemma build_summaries_paired {Vec : Type} mm s_data :
  paired (@Indexer.build_summaries Vec mm s_data).
Proof. rewrite build_summaries_spec. apply built_from_lengths. Qed.

Lemma build_chunks_paired {Vec : Type} mm s_data :
  paired (@Indexer.build_chunks Vec mm s_data).
Proof. rewrite build_chunks_spec. apply built_from_lengths. Qed.



(** ** Every record comes from a row of a ledger *)

Section traceable.
Context {Vec : Type}.
Variable meta_map : gmap pystr Indexer.BaseMeta.

Lemma elem_of_built_records {X : Type}
    (entry : X → option (pystr * @Indexer.IndexRecord Vec)) rows r :
  r ∈ Indexer.records (built_from entry rows) ↔
  ∃ row text, row ∈ rows ∧ entry row = Some (text, r).
Proof.
  unfold built_from. cbn [Indexer.records].
  rewrite list_elem_of_fmap. split.
  - intros ([text r'] & -> & Hin). apply list_elem_of_omap in Hin as (row & ? & ?).
    by exists row, text.
  - intros (row & text & Hrow & Hentry). exists (text, r). split; [done|].
    apply list_elem_of_omap. by exists row.
Qed.

Lemma elem_of_chunk_rows s_data d i ch :
  (d, (i, ch)) ∈ chunk_rows s_data ↔
  ∃ chunks, (d, chunks) ∈ zip (s_doc_id s_data) (s_chunks s_data) ∧
            chunks !! i = Some ch.
Proof.
  unfold chunk_rows. rewrite list_elem_of_bind. split.
  - intros ([d' chunks] & Hin & Hrow).
    apply list_elem_of_fmap in Hin as ([i' ch'] & [= -> -> ->] & Hich).
    exists chunks. split; [done|].
    by apply (elem_of_lookup_imap (λ i ch, (i, ch))) in Hich
      as (? & ? & [= <- <-] & ?).
  - intros (chunks & Hrow & Hch). exists (d, chunks). split; [|done].
    apply list_elem_of_fmap. exists (i, ch). split; [done|].
    apply (elem_of_lookup_imap (λ i ch, (i, ch))). by exists i, ch.
Qed.
End traceable.


(** ** The backup file can always be resumed from *)

Lemma app_take_split {A : Type} (a p s i : list A) :
  a ++ p = s ++ i → (length p ≤ length i)%nat →
  a = s ++ take (length i - length p) i.
Proof.
  intros Heq Hlen.
  assert (Hl : (length a + length p = length s + length i)%nat)
    by (by rewrite <- !length_app, Heq).
  rewrite <- (take_app_length a p), Heq.
  rewrite take_app_ge by lia. f_equal. f_equal. lia.
Qed.

Section questions_disk.
Context {World : Type}.
Variable llm_invoke : World → Questions.Prompt → World * option pystr.
Variable summaries_data : SLedger.
Variable meta_map : gmap pystr (pystr * pystr).

(** A backup file from which the question driver can start again: it
    holds the entries of [store] followed by well-formed entries for
    distinct other documents of the summaries data. *)
Record q_resumable (store disk : QLedger) : Prop := mkQResumable {
  qr_extends : q_extends store disk;
  qr_wf : q_wf disk;
  qr_nodup : NoDup (q_doc_id disk);
  qr_ids :
    drop (length (q_doc_id store)) (q_doc_id disk)
      `sublist_of` s_doc_id summaries_data;
  qr_entries :
    Forall entry_ok (drop (length (q_questions store)) (q_questions disk));
}.

Lemma q_disk_resumable (store : QLedger) us (st0 : @Questions.QRun World) :
  Questions.questions_out st0 = store →
  q_on_disk st0 = store →
  Questions.processed_count st0 = 0 →
  q_wf store → NoDup (q_doc_id store) → NoDup (s_doc_id summaries_data) →
  us.*2 `sublist_of` s_doc_id summaries_data →
  q_resumable store
    (q_on_disk
       (foldl (Questions.loop_body llm_invoke summaries_data meta_map
                 (list_to_set (q_doc_id store))) st0 us)).
Proof.
  intros Hout Hdisk Hp0 Hwf Hnd Hdocs Hus.
  set (already := list_to_set (q_doc_id store) : gset pystr).
  assert (Hlag : q_lag st0).
  { split; [lia|]. rewrite Hp0, Hdisk, Hout. apply q_ahead_refl. }
  apply (q_run_lag llm_invoke summaries_data meta_map already us) in Hlag.
  pose proof (q_run_counters llm_invoke summaries_data meta_map already us st0)
    as Hcount.
  pose proof (q_run_entries llm_invoke summaries_data meta_map already us st0)
    as Hentries.
  cbn zeta in Hcount.
  set (st := foldl _ st0 us) in *.
  destruct Hlag as [Hp (pids & pqss & Hn1 & Hn2 & Hahead)].
  destruct Hentries as (ids & new & Hfin & Hlen & Hsub & Hok & Hnot).
  destruct Hcount as (_ & Hcount & _).
  rewrite Hout in *. rewrite Hfin in Hcount, Hahead. cbn [q_doc_id] in Hcount.
  rewrite length_app, Hp0 in Hcount.
  injection Hahead as Hids Hqss. symmetry in Hids, Hqss.
  assert (Hle : (length pids ≤ length ids)%nat).
  { rewrite Hn1. pose proof (Z.mod_le (Questions.processed_count st)
                               Questions.backup_every Hp ltac:(done)). lia. }
  apply app_take_split in Hids; [|done].
  apply app_take_split in Hqss; [|lia].
  set (disk := q_on_disk st) in *.
  split.
  - split; [rewrite Hids|rewrite Hqss]; by apply prefix_app_r.
  - unfold q_wf in *. rewrite Hids, Hqss, !length_app, !length_take. lia.
  - rewrite Hids. apply NoDup_app. split; [done|]. split.
    + intros d Hd (i & Hd'%list_elem_of_lookup_2 & _)%elem_of_take.
      rewrite Forall_forall in Hnot.
      apply (Hnot d Hd'). by apply elem_of_list_to_set.
    + eapply sublist_NoDup; [|apply sublist_take].
      eapply sublist_NoDup; [exact Hdocs|]. by etrans.
  - rewrite Hids, drop_app_length. etrans; [apply sublist_take|]. by etrans.
  - rewrite Hqss, drop_app_length.
    eapply Forall_sublist; [apply sublist_take|done].
Qed.
End questions_disk.

(** X20. Started as the script starts it from a well-formed backup with
    distinct ids, over summaries data with distinct ids, the question
    driver keeps a backup file that can be resumed from after any number
    of iterations of its loop: the file holds the loaded entries, in
    place, followed by entries appended by this run, it has one list of
    questions per id, no id twice, and the entries after the loaded ones
    are for documents of the summaries data, in their order, each
    well formed. Nothing that was in the file is ever lost or rewritten. *)
Theorem questions_backup_always_resumable {World : Type}
    (llm_invoke : World → Questions.Prompt → World * option pystr)
    (summaries_data : SLedger) (meta_map : gmap pystr (pystr * pystr))
    (f : option Questions.QBackup) (w : World) (k : nat) :
  q_wf (Questions.load_questions f) →
  NoDup (q_doc_id (Questions.load_questions f)) →
  NoDup (s_doc_id summaries_data) →
  let store := Questions.load_questions f in
  let st :=
    foldl (Questions.loop_body llm_invoke summaries_data meta_map
             (list_to_set (q_doc_id store)))
      (Questions.mkQRun store (Questions.as_file f) 0 0 0 w [])
      (take k (Questions.units summaries_data)) in
  q_resumable summaries_data store (default q_empty (Questions.backup_file st)).
Proof.
  intros Hwf Hnd Hdocs store st.
  apply (q_disk_resumable llm_invoke summaries_data meta_map store
           (take k (Questions.units summaries_data))); try done.
  - unfold q_on_disk. simpl. by destruct f.
  - rewrite fmap_take, q_units_positioned, positioned_snd. apply sublist_take.
Qed.

Lemma questions_backup_always_resumable_witness :
  (q_wf (Questions.load_questions
           (Some (Questions.mkQBackup [py "B"] [Demo.questions] None))) ∧
   NoDup (q_doc_id (Questions.load_questions
                      (Some (Questions.mkQBackup [py "B"] [Demo.questions] None)))) ∧
   NoDup (s_doc_id Demo.summaries)) ∧
  q_resumable Demo.summaries Demo.store_B
    (default q_empty
       (Questions.backup_file
          (foldl (Questions.loop_body Demo.steady_llm Demo.summaries Demo.q_meta
                    (list_to_set (q_doc_id Demo.store_B)))
             (Questions.mkQRun Demo.store_B (Some Demo.store_B) 0 0 0 0%nat [])
             (take 2 (Questions.units Demo.summaries))))).
Proof.
  assert (H1 : q_wf (Questions.load_questions
                       (Some (Questions.mkQBackup [py "B"] [Demo.questions] None))))
    by reflexivity.
  assert (H2 : NoDup (q_doc_id (Questions.load_questions
                 (Some (Questions.mkQBackup [py "B"] [Demo.questions] None)))))
    by compute_done.
  assert (H3 : NoDup (s_doc_id Demo.summaries)) by compute_done.
  split; [by repeat split|].
  exact (questions_backup_always_resumable Demo.steady_llm Demo.summaries Demo.q_meta
           (Some (Questions.mkQBackup [py "B"] [Demo.questions] None)) 0%nat 2
           H1 H2 H3).
Defined.

Section summaries_disk.
Context {World : Type}.
Variable process_docx_file process_excel_file :
  World → pystr → pystr → pystr → World * option (Summaries.Generated * list Chunk).
Variable meta_map : gmap pystr Summaries.FileMeta.
Variable file_ids : list pystr.

(** A backup file from which the summary driver can start again: it
    holds the entries of [store] followed by entries for distinct other
    files of the work list. *)
Record s_resumable (store disk : SLedger) : Prop := mkSResumable {
  sr_extends : s_extends store disk;
  sr_wf : s_wf disk;
  sr_nodup : NoDup (s_doc_id disk);
  sr_ids : drop (length (s_doc_id store)) (s_doc_id disk) `sublist_of` file_ids;
}.

(** The entries a run appends, whether it goes on or not. *)
Lemma s_loop_entries (already : gset pystr) us (st : @Summaries.SRun World) :
  let st' :=
    state_of (Summaries.run_loop process_docx_file process_excel_file meta_map
                already us st) in
  ∃ ids ss cs,
    Summaries.out st'
    = mkSLedger (s_doc_id (Summaries.out st) ++ ids)
        (s_summary (Summaries.out st) ++ ss) (s_chunks (Summaries.out st) ++ cs) ∧
    length ss = length ids ∧ length cs = length ids ∧
    ids `sublist_of` us.*2 ∧ Forall (λ d, d ∉ already) ids ∧
    Summaries.processed_count st'
    = Summaries.processed_count st + Z.of_nat (length ids).
Proof.
  revert st. induction us as [|[i d] us IH]; intros st;
    cbn [Summaries.run_loop].
  { exists [], [], []. rewrite !app_nil_r. simpl.
    destruct (Summaries.out st). repeat split; try done. lia. }
  pose proof (s_body_cases process_docx_file process_excel_file meta_map already
                st i d) as Hcases.
  cbn zeta in Hcases.
  destruct (Summaries.loop_body _ _ _ _ st (i, d)) as [st1|st1] eqn:Hbody;
    cbn [state_of] in Hcases.
  - destruct (IH st1) as (ids & ss & cs & Hout & H1 & H2 & Hsub & Hnot & Hp).
    cbn zeta. rewrite Hout, Hp. cbn [fmap list_fmap snd].
    destruct Hcases
      as [(_ & _ & E1 & _ & _ & E2 & _)
         |(Hin & _ & _ & [(s & c & E1 & E2 & _)|(E1 & E2 & _)])];
      rewrite E1, E2.
    + exists ids, ss, cs. repeat split; try done. by apply sublist_cons.
    + exists (d :: ids), (s :: ss), (c :: cs). unfold s_push. simpl.
      rewrite <- !(assoc_L (++)). simpl.
      repeat split; try done; try lia; [by apply sublist_skip|by constructor].
    + exists ids, ss, cs. repeat split; try done. by apply sublist_cons.
  - cbn [state_of]. exists [], [], []. rewrite !app_nil_r.
    destruct Hcases as [(_ & _ & E1 & _ & _ & E2 & _)|(_ & [=] & _)].
    rewrite E1, E2. simpl. destruct (Summaries.out st).
    repeat split; try done; [apply sublist_nil_l|lia].
Qed.

Lemma s_disk_resumable (store : SLedger) us (st0 : @Summaries.SRun World) :
  Summaries.out st0 = store →
  s_on_disk st0 = store →
  Summaries.processed_count st0 = 0 →
  s_wf store → NoDup (s_doc_id store) → NoDup file_ids →
  us.*2 `sublist_of` file_ids →
  s_resumable store
    (s_on_disk
       (state_of
          (Summaries.run_loop process_docx_file process_excel_file meta_map
             (list_to_set (s_doc_id store)) us st0))).
Proof.
  intros Hout Hdisk Hp0 [Hwf1 Hwf2] Hnd Hdocs Hus.
  set (already := list_to_set (s_doc_id store) : gset pystr).
  assert (Hlag : s_lag st0).
  { split; [lia|]. rewrite Hp0, Hdisk, Hout. apply s_ahead_refl. }
  apply (s_loop_lag process_docx_file process_excel_file meta_map already us)
    in Hlag.
  pose proof (s_loop_entries already us st0) as Hentries. cbn zeta in Hentries.
  set (st := state_of _) in *.
  destruct Hlag as [Hp (pids & pss & pcs & Hn1 & Hn2 & Hn3 & Hahead)].
  destruct Hentries as (ids & ss & cs & Hfin & Hl1 & Hl2 & Hsub & Hnot & Hcount).
  rewrite Hout in *. rewrite Hfin in Hahead. rewrite Hp0 in Hcount.
  injection Hahead as Hids Hss Hcs. symmetry in Hids, Hss, Hcs.
  assert (Hle : (length pids ≤ length ids)%nat).
  { rewrite Hn1. pose proof (Z.mod_le (Summaries.processed_count st)
                               Summaries.backup_every Hp ltac:(done)). lia. }
  apply app_take_split in Hids; [|done].
  apply app_take_split in Hss; [|lia].
  apply app_take_split in Hcs; [|lia].
  set (disk := s_on_disk st) in *.
  split.
  - split; [rewrite Hids|split; [rewrite Hss|rewrite Hcs]]; by apply prefix_app_r.
  - unfold s_wf. rewrite Hids, Hss, Hcs, !length_app, !length_take. lia.
  - rewrite Hids. apply NoDup_app. split; [done|]. split.
    + intros d Hd (i & Hd'%list_elem_of_lookup_2 & _)%elem_of_take.
      rewrite Forall_forall in Hnot.
      apply (Hnot d Hd'). by apply elem_of_list_to_set.
    + eapply sublist_NoDup; [|apply sublist_take].
      eapply sublist_NoDup; [exact Hdocs|]. by etrans.
  - rewrite Hids, drop_app_length. etrans; [apply sublist_take|]. by etrans.
Qed.
End summaries_disk.

(** X21. Started as the script starts it from a well-formed backup with
    distinct ids, over a work list with distinct ids, the summary driver
    keeps a backup file that can be resumed from after any number of
    iterations of its loop, also when the run is ended by an exception:
    the file holds the loaded entries, in place, followed by entries
    appended by this run, it has one summary and one list of chunks per
    id, no id twice, and the ids after the loaded ones are files of the
    work list, in their order. *)
Theorem summaries_backup_always_resumable {World : Type}
    (process_docx_file process_excel_file :
       World → pystr → pystr → pystr → World * option (Summaries.Generated * list Chunk))
    (meta_map : gmap pystr Summaries.FileMeta) (backup : option SLedger)
    (file_ids : list pystr) (w : World) (k : nat) :
  s_wf (default s_empty backup) →
  NoDup (s_doc_id (default s_empty backup)) →
  NoDup file_ids →
  let store := default s_empty backup in
  let st :=
    state_of
      (Summaries.run_loop process_docx_file process_excel_file meta_map
         (list_to_set (s_doc_id store))
         (take k (imap (λ i d, (i, d)) file_ids))
         (Summaries.mkSRun store backup [] 0 0 w [])) in
  s_resumable file_ids store (default s_empty (Summaries.backup_file st)).
Proof.
  intros Hwf Hnd Hdocs store st.
  apply (s_disk_resumable process_docx_file process_excel_file meta_map file_ids
           store (take k (imap (λ i d, (i, d)) file_ids))); try done.
  change (imap (λ i d, (i, d)) file_ids) with (positioned file_ids).
  rewrite fmap_take, positioned_snd. apply sublist_take.
Qed.

Lemma summaries_backup_always_resumable_witness :
  (s_wf (default s_empty (Some Demo.s_store_B)) ∧
   NoDup (s_doc_id (default s_empty (Some Demo.s_store_B))) ∧
   NoDup Demo.file_ids) ∧
  s_resumable Demo.file_ids Demo.s_store_B
    (default s_empty
       (Summaries.backup_file
          (state_of
             (Summaries.run_loop Demo.process Demo.process Demo.s_meta
                (list_to_set (s_doc_id Demo.s_store_B))
                (take 2 (imap (λ i d, (i, d)) Demo.file_ids))
                (Summaries.mkSRun Demo.s_store_B (Some Demo.s_store_B) [] 0 0
                   0%nat []))))).
Proof.
  assert (H1 : s_wf (default s_empty (Some Demo.s_store_B))) by (by split).
  assert (H2 : NoDup (s_doc_id (default s_empty (Some Demo.s_store_B))))
    by compute_done.
  assert (H3 : NoDup Demo.file_ids) by compute_done.
  split; [by repeat split|].
  exact (summaries_backup_always_resumable Demo.process Demo.process Demo.s_meta
           (Some Demo.s_store_B) Demo.file_ids 0%nat 2 H1 H2 H3).
Defined.
